(** * Flow Master: level generation, validation and uniqueness tracking

    A shallow embedding of the puzzle core of the game:
    - [Grid]: [getNeighbors] (utils/grid-utils) and [areAdjacent];
    - [Float64]: rounding to double precision, for the arithmetic done
      on random draws;
    - [Prng]: the random source [random()] as an explicit stream of draws;
    - [Validator]: [validateNumberlinkRules] (lib/level-validator);
    - [Generator]: [validateAnchors], [generateLevel] and
      [generateFallbackLevel] (lib/level-generator);
    - [Orchestrator]: [generateUniqueLevelSync]
      (utils/level-generation-utils) and the [tryGenerate] loop of
      [startLevel] (lib/game-logic);
    - [Daily]: [calculateColorCounts], [dateToSeed] and
      [generateDailyChallenge] (lib/daily-challenge).

    Conventions.  Cell indices, colour ids, grid dimensions and attempt
    counts are natural numbers; colour counts ([minC], [maxC],
    [targetColors]) are integers because the source computes them with
    subtraction.  A random draw is a double, written as the rational it
    denotes; every product and sum made with one is rounded to double
    precision.  Cell indices and counts are far below [2^53], where
    integer arithmetic on doubles is exact, so [Math.floor(a / b)] on
    them is the integer quotient.  A JavaScript object with integer keys
    is a list of (key, value) pairs kept in ascending key order, which
    is the order [Object.entries] enumerates such keys in.  Loops whose bound is not
    structural run on fuel and answer [OutOfFuel] when it is spent; the
    fuel given is shown to suffice ([generateLevel_has_fuel]). *)

From Stdlib Require Import String Ascii DecimalString.
From Stdlib Require Import List Arith ZArith QArith Qround Qabs Qpower.
From Stdlib Require Import SpecFloat Bool Lia Lqa Permutation Sorted.
Import ListNotations.

Close Scope Q_scope.
Open Scope nat_scope.
Open Scope list_scope.

Set Implicit Arguments.

(** What a call can do: return a value, throw, or (in the model only)
    exhaust the fuel of one of its loops. *)
Inductive Outcome (A : Type) : Type :=
| Returned (a : A)
| Threw
| OutOfFuel.

Arguments Returned {A} a.
Arguments Threw {A}.
Arguments OutOfFuel {A}.

(** [arr.includes(x)] on an array of numbers. *)
Definition includes (arr : list nat) (x : nat) : bool :=
  existsb (Nat.eqb x) arr.

(** [arr[i] = v]; an index past the end leaves the array as it is (typed
    arrays ignore such writes, and the generators never make one). *)
Fixpoint setNth {A : Type} (i : nat) (v : A) (arr : list A) : list A :=
  match arr, i with
  | [], _ => []
  | _ :: rest, 0 => v :: rest
  | x :: rest, S i' => x :: setNth i' v rest
  end.

(** [\[arr\[i\], arr\[j\]\] = \[arr\[j\], arr\[i\]\]]. *)
Definition swap (i j : nat) (arr : list nat) : list nat :=
  let a := nth i arr 0 in
  let b := nth j arr 0 in
  setNth j a (setNth i b arr).

(** The first element of [l] that makes [check] report an error: a [for]
    loop whose body returns on the first failure. *)
Fixpoint firstError {A E : Type} (check : A -> option E) (l : list A)
  : option E :=
  match l with
  | [] => None
  | x :: rest =>
      match check x with
      | Some e => Some e
      | None => firstError check rest
      end
  end.

(* ------------------------------------------------------------------ *)
(** ** Grid utilities *)

Module Grid.

(** [getNeighbors(idx, width, height)]: top, bottom, left, right, in
    that order.  With [width = 0] the source divides by zero: the row
    is [Infinity] ([NaN] for cell 0) and the column [NaN], so only the
    test [r > 0] can succeed and it pushes [idx - 0]. *)
Definition getNeighbors (idx width height : nat) : list nat :=
  if width =? 0 then
    (if idx =? 0 then [] else [idx])
  else
    let r := idx / width in
    let c := idx mod width in
    (if 0 <? r then [idx - width] else []) ++
    (if r <? height - 1 then [idx + width] else []) ++
    (if 0 <? c then [idx - 1] else []) ++
    (if c <? width - 1 then [idx + 1] else []).

(** [Math.abs(a - b)] on naturals. *)
Definition absDiff (a b : nat) : nat := (a - b) + (b - a).

(** [areAdjacent(idx1, idx2, width)]: Manhattan distance 1.  With
    [width = 0] every coordinate is [NaN] or infinite and the test
    fails. *)
Definition areAdjacent (idx1 idx2 width : nat) : bool :=
  if width =? 0 then false
  else
    let r1 := idx1 / width in
    let c1 := idx1 mod width in
    let r2 := idx2 / width in
    let c2 := idx2 mod width in
    absDiff r1 r2 + absDiff c1 c2 =? 1.

End Grid.

(* ------------------------------------------------------------------ *)
(** ** Double-precision arithmetic *)

Module Float64.

(** A JavaScript number is a binary64 float.  A finite one is modelled
    by the rational it denotes, and an arithmetic operation by the exact
    operation followed by [roundToDouble], which is how IEEE 754 defines
    it (round to nearest, ties to even).  The numbers rounded in this
    development are bounded by grid sizes and colour counts, far from the
    overflow threshold [2^1024], so infinities are left out. *)

(** The [e] with [2^e <= |q| < 2^(e+1)], for [q] other than 0. *)
Definition magnitude (q : Q) : Z :=
  let d := (Z.log2 (Z.abs (Qnum q)) - Z.log2 (Zpos (Qden q)))%Z in
  if Qle_bool (2 ^ d) (Qabs q) then d else (d - 1)%Z.

(** The integer nearest to [q]; halfway between two integers, the even
    one. *)
Definition nearestEven (q : Q) : Z :=
  let f := Qfloor q in
  match (q - inject_Z f ?= 1 # 2)%Q with
  | Lt => f
  | Gt => (f + 1)%Z
  | Eq => if Z.even f then f else (f + 1)%Z
  end.

(** The exponent of the unit in the last place of the binary64 numbers
    around [q]: 53 significant bits, and never below [2^-1074], the
    spacing of the subnormal numbers. *)
Definition ulpExponent (q : Q) : Z := Z.max (magnitude q - 52) (-1074).

(** The binary64 number nearest to [q]. *)
Definition roundToDouble (q : Q) : Q :=
  if Qeq_bool q 0 then 0%Q
  else (inject_Z (nearestEven (q / 2 ^ ulpExponent q)) * 2 ^ ulpExponent q)%Q.

(** The finite binary64 numbers: a significand of at most 53 bits and an
    exponent between -1074 and 971. *)
Definition isBinary64 (q : Q) : Prop :=
  exists m e : Z,
    (Z.abs m < 2 ^ 53)%Z /\ (-1074 <= e <= 971)%Z
    /\ (q == inject_Z m * 2 ^ e)%Q.

(** The value of a finite number of [SpecFloat], the Standard Library's
    specification of IEEE 754 arithmetic, to compare roundings with. *)
Definition valueOf (f : spec_float) : Q :=
  match f with
  | S754_finite s m e =>
      ((if s then - inject_Z (Zpos m) else inject_Z (Zpos m)) * 2 ^ e)%Q
  | _ => 0%Q
  end.

End Float64.

(* ------------------------------------------------------------------ *)
(** ** The random source *)

Module Prng.
Import Float64.

(** The floats successive calls of [random()] return; the state of the
    closure is the number of calls made so far. *)
Definition Rng : Type := nat -> Q.

(** A binary64 number in [\[0, 1)]. *)
Definition unitDouble (u : Q) : Prop :=
  isBinary64 u /\ (0 <= u)%Q /\ (u < 1)%Q.

(** The contract of [random()]: every draw is a float in [\[0, 1)]. *)
Definition wellFormed (random : Rng) : Prop :=
  forall i, unitDouble (random i).

(** [Math.floor(u * n)] for an array length or a counter [n]: the
    product is rounded to a double before the floor is taken. *)
Definition floorTimes (u : Q) (n : nat) : nat :=
  Z.to_nat (Qfloor (roundToDouble (u * inject_Z (Z.of_nat n)))).

(** [Math.floor(u * (maxC - minC + 1) + minC)]: the product is rounded,
    then the sum; [maxC - minC + 1] is a difference of small integers
    and is exact. *)
Definition pickColors (u : Q) (minC maxC : Z) : Z :=
  Qfloor
    (roundToDouble
       (roundToDouble (u * inject_Z (maxC - minC + 1)) + inject_Z minC)).

(** A draw with 32 fractional bits, [k / 2^32]: what a generator with
    32 bits of output yields. *)
Definition coarseDraw (u : Q) : Prop :=
  exists k : Z, (0 <= k < 2 ^ 32)%Z /\ (u == inject_Z k * 2 ^ (-32))%Q.

(** The literal [0.3]: the double nearest to 3/10. *)
Definition threeTenths : Q := Eval vm_compute in roundToDouble (3 # 10).

(** A periodic stream, for concrete runs. *)
Definition cycle (draws : list Q) : Rng :=
  fun i => nth (i mod length draws) draws 0%Q.

End Prng.

(* ------------------------------------------------------------------ *)
(** ** Data model *)

(** One entry of [solvedPaths]. *)
Record PathEntry : Type := mkPath {
  colorId : nat;
  path : list nat
}.

(** [Record<number, { colorId; type: 'endpoint' }>]: the entries in
    ascending cell order; every anchor has type ['endpoint'], so an entry
    is the cell and its colour. *)
Definition Anchors : Type := list (nat * nat).

Record LevelData : Type := mkLevel {
  width : nat;
  height : nat;
  anchors : Anchors;
  difficulty : nat;
  solvedPaths : list PathEntry
}.

(** [obj\[key\] = v] on an object with integer keys: overwrite or insert,
    keeping the keys ascending. *)
Fixpoint setEntry {V : Type} (key : nat) (v : V) (m : list (nat * V))
  : list (nat * V) :=
  match m with
  | [] => [(key, v)]
  | (k, old) :: rest =>
      if key =? k then (key, v) :: rest
      else if key <? k then (key, v) :: m
      else (k, old) :: setEntry key v rest
  end.

(** [obj\[key\]]; [None] stands for [undefined]. *)
Fixpoint lookup {V : Type} (key : nat) (m : list (nat * V)) : option V :=
  match m with
  | [] => None
  | (k, v) :: rest => if key =? k then Some v else lookup key rest
  end.

(** [anchors\[cell\] = { colorId, type: 'endpoint' }] and [anchors\[cell\]]. *)
Definition setAnchor (cell color : nat) (m : Anchors) : Anchors :=
  setEntry cell color m.

Definition getAnchor (cell : nat) (m : Anchors) : option nat :=
  lookup cell m.

(** [if (!colorAnchors\[colorId\]) colorAnchors\[colorId\] = \[\];
    colorAnchors\[colorId\].push(idx)]. *)
Definition pushColorAnchor (color idx : nat) (m : list (nat * list nat))
  : list (nat * list nat) :=
  match lookup color m with
  | Some cells => setEntry color (cells ++ [idx]) m
  | None => setEntry color [idx] m
  end.

(** The grouping loop shared by the validator and [validateAnchors]:
    [Object.entries(anchors).forEach(...)]. *)
Definition groupAnchors (a : Anchors) : list (nat * list nat) :=
  fold_left (fun m entry => pushColorAnchor (snd entry) (fst entry) m) a [].

(** First and last cell of a path ([path\[0\]], [path\[path.length - 1\]]). *)
Definition pathStart (p : list nat) : nat := nth 0 p 0.
Definition pathEnd (p : list nat) : nat := nth (length p - 1) p 0.

(** All cells of all paths, in path order. *)
Definition allCells (paths : list PathEntry) : list nat :=
  concat (map path paths).

(* ------------------------------------------------------------------ *)
(** ** The rule validator *)

Module Validator.

Inductive ValidationError : Type :=
| NoSolvedPaths
| NotTwoAnchors (color : nat)
| NoValidPath (color : nat)
| AnchorsNotAtEndpoints (color : nat)
| SameStartEnd (color : nat)
| AnchorInMiddle (color : nat)
| PathsOverlap (cell : nat)
| GridNotFilled (filled size : nat)
| BranchingAtEndpoint (color : nat)
| BranchingAtCell (color cell : nat)
| UTurn (color cell : nat).

Definition showNat (n : nat) : string :=
  NilEmpty.string_of_uint (Nat.to_uint n).

(** The error strings of the source. *)
Definition errorMessage (e : ValidationError) : string :=
  match e with
  | NoSolvedPaths => "No solved paths found"
  | NotTwoAnchors c => "Color " ++ showNat c ++ " must have exactly 2 anchors"
  | NoValidPath c => "Color " ++ showNat c ++ " has no valid path"
  | AnchorsNotAtEndpoints c =>
      "Color " ++ showNat c ++ " anchors not at path endpoints"
  | SameStartEnd c =>
      "Color " ++ showNat c ++ " has same start and end anchor"
  | AnchorInMiddle c =>
      "Color " ++ showNat c ++ " anchor appears in middle of path"
  | PathsOverlap cell => "Paths overlap at cell " ++ showNat cell
  | GridNotFilled filled size =>
      "Grid not fully filled: " ++ showNat filled ++ "/" ++ showNat size
      ++ " cells"
  | BranchingAtEndpoint c =>
      "Path for color " ++ showNat c ++ " has branching at endpoint"
  | BranchingAtCell c cell =>
      "Path for color " ++ showNat c ++ " has branching at cell "
      ++ showNat cell
  | UTurn c cell =>
      "Path for color " ++ showNat c ++ " contains U-turn at cell "
      ++ showNat cell
  end%string.

Record ValidationResult : Type := mkResult {
  isValid : bool;
  error : option ValidationError
}.

(** [path.path\[1 .. length - 2\]]. *)
Definition middle (p : list nat) : list nat := removelast (tl p).

(** Rules 1 and 3, the body of the loop over [colorAnchors]. *)
Definition checkColor (paths : list PathEntry)
    (entry : nat * list nat) : option ValidationError :=
  let color := fst entry in
  let anchorIndices := snd entry in
  if negb (length anchorIndices =? 2) then Some (NotTwoAnchors color)
  else
    match find (fun p => colorId p =? color) paths with
    | None => Some (NoValidPath color)
    | Some p =>
        if length (path p) <? 2 then Some (NoValidPath color)
        else if negb (includes anchorIndices (pathStart (path p)))
                || negb (includes anchorIndices (pathEnd (path p)))
        then Some (AnchorsNotAtEndpoints color)
        else if pathStart (path p) =? pathEnd (path p)
        then Some (SameStartEnd color)
        else if existsb (includes anchorIndices) (middle (path p))
        then Some (AnchorInMiddle color)
        else None
    end.

Definition checkAnchors (lv : LevelData) : option ValidationError :=
  firstError (checkColor (solvedPaths lv)) (groupAnchors (anchors lv)).

(** Rule 2, inner loop: [cellToColor] is the [Map] built so far. *)
Fixpoint overlapCells (color : nat) (cells : list nat)
    (cellToColor : list (nat * nat))
  : ValidationError + list (nat * nat) :=
  match cells with
  | [] => inr cellToColor
  | cell :: rest =>
      if includes (map fst cellToColor) cell then inl (PathsOverlap cell)
      else overlapCells color rest (cellToColor ++ [(cell, color)])
  end.

(** Rule 2, outer loop. *)
Fixpoint overlapPaths (paths : list PathEntry)
    (cellToColor : list (nat * nat)) : option ValidationError :=
  match paths with
  | [] => None
  | p :: rest =>
      match overlapCells (colorId p) (path p) cellToColor with
      | inl e => Some e
      | inr m => overlapPaths rest m
      end
  end.

Definition checkOverlap (lv : LevelData) : option ValidationError :=
  overlapPaths (solvedPaths lv) [].

(** Rule 4: [filledCells.size], the number of distinct path cells. *)
Definition filledCells (lv : LevelData) : list nat :=
  nodup Nat.eq_dec (allCells (solvedPaths lv)).

Definition checkFilled (lv : LevelData) : option ValidationError :=
  let size := width lv * height lv in
  let filled := length (filledCells lv) in
  if negb (filled =? size) then Some (GridNotFilled filled size) else None.

(** [neighbors.filter(n => path.path.includes(n))]. *)
Definition pathNeighbors (w h : nat) (p : list nat) (cell : nat)
  : list nat :=
  filter (includes p) (Grid.getNeighbors cell w h).

(** Non-branching rule at position [i] of a path. *)
Definition checkBranchAt (w h : nat) (p : PathEntry) (i : nat)
  : option ValidationError :=
  let cell := nth i (path p) 0 in
  let count := length (pathNeighbors w h (path p) cell) in
  if (i =? 0) || (i =? length (path p) - 1) then
    if negb (count =? 1) then Some (BranchingAtEndpoint (colorId p))
    else None
  else
    if negb (count =? 2) then Some (BranchingAtCell (colorId p) cell)
    else None.

Definition checkBranchPath (w h : nat) (p : PathEntry)
  : option ValidationError :=
  firstError (checkBranchAt w h p) (seq 0 (length (path p))).

Definition checkBranching (lv : LevelData) : option ValidationError :=
  firstError (checkBranchPath (width lv) (height lv)) (solvedPaths lv).

(** Rule 5 at position [i], for [1 <= i < length - 1]. *)
Definition checkUTurnAt (p : PathEntry) (i : nat)
  : option ValidationError :=
  let prev := nth (i - 1) (path p) 0 in
  let curr := nth i (path p) 0 in
  let next := nth (i + 1) (path p) 0 in
  if prev =? next then Some (UTurn (colorId p) curr) else None.

Definition checkUTurnPath (p : PathEntry) : option ValidationError :=
  firstError (checkUTurnAt p) (seq 1 (length (path p) - 2)).

Definition checkUTurns (lv : LevelData) : option ValidationError :=
  firstError checkUTurnPath (solvedPaths lv).

(** The rules in the order the source tries them; the first one that
    fails decides the error. *)
Definition firstViolation (lv : LevelData) : option ValidationError :=
  match solvedPaths lv with
  | [] => Some NoSolvedPaths
  | _ :: _ =>
      match checkAnchors lv with
      | Some e => Some e
      | None =>
      match checkOverlap lv with
      | Some e => Some e
      | None =>
      match checkFilled lv with
      | Some e => Some e
      | None =>
      match checkBranching lv with
      | Some e => Some e
      | None => checkUTurns lv
      end end end end
  end.

Definition validateNumberlinkRules (lv : LevelData) : ValidationResult :=
  match firstViolation lv with
  | Some e => {| isValid := false; error := Some e |}
  | None => {| isValid := true; error := None |}
  end.

End Validator.

(* ------------------------------------------------------------------ *)
(** ** The level generator *)

Module Generator.
Import Grid Prng.

Record ColorPalette : Type := mkColor { id : nat; hex : string }.

Record GenerateResult : Type := mkGenerated {
  level : LevelData;
  usedFallback : bool
}.

(** [BACKGROUND_GENERATION.MAX_ATTEMPTS_PER_LEVEL] (config/game). *)
Definition MAX_ATTEMPTS_PER_LEVEL : nat := 2000.

(** [validateAnchors(anchors, width)]: every colour has two anchors and
    they are not adjacent. *)
Definition validateAnchors (a : Anchors) (w : nat) : bool :=
  forallb
    (fun entry =>
       let anchorIndices := snd entry in
       (length anchorIndices =? 2)
       && negb (areAdjacent (nth 0 anchorIndices 0) (nth 1 anchorIndices 0) w))
    (groupAnchors a).

(** [grid\[n\] === -1] and [grid\[n\] === colorId] on the [Int32Array];
    a read past the end is [undefined] and equals nothing. *)
Definition isEmptyCell (grid : list Z) (n : nat) : bool :=
  match nth_error grid n with
  | Some v => (v =? -1)%Z
  | None => false
  end.

Definition hasColor (grid : list Z) (n color : nat) : bool :=
  match nth_error grid n with
  | Some v => (v =? Z.of_nat color)%Z
  | None => false
  end.

(** [emptyCells.delete(x)]. *)
Definition deleteCell (x : nat) (cells : list nat) : list nat :=
  filter (fun e => negb (e =? x)) cells.

(** The Fisher-Yates loop [for (i = length - 1; i > 0; i--)], entered
    at index [i]; returns the array and the advanced RNG position. *)
Fixpoint shuffleFrom (random : Rng) (i : nat) (arr : list nat) (pos : nat)
  : list nat * nat :=
  match i with
  | 0 => (arr, pos)
  | S i' =>
      let j := floorTimes (random pos) (i + 1) in
      shuffleFrom random i' (swap i j arr) (S pos)
  end.

Definition shuffle (random : Rng) (arr : list nat) (pos : nat)
  : list nat * nat :=
  shuffleFrom random (length arr - 1) arr pos.

(** *** Primary generator *)

(** The state of one attempt. *)
Record Filling : Type := mkFilling {
  grid : list Z;
  emptyCells : list nat;
  filledCount : nat;
  paths : list PathEntry;
  stuck : bool;
  pos : nat
}.

(** The state of the path being grown. *)
Record Growing : Type := mkGrowing {
  g_grid : list Z;
  g_empty : list nat;
  g_filled : nat;
  currentPath : list nat;
  curr : nat;
  g_pos : nat
}.

(** The sampling loop that chooses the start cell: [k] samples left;
    [startIdx = None] stands for [-1]. *)
Fixpoint pickStart (random : Rng) (w h : nat) (g : list Z)
    (emptyIndices : list nat) (k : nat) (bestScore : nat)
    (startIdx : option nat) (p : nat) : option nat * nat :=
  match k with
  | 0 => (startIdx, p)
  | S k' =>
      let r := floorTimes (random p) (length emptyIndices) in
      let idx := nth r emptyIndices 0 in
      let freeNeighbors :=
        length (filter (isEmptyCell g) (getNeighbors idx w h)) in
      if freeNeighbors <? bestScore
      then pickStart random w h g emptyIndices k' freeNeighbors (Some idx) (S p)
      else pickStart random w h g emptyIndices k' bestScore startIdx (S p)
  end.

(** The filter that computes [validMoves]. *)
Definition validMove (w h : nat) (g : list Z) (color cur next : nat)
  : bool :=
  if negb (isEmptyCell g next) then false
  else if existsb (fun nn => hasColor g nn color && negb (nn =? cur))
                  (getNeighbors next w h)
  then false
  else if w * h <? 400 then
    negb (existsb
            (fun n =>
               negb (n =? next) && isEmptyCell g n
               && (length (filter (fun nn => isEmptyCell g nn && negb (nn =? next))
                                  (getNeighbors n w h)) =? 0))
            (getNeighbors cur w h))
  else true.

(** [while (!pathStuck)]: extend the path until no valid move is left. *)
Fixpoint growPath (fuel : nat) (random : Rng) (w h color : nat)
    (st : Growing) : option Growing :=
  match fuel with
  | 0 => None
  | S fuel' =>
      let validMoves :=
        filter (validMove w h (g_grid st) color (curr st))
               (getNeighbors (curr st) w h) in
      if 0 <? length validMoves then
        let next :=
          nth (floorTimes (random (g_pos st)) (length validMoves))
              validMoves 0 in
        growPath fuel' random w h color
          {| g_grid := setNth next (Z.of_nat color) (g_grid st);
             g_empty := deleteCell next (g_empty st);
             g_filled := S (g_filled st);
             currentPath := currentPath st ++ [next];
             curr := next;
             g_pos := S (g_pos st) |}
      else Some st
  end.

(** The step after growth: a path shorter than 3 cells, or one with
    adjacent endpoints that cannot be extended, makes the attempt stuck;
    otherwise the path is pushed. *)
Definition finishPath (random : Rng) (w h color : nat)
    (ps : list PathEntry) (st : Growing) : Filling :=
  let stuckNow :=
    {| grid := g_grid st; emptyCells := g_empty st;
       filledCount := g_filled st; paths := ps; stuck := true;
       pos := g_pos st |} in
  if length (currentPath st) <? 3 then stuckNow
  else if areAdjacent (pathStart (currentPath st))
                      (pathEnd (currentPath st)) w then
    let lastCell := pathEnd (currentPath st) in
    let validExtensions :=
      filter (fun next => isEmptyCell (g_grid st) next
                          && negb (includes (currentPath st) next))
             (getNeighbors lastCell w h) in
    if 0 <? length validExtensions then
      let extension :=
        nth (floorTimes (random (g_pos st)) (length validExtensions))
            validExtensions 0 in
      {| grid := setNth extension (Z.of_nat color) (g_grid st);
         emptyCells := deleteCell extension (g_empty st);
         filledCount := S (g_filled st);
         paths := ps ++ [mkPath color (currentPath st ++ [extension])];
         stuck := false;
         pos := S (g_pos st) |}
    else stuckNow
  else
    {| grid := g_grid st; emptyCells := g_empty st;
       filledCount := g_filled st;
       paths := ps ++ [mkPath color (currentPath st)];
       stuck := false; pos := g_pos st |}.

(** One iteration of the loop that starts paths. *)
Definition startPath (random : Rng) (w h : nat) (st : Filling)
  : option Filling :=
  let emptyIndices := emptyCells st in
  let sampleSize := Nat.min (length emptyIndices) 15 in
  let (picked, p1) :=
    pickStart random w h (grid st) emptyIndices sampleSize 99 None (pos st) in
  let startIdx :=
    match picked with
    | Some idx => idx
    | None => nth 0 emptyIndices 0
    end in
  let color := length (paths st) in
  match
    growPath (S (length (emptyCells st))) random w h color
      {| g_grid := setNth startIdx (Z.of_nat color) (grid st);
         g_empty := deleteCell startIdx (emptyCells st);
         g_filled := S (filledCount st);
         currentPath := [startIdx];
         curr := startIdx;
         g_pos := p1 |}
  with
  | None => None
  | Some grown => Some (finishPath random w h color (paths st) grown)
  end.

(** [while (filledCount < size && emptyCells.size > 0 &&
    paths.length < targetColors)], left by [break] when stuck. *)
Fixpoint fillGrid (fuel : nat) (random : Rng) (w h : nat)
    (targetColors : Z) (st : Filling) : option Filling :=
  match fuel with
  | 0 => None
  | S fuel' =>
      if (filledCount st <? w * h) && (0 <? length (emptyCells st))
         && (Z.of_nat (length (paths st)) <? targetColors)%Z
      then
        match startPath random w h st with
        | None => None
        | Some st' =>
            if stuck st' then Some st'
            else fillGrid fuel' random w h targetColors st'
        end
      else Some st
  end.

(** [paths.forEach((p, i) => ...)] of the primary generator: path [i]
    takes colour [colorAssignments\[i\]] and its two ends become
    anchors. *)
Fixpoint assignColors (colorAssignments : list nat) (i : nat)
    (ps : list PathEntry) (a : Anchors) : list PathEntry * Anchors :=
  match ps with
  | [] => ([], a)
  | p :: rest =>
      let visibleColorId := nth i colorAssignments 0 in
      let a1 := setAnchor (pathStart (path p)) visibleColorId a in
      let a2 := setAnchor (pathEnd (path p)) visibleColorId a1 in
      let (ps', a') := assignColors colorAssignments (S i) rest a2 in
      (mkPath visibleColorId (path p) :: ps', a')
  end.

(** One pass of the attempt loop: the level when the attempt succeeds,
    and the RNG position it ends at. *)
Definition runAttempt (random : Rng) (w h : nat) (minC targetColors : Z)
    (p : nat) : option (option LevelData * nat) :=
  let size := w * h in
  match
    fillGrid (S size) random w h targetColors
      {| grid := repeat (-1)%Z size; emptyCells := seq 0 size;
         filledCount := 0; paths := []; stuck := false; pos := p |}
  with
  | None => None
  | Some st =>
      if negb (stuck st) && (filledCount st =? size)
         && (minC <=? Z.of_nat (length (paths st)))%Z
      then
        let (colorAssignments, p1) :=
          shuffle random (seq 0 (Z.to_nat targetColors)) (pos st) in
        if negb (Z.of_nat (length (paths st)) =? targetColors)%Z
        then Some (None, p1)
        else
          let (ps, a) := assignColors colorAssignments 0 (paths st) [] in
          if validateAnchors a w then
            Some (Some {| width := w; height := h; anchors := a;
                          difficulty := length ps; solvedPaths := ps |},
                  p1)
          else Some (None, p1)
      else Some (None, pos st)
  end.

Inductive PrimaryResult : Type :=
| Success (lv : LevelData)
| Exhausted (p : nat)
| PrimaryOutOfFuel.

(** [while (attempts < attemptsLimit)] with [n] attempts left. *)
Fixpoint attemptLoop (n : nat) (random : Rng) (w h : nat)
    (minC targetColors : Z) (p : nat) : PrimaryResult :=
  match n with
  | 0 => Exhausted p
  | S n' =>
      match runAttempt random w h minC targetColors p with
      | None => PrimaryOutOfFuel
      | Some (Some lv, _) => Success lv
      | Some (None, p') => attemptLoop n' random w h minC targetColors p'
      end
  end.

(** [Math.min(paletteLen, Math.floor(random() * (maxC - minC + 1) + minC))]. *)
Definition targetColorsOf (u : Q) (minC maxC : Z) (paletteLen : nat) : Z :=
  Z.min (Z.of_nat paletteLen) (pickColors u minC maxC).

(** *** Fallback generator *)

(** The state of the snake walk that builds one region.  The stack is
    kept with its top first: [stack.pop()] takes the head and
    [stack.push(...xs)] puts [rev xs] in front. *)
Record Snake : Type := mkSnake {
  s_grid : list Z;
  s_visited : list nat;
  s_region : list nat;
  s_stack : list nat;
  snakeDirection : nat;
  s_pos : nat
}.

(** [isPreferred]: 0 right, 1 down, 2 left, 3 up. *)
Definition isPreferred (w direction current n : nat) : bool :=
  let r := n / w in
  let c := n mod w in
  let currR := current / w in
  let currC := current mod w in
  ((direction =? 0) && (currC <? c))
  || ((direction =? 1) && (currR <? r))
  || ((direction =? 2) && (c <? currC))
  || ((direction =? 3) && (r <? currR)).

(** [while (stack.length > 0 && region.length < targetSize)]. *)
Fixpoint snake (fuel : nat) (random : Rng) (w h color targetSize : nat)
    (st : Snake) : option Snake :=
  match fuel with
  | 0 => None
  | S fuel' =>
      match s_stack st with
      | [] => Some st
      | current :: rest =>
          if negb (length (s_region st) <? targetSize) then Some st
          else if includes (s_visited st) current
                  || negb (isEmptyCell (s_grid st) current)
          then snake fuel' random w h color targetSize
                 {| s_grid := s_grid st; s_visited := s_visited st;
                    s_region := s_region st; s_stack := rest;
                    snakeDirection := snakeDirection st;
                    s_pos := s_pos st |}
          else
            let visited := s_visited st ++ [current] in
            let g := setNth current (Z.of_nat color) (s_grid st) in
            let open :=
              filter (fun n => negb (includes visited n) && isEmptyCell g n)
                     (getNeighbors current w h) in
            let preferredNeighbors :=
              filter (isPreferred w (snakeDirection st) current) open in
            let otherNeighbors :=
              filter (fun n => negb (isPreferred w (snakeDirection st) current n))
                     open in
            let (allNeighbors, p1) :=
              shuffle random (preferredNeighbors ++ otherNeighbors) (s_pos st) in
            let turn := negb (Qle_bool threeTenths (random p1)) in
            snake fuel' random w h color targetSize
              {| s_grid := g; s_visited := visited;
                 s_region := s_region st ++ [current];
                 s_stack := rev allNeighbors ++ rest;
                 snakeDirection :=
                   if turn then floorTimes (random (S p1)) 4
                   else snakeDirection st;
                 s_pos := if turn then S (S p1) else S p1 |}
      end
  end.

(** The state between regions. *)
Record Partition : Type := mkPartition {
  p_grid : list Z;
  p_visited : list nat;
  regions : list (list nat);
  p_pos : nat
}.

(** [for (colorId = 0; colorId < numColors; colorId++)] with [n]
    colours left; stops early when every cell is visited. *)
Fixpoint partition (n : nat) (random : Rng) (w h : nat)
    (targetCellsPerPath remainder : nat) (color : nat) (st : Partition)
  : option Partition :=
  match n with
  | 0 => Some st
  | S n' =>
      let targetSize :=
        targetCellsPerPath + (if color <? remainder then 1 else 0) in
      match find (fun i => negb (includes (p_visited st) i)) (seq 0 (w * h)) with
      | None => Some st
      | Some startIdx =>
          match
            snake (4 * (w * h) + 2) random w h color targetSize
              {| s_grid := p_grid st; s_visited := p_visited st;
                 s_region := []; s_stack := [startIdx];
                 snakeDirection := floorTimes (random (p_pos st)) 4;
                 s_pos := S (p_pos st) |}
          with
          | None => None
          | Some s =>
              partition n' random w h targetCellsPerPath remainder (S color)
                {| p_grid := s_grid s; p_visited := s_visited s;
                   regions := regions st ++ [s_region s];
                   p_pos := s_pos s |}
          end
      end
  end.

(** The inner loop of phase 2: the region whose middle cell is nearest
    to row [r], column [c]; [minDist = None] stands for [Infinity]. *)
Fixpoint nearestFrom (w r c : nat) (rs : list (list nat)) (j : nat)
    (minDist : option nat) (nearestRegion : nat) : nat :=
  match rs with
  | [] => nearestRegion
  | region :: rest =>
      if length region =? 0 then
        nearestFrom w r c rest (S j) minDist nearestRegion
      else
        let regionCenter := nth (length region / 2) region 0 in
        let dist :=
          absDiff r (regionCenter / w) + absDiff c (regionCenter mod w) in
        let closer :=
          match minDist with
          | None => true
          | Some d => dist <? d
          end in
        if closer then nearestFrom w r c rest (S j) (Some dist) j
        else nearestFrom w r c rest (S j) minDist nearestRegion
  end.

(** Phase 2 over the cells [0 .. size - 1]:
    [regions\[nearestRegion\].push(i)] throws a TypeError when there is
    no region at all. *)
Fixpoint fillRemaining (cells : list nat) (w : nat) (g : list Z)
    (rs : list (list nat)) : Outcome (list Z * list (list nat)) :=
  match cells with
  | [] => Returned (g, rs)
  | i :: rest =>
      if isEmptyCell g i then
        let nearestRegion := nearestFrom w (i / w) (i mod w) rs 0 None 0 in
        match nth_error rs nearestRegion with
        | None => Threw
        | Some region =>
            fillRemaining rest w
              (setNth i (Z.of_nat nearestRegion) g)
              (setNth nearestRegion (region ++ [i]) rs)
        end
      else fillRemaining rest w g rs
  end.

(** [Array.prototype.sort] with the comparator [key a - key b]: a
    stable sort by ascending key. *)
Fixpoint insertByKey (key : nat -> nat) (x : nat) (sorted : list nat)
  : list nat :=
  match sorted with
  | [] => [x]
  | y :: rest =>
      if key x <? key y then x :: sorted
      else y :: insertByKey key x rest
  end.

Definition sortByKey (key : nat -> nat) (l : list nat) : list nat :=
  fold_left (fun acc x => insertByKey key x acc) l [].

(** The state of the walk that turns a region into a path. *)
Record Walk : Type := mkWalk {
  visitedInRegion : list nat;
  walkPath : list nat
}.

(** The recursive closure [dfs(idx)]. *)
Fixpoint dfs (fuel : nat) (w h : nat) (region : list nat) (idx : nat)
    (st : Walk) : option Walk :=
  match fuel with
  | 0 => None
  | S fuel' =>
      if includes (visitedInRegion st) idx || negb (includes region idx)
      then Some st
      else
        let visited := visitedInRegion st ++ [idx] in
        let unvisited :=
          fun n => includes region n && negb (includes visited n) in
        let validNeighbors := filter unvisited (getNeighbors idx w h) in
        let sorted :=
          sortByKey
            (fun a => length (filter unvisited (getNeighbors a w h)))
            validNeighbors in
        fold_left
          (fun acc neighbor =>
             match acc with
             | Some s => dfs fuel' w h region neighbor s
             | None => None
             end)
          sorted
          (Some {| visitedInRegion := visited;
                   walkPath := walkPath st ++ [idx] |})
  end.

(** [path.indexOf(x)]; only called on members of the path. *)
Fixpoint indexOf (x : nat) (l : list nat) : nat :=
  match l with
  | [] => 0
  | y :: rest => if y =? x then 0 else S (indexOf x rest)
  end.

(** [path.splice(insertIdx, 0, cell)]. *)
Definition insertAt (insertIdx cell : nat) (p : list nat) : list nat :=
  firstn insertIdx p ++ cell :: skipn insertIdx p.

(** The loop over [remaining]: cells the walk missed are spliced in
    after a neighbour that is on the path, or appended. *)
Fixpoint spliceRemaining (remaining : list nat) (w h : nat) (p : list nat)
  : list nat :=
  match remaining with
  | [] => p
  | cell :: rest =>
      let pathNeighbors := filter (includes p) (getNeighbors cell w h) in
      match pathNeighbors with
      | first :: _ =>
          spliceRemaining rest w h (insertAt (indexOf first p + 1) cell p)
      | [] => spliceRemaining rest w h (p ++ [cell])
      end
  end.

(** The start of the walk: the first region cell on the border of the
    grid, or [region\[0\]]. *)
Definition startCellOf (w h : nat) (region : list nat) : nat :=
  match
    find (fun cell =>
            let r := cell / w in
            let c := cell mod w in
            (r =? 0) || (r =? h - 1) || (c =? 0) || (c =? w - 1))
         region
  with
  | Some cell => cell
  | None => nth 0 region 0
  end.

(** The end of phase 3 for one region: which path, if any, is pushed. *)
Definition settlePath (w color : nat) (p : list nat) : list PathEntry :=
  if (3 <=? length p) && negb (areAdjacent (pathStart p) (pathEnd p) w)
  then [mkPath color p]
  else if 3 <=? length p then
    let betterEnd :=
      match
        find (fun i => negb (areAdjacent (pathStart p) (nth i p 0) w))
             (rev (seq 1 (length p - 2)))
      with
      | Some i => nth i p 0
      | None => pathEnd p
      end in
    let endIdx := indexOf betterEnd p in
    if (0 <? endIdx) && (endIdx <? length p - 1) then
      let adjustedPath := firstn (endIdx + 1) p in
      if 3 <=? length adjustedPath then [mkPath color adjustedPath] else []
    else [mkPath color p]
  else [].

(** Phase 3: [for (colorId = 0; colorId < regions.length; colorId++)]. *)
Fixpoint linearize (rs : list (list nat)) (w h color : nat)
    (ps : list PathEntry) : option (list PathEntry) :=
  match rs with
  | [] => Some ps
  | region :: rest =>
      if length region =? 0 then linearize rest w h (S color) ps
      else
        match
          dfs (S (length region)) w h region (startCellOf w h region)
            {| visitedInRegion := []; walkPath := [] |}
        with
        | None => None
        | Some walked =>
            let p :=
              if length (walkPath walked) <? length region then
                spliceRemaining
                  (filter (fun cell => negb (includes (visitedInRegion walked) cell))
                          region)
                  w h (walkPath walked)
              else walkPath walked in
            linearize rest w h (S color) (ps ++ settlePath w color p)
        end
  end.

(** [paths.forEach((p, i) => ...)] of the fallback generator. *)
Fixpoint assignFallbackColors (colorAssignments : list nat)
    (numColors i : nat) (ps : list PathEntry) (a : Anchors)
  : list PathEntry * Anchors :=
  match ps with
  | [] => ([], a)
  | p :: rest =>
      let visibleColorId :=
        if i <? numColors then nth i colorAssignments 0
        else nth (i mod numColors) colorAssignments 0 in
      let a1 := setAnchor (pathStart (path p)) visibleColorId a in
      let a2 := setAnchor (pathEnd (path p)) visibleColorId a1 in
      let (ps', a') :=
        assignFallbackColors colorAssignments numColors (S i) rest a2 in
      (mkPath visibleColorId (path p) :: ps', a')
  end.

(** [fixedAnchors\[k\] = anchors\[src\]]. *)
Definition copyAnchor (a : Anchors) (src k : nat) (fixed : Anchors)
  : Anchors :=
  match getAnchor src a with
  | Some color => setAnchor k color fixed
  | None => fixed
  end.

(** The body of the repair loop over [colorAnchors]. *)
Definition fixColor (w paletteLen : nat) (ps : list PathEntry)
    (a : Anchors) (fixed : Anchors) (entry : nat * list nat) : Anchors :=
  match snd entry with
  | [anchor1; anchor2] =>
      let found :=
        if paletteLen =? 0 then None
        else find (fun p => colorId p mod paletteLen =? fst entry) ps in
      match found with
      | Some p =>
          if areAdjacent anchor1 anchor2 w then
            let newAnchor2 :=
              match
                find (fun candidate => negb (areAdjacent anchor1 candidate w))
                     (Validator.middle (path p))
              with
              | Some candidate => candidate
              | None => anchor2
              end in
            copyAnchor a anchor2 newAnchor2 (copyAnchor a anchor1 anchor1 fixed)
          else copyAnchor a anchor2 anchor2 (copyAnchor a anchor1 anchor1 fixed)
      | None => copyAnchor a anchor2 anchor2 (copyAnchor a anchor1 anchor1 fixed)
      end
  | _ => fixed
  end.

(** [generateFallbackLevel(width, height, minC, maxC, palette, random,
    paletteLen)], with [random] at position [p]. *)
Definition generateFallbackLevel (w h : nat) (minC maxC : Z)
    (random : Rng) (p : nat) (paletteLen : nat) : Outcome LevelData :=
  let size := w * h in
  let numColorsZ :=
    Z.min (Z.of_nat paletteLen) (Z.max minC (pickColors (random p) minC maxC)) in
  let numColors := Z.to_nat numColorsZ in
  let targetCellsPerPath := size / numColors in
  let remainder := size mod numColors in
  match
    partition numColors random w h targetCellsPerPath remainder 0
      {| p_grid := repeat (-1)%Z size; p_visited := []; regions := [];
         p_pos := S p |}
  with
  | None => OutOfFuel
  | Some parts =>
      match fillRemaining (seq 0 size) w (p_grid parts) (regions parts) with
      | Threw => Threw
      | OutOfFuel => OutOfFuel
      | Returned (_, rs) =>
          match linearize rs w h 0 [] with
          | None => OutOfFuel
          | Some ps0 =>
              let (colorAssignments, _) :=
                shuffle random (seq 0 numColors) (p_pos parts) in
              let (ps, a) :=
                assignFallbackColors colorAssignments numColors 0 ps0 [] in
              let fixedAnchors :=
                fold_left (fixColor w paletteLen ps a) (groupAnchors a) [] in
              if negb (validateAnchors a w) && validateAnchors fixedAnchors w
              then
                Returned {| width := w; height := h; anchors := fixedAnchors;
                            difficulty := length ps; solvedPaths := ps |}
              else
                Returned {| width := w; height := h; anchors := a;
                            difficulty := length ps; solvedPaths := ps |}
          end
      end
  end.

(** [seed ? mulberry32(seed) : Math.random]: a seed that is absent or
    zero is falsy. *)
Definition randomOf (mulberry32 : Z -> Rng) (mathRandom : Rng)
    (seed : option Z) : Rng :=
  match seed with
  | Some s => if (s =? 0)%Z then mathRandom else mulberry32 s
  | None => mathRandom
  end.

(** [palette ? palette.length : 20]. *)
Definition paletteLenOf (palette : option (list ColorPalette)) : nat :=
  match palette with
  | Some colors => length colors
  | None => 20
  end.

(** [generateLevel(width, height, minC, maxC, palette, seed?,
    maxAttempts?)].  [mulberry32] (lib/prng) is not part of the sources
    at hand and is a parameter; [mathRandom] is the stream the platform's
    [Math.random] yields during this call. *)
Definition generateLevel (mulberry32 : Z -> Rng) (mathRandom : Rng)
    (w h : nat) (minC maxC : Z) (palette : option (list ColorPalette))
    (seed : option Z) (maxAttempts : option nat) : Outcome GenerateResult :=
  let random := randomOf mulberry32 mathRandom seed in
  let paletteLen := paletteLenOf palette in
  let targetColors := targetColorsOf (random 0) minC maxC paletteLen in
  let attemptsLimit :=
    match maxAttempts with
    | Some n => n
    | None => MAX_ATTEMPTS_PER_LEVEL
    end in
  match attemptLoop attemptsLimit random w h minC targetColors 1 with
  | PrimaryOutOfFuel => OutOfFuel
  | Success lv => Returned {| level := lv; usedFallback := false |}
  | Exhausted p =>
      match generateFallbackLevel w h minC maxC random p paletteLen with
      | Returned lv => Returned {| level := lv; usedFallback := true |}
      | Threw => Threw
      | OutOfFuel => OutOfFuel
      end
  end.

End Generator.

(* ------------------------------------------------------------------ *)
(** ** The uniqueness-seeking retry loops *)

Module Orchestrator.
Import Validator.

(** [Set<string>] of fingerprints; only [has] is ever called on it. *)
Definition HashSet : Type := list string.

Definition has (s : HashSet) (h : string) : bool :=
  existsb (String.eqb h) s.

(** A string in a condition: the empty string is falsy. *)
Definition truthy (s : string) : bool :=
  negb (String.eqb s EmptyString).

Record GenerateUniqueLevelOptions : Type := mkOptions {
  o_width : nat;
  o_height : nat;
  minC : Z;
  maxC : Z;
  palette : option (list Generator.ColorPalette);
  existingHashes : HashSet;
  maxAttempts : option nat;
  seedGenerator : option (nat -> Z)
}.

Record GenerateUniqueLevelResult : Type := mkUnique {
  level : option LevelData;
  hash : option string;
  isUnique : bool;
  attempts : nat
}.

Section Loops.

(** [generateLevelHash] (lib/level-compression) is not part of the
    sources at hand: a parameter. *)
Variable generateLevelHash : LevelData -> string.

(** The [k]-th call this request makes of
    [generateLevel(width, height, minC, maxC, palette, seed)]: what it
    does and, when it returns, [result.level] ([None] for [null]) and
    [result.usedFallback].  The index stands for the state of the
    platform's random source at that call. *)
Variable generateLevel :
  nat -> nat -> nat -> Z -> Z -> option (list Generator.ColorPalette) ->
  option Z -> Outcome (option LevelData * bool).

(** [Math.floor(Math.random() * 1000000)] at attempt [k]. *)
Variable randomSeed : nat -> Z.

(** The [for] loop of [generateUniqueLevelSync], with [remaining]
    passes left and [attempt] the loop counter.  A throw inside the
    [try] block is caught and the loop goes on. *)
Fixpoint uniqueLoop (opts : GenerateUniqueLevelOptions)
    (seedOf : nat -> Z) (limit remaining attempt : nat)
  : Outcome GenerateUniqueLevelResult :=
  match remaining with
  | 0 =>
      Returned {| level := None; hash := None; isUnique := false;
                  attempts := limit |}
  | S remaining' =>
      let next := uniqueLoop opts seedOf limit remaining' (S attempt) in
      let levelSeed := seedOf attempt in
      match
        generateLevel attempt (o_width opts) (o_height opts) (minC opts)
          (maxC opts) (palette opts) (Some levelSeed)
      with
      | OutOfFuel => OutOfFuel
      | Threw => next
      | Returned (None, _) => next
      | Returned (Some lv, _) =>
          if negb (isValid (validateNumberlinkRules lv)) then next
          else
            let h := generateLevelHash lv in
            if truthy h && negb (has (existingHashes opts) h) then
              Returned {| level := Some lv; hash := Some h;
                          isUnique := true; attempts := attempt + 1 |}
            else next
      end
  end.

(** [generateUniqueLevelSync(options)]: the result, and the contents
    of the [existingHashes] set object after the call. *)
Definition generateUniqueLevelSync (opts : GenerateUniqueLevelOptions)
  : Outcome GenerateUniqueLevelResult * HashSet :=
  let limit :=
    match maxAttempts opts with
    | Some n => n
    | None => 200
    end in
  let seedOf :=
    match seedGenerator opts with
    | Some f => f
    | None => randomSeed
    end in
  (uniqueLoop opts seedOf limit limit 0, existingHashes opts).

(** *** The [tryGenerate] loop of [startLevel] *)

(** [addLevelHash] (lib/level-compression) is not part of the sources
    at hand: a parameter. *)
Variable addLevelHash : string -> list string -> list string.

(** Which of the optional callbacks of [startLevel] the caller passed
    ([setLevelData] and [setIsGenerating] are mandatory). *)
Record Callbacks : Type := mkCallbacks {
  setGenerationWarning : bool;
  setProgress : bool;
  setLevelUsedFallback : bool;
  setLevelValidationError : bool
}.

(** What the callbacks of [startLevel] have been told so far; [None]
    in [levelData] means [setLevelData] was not called yet.  A callback
    that was not passed is never called, and its field keeps the value
    it has. *)
Record Ui : Type := mkUi {
  levelData : option (option LevelData);
  isGenerating : bool;
  generationWarning : option string;
  levelValidationError : option string;
  levelUsedFallback : option bool;
  generatedLevelHashes : list string
}.

(** [validation.error || 'Level validation failed']. *)
Definition errorText (v : ValidationResult) : string :=
  match error v with
  | Some e => errorMessage e
  | None => "Level validation failed"%string
  end.

(** The branch [isUnique || attempts >= 20] taken with [isUnique]
    false: warn, validate what is there, hand it over.  The warnings are
    issued only [if (... && setGenerationWarning)], and the final
    validation is run only [if (newLevel && !isUnique &&
    setLevelValidationError)]. *)
Definition giveUp (cb : Callbacks) (newLevel : option LevelData) (ui : Ui)
  : Ui :=
  let finalInvalid :=
    match newLevel with
    | Some lv =>
        setLevelValidationError cb
        && negb (isValid (validateNumberlinkRules lv))
    | None => false
    end in
  {| levelData := Some newLevel;
     isGenerating := false;
     generationWarning :=
       if setGenerationWarning cb then
         if finalInvalid
         then Some "Generated level may have issues. Consider regenerating."%string
         else Some "Replaying random level."%string
       else generationWarning ui;
     levelValidationError :=
       match newLevel with
       | Some lv =>
           if finalInvalid
           then Some (errorText (validateNumberlinkRules lv))
           else levelValidationError ui
       | None => levelValidationError ui
       end;
     levelUsedFallback := levelUsedFallback ui;
     generatedLevelHashes := generatedLevelHashes ui |}.

(** [tryGenerate], rescheduled until a unique level is found or 20
    attempts are spent; [remaining] is [20 - attempts].  The call of
    [generateLevel] is made without a seed.  [setLevelValidationError],
    [setProgress] and [setLevelUsedFallback] are called only when they
    were passed. *)
Fixpoint tryGenerate (cb : Callbacks) (w h : nat) (lo hi : Z)
    (pal : option (list Generator.ColorPalette))
    (allExistingHashes : HashSet) (progressHashes : list string)
    (remaining attempts : nat) (newLevel : option LevelData) (ui : Ui)
  : Outcome Ui :=
  match remaining with
  | 0 => Returned (giveUp cb newLevel ui)
  | S remaining' =>
      match generateLevel attempts w h lo hi pal None with
      | OutOfFuel => OutOfFuel
      | Threw => Threw
      | Returned (None, _) => Threw
      | Returned (Some lv, fallback) =>
          let validation := validateNumberlinkRules lv in
          if negb (isValid validation) then
            tryGenerate cb w h lo hi pal allExistingHashes progressHashes
              remaining' (S attempts) (Some lv)
              {| levelData := levelData ui;
                 isGenerating := isGenerating ui;
                 generationWarning := generationWarning ui;
                 levelValidationError :=
                   if setLevelValidationError cb
                   then Some (errorText validation)
                   else levelValidationError ui;
                 levelUsedFallback := levelUsedFallback ui;
                 generatedLevelHashes := generatedLevelHashes ui |}
          else
            let fingerprint := generateLevelHash lv in
            if negb (has allExistingHashes fingerprint) then
              Returned
                {| levelData := Some (Some lv);
                   isGenerating := false;
                   generationWarning := generationWarning ui;
                   levelValidationError :=
                     if setLevelValidationError cb then None
                     else levelValidationError ui;
                   levelUsedFallback :=
                     if setLevelUsedFallback cb then Some fallback
                     else levelUsedFallback ui;
                   generatedLevelHashes :=
                     if setProgress cb
                     then addLevelHash fingerprint progressHashes
                     else generatedLevelHashes ui |}
            else
              tryGenerate cb w h lo hi pal allExistingHashes progressHashes
                remaining' (S attempts) (Some lv) ui
      end
  end.

(** The UI state when [startLevel] enters the loop. *)
Definition loading (progressHashes : list string) : Ui :=
  {| levelData := None; isGenerating := true; generationWarning := None;
     levelValidationError := None; levelUsedFallback := None;
     generatedLevelHashes := progressHashes |}.

(** The client-side generation of [startLevel] for a level that is not
    in the history: 20 attempts. *)
Definition startLevelLoop (cb : Callbacks) (w h : nat) (lo hi : Z)
    (pal : option (list Generator.ColorPalette))
    (allExistingHashes : HashSet) (progressHashes : list string)
  : Outcome Ui :=
  tryGenerate cb w h lo hi pal allExistingHashes progressHashes 20 0 None
    (loading progressHashes).

End Loops.

(** The call of the generator the loops above make, on the model of
    [Generator.generateLevel]: [mathRandomAt k] is the stream
    [Math.random] yields during call [k]. *)
Definition callGenerator (mulberry32 : Z -> Prng.Rng)
    (mathRandomAt : nat -> Prng.Rng) (k w h : nat) (lo hi : Z)
    (pal : option (list Generator.ColorPalette)) (seed : option Z)
  : Outcome (option LevelData * bool) :=
  match
    Generator.generateLevel mulberry32 (mathRandomAt k) w h lo hi pal seed None
  with
  | Returned g =>
      Returned (Some (Generator.level g), Generator.usedFallback g)
  | Threw => Threw
  | OutOfFuel => OutOfFuel
  end.

End Orchestrator.


(* ------------------------------------------------------------------ *)
(** ** The daily challenge *)

Module Daily.

Record GridSizeConfig : Type := mkConfig {
  maxCellsPerColor : nat;
  minCellsPerColor : nat
}.

(** [matchesSize(width, height, ...sizes)], order-independent. *)
Definition matchesSize (w h : nat) (sizes : list (nat * nat)) : bool :=
  existsb
    (fun s => ((w =? fst s) && (h =? snd s)) || ((w =? snd s) && (h =? fst s)))
    sizes.

(** [getGridSizeConfig(width, height)] (utils/grid-utils). *)
Definition getGridSizeConfig (w h : nat) : GridSizeConfig :=
  if Nat.max w h <=? 9 then mkConfig 10 6
  else if matchesSize w h [(8, 11); (10, 10); (9, 12); (11, 11); (10, 13)]
  then mkConfig 9 6
  else if matchesSize w h [(12, 12); (11, 14); (13, 13); (12, 15); (14, 14)]
  then mkConfig 8 6
  else if matchesSize w h [(13, 16); (15, 15); (14, 17); (15, 18); (16, 19)]
  then mkConfig 7 6
  else mkConfig 6 6.

(** [Math.ceil(a / b)] for positive [b]. *)
Definition ceilDiv (a b : nat) : nat := (a + b - 1) / b.

Record ColorCounts : Type := mkCounts {
  minC : nat;
  maxC : nat;
  shouldShowNumbers : bool
}.

(** [calculateColorCounts(width, height, maxPaletteSize)]. *)
Definition calculateColorCounts (w h maxPaletteSize : nat) : ColorCounts :=
  let totalCells := w * h in
  let config := getGridSizeConfig w h in
  let idealMinC := ceilDiv totalCells (maxCellsPerColor config) in
  let idealMaxC := ceilDiv totalCells (minCellsPerColor config) in
  let calculatedMinC := Nat.max 4 idealMinC in
  let calculatedMaxC := idealMaxC in
  if maxPaletteSize <? calculatedMaxC then
    mkCounts (Nat.max 4 (maxPaletteSize * 3 / 4)) maxPaletteSize true
  else
    let lo := calculatedMinC in
    let hi := Nat.min maxPaletteSize (Nat.max lo calculatedMaxC) in
    mkCounts lo hi (maxPaletteSize <=? hi).

(** A calendar date. *)
Record CivilDate : Type := mkDate {
  year : nat;
  month : nat;
  day : nat
}.

Definition isLeapYear (y : nat) : bool :=
  (y mod 4 =? 0) && (negb (y mod 100 =? 0) || (y mod 400 =? 0)).

Definition daysInMonth (y m : nat) : nat :=
  match m with
  | 1 | 3 | 5 | 7 | 8 | 10 | 12 => 31
  | 4 | 6 | 9 | 11 => 30
  | 2 => if isLeapYear y then 29 else 28
  | _ => 0
  end.

Definition previousDay (d : CivilDate) : CivilDate :=
  if 1 <? day d then mkDate (year d) (month d) (day d - 1)
  else if 1 <? month d
  then mkDate (year d) (month d - 1) (daysInMonth (year d) (month d - 1))
  else mkDate (year d - 1) 12 31.

Definition digitOf (c : ascii) : option nat :=
  let n := nat_of_ascii c in
  if (48 <=? n) && (n <=? 57) then Some (n - 48) else None.

Definition number2 (a b : ascii) : option nat :=
  match digitOf a, digitOf b with
  | Some x, Some y => Some (10 * x + y)
  | _, _ => None
  end.

(** The date-only ISO form [YYYY-MM-DD] accepted by [new Date(string)];
    [None] stands for an invalid date, and for strings in another form. *)
Definition parseIsoDate (s : string) : option CivilDate :=
  match s with
  | String y1 (String y2 (String y3 (String y4 (String dash1
      (String m1 (String m2 (String dash2
      (String d1 (String d2 EmptyString))))))))) =>
      match number2 y1 y2, number2 y3 y4, number2 m1 m2, number2 d1 d2 with
      | Some yh, Some yl, Some m, Some d =>
          let y := 100 * yh + yl in
          if (nat_of_ascii dash1 =? 45) && (nat_of_ascii dash2 =? 45)
             && (1 <=? m) && (m <=? 12) && (1 <=? d) && (d <=? daysInMonth y m)
          then Some (mkDate y m d)
          else None
      | _, _, _, _ => None
      end
  | _ => None
  end.

(** The local calendar date of the instant [new Date("YYYY-MM-DD")]
    denotes.  A date-only string is midnight UTC of that day; in a zone
    whose offset from UTC is [utcOffsetMinutes] (east positive, less than
    a day either way) that instant falls on the day before when the
    offset is negative, and on the same day otherwise. *)
Definition localDateOf (utcOffsetMinutes : Z) (d : CivilDate) : CivilDate :=
  if (utcOffsetMinutes <? 0)%Z then previousDay d else d.

(** [dateToSeed(dateString)] in a zone with the given offset:
    [getFullYear], [getMonth() + 1] and [getDate] read the local date.
    [None] stands for [NaN]. *)
Definition dateToSeed (utcOffsetMinutes : Z) (dateString : string)
  : option Z :=
  match parseIsoDate dateString with
  | Some d =>
      let date := localDateOf utcOffsetMinutes d in
      Some (Z.of_nat (year date) * 10000 + Z.of_nat (month date) * 100
            + Z.of_nat (day date))%Z
  | None => None
  end.

(** [String(n).padStart(2, '0')]. *)
Definition pad2 (n : nat) : string :=
  if n <? 10 then ("0" ++ Validator.showNat n)%string else Validator.showNat n.

(** [getTodayDateString()] when the local date is [today]. *)
Definition getTodayDateString (today : CivilDate) : string :=
  (Validator.showNat (year today) ++ "-" ++ pad2 (month today) ++ "-"
   ++ pad2 (day today))%string.

(** [generateDailyChallenge()] for a caller whose local date is [today]
    and whose zone has the given offset.  [waterPalette] is
    [THEME_PRESETS.WATER.palette] (constants), a parameter. *)
Definition generateDailyChallenge (mulberry32 : Z -> Prng.Rng)
    (mathRandom : Prng.Rng) (waterPalette : list Generator.ColorPalette)
    (utcOffsetMinutes : Z) (today : CivilDate) : Outcome LevelData :=
  let seed := dateToSeed utcOffsetMinutes (getTodayDateString today) in
  let counts := calculateColorCounts 8 8 (length waterPalette) in
  match
    Generator.generateLevel mulberry32 mathRandom 8 8
      (Z.of_nat (minC counts)) (Z.of_nat (maxC counts))
      (Some waterPalette) seed None
  with
  | Returned g => Returned (Generator.level g)
  | Threw => Threw
  | OutOfFuel => OutOfFuel
  end.

End Daily.


(* ------------------------------------------------------------------ *)
(** ** Completion of a level
    (hooks/use-level-completion.ts, utils/path-utils.ts) *)

Module Completion.

(** [Record<number, number\[\]>]: the player's path of each colour, in
    ascending colour order. *)
Definition UserPaths : Type := list (nat * list nat).

(** [userPaths\[colorId\] || \[\]]. *)
Definition userPathOf (userPaths : UserPaths) (colorId : nat) : list nat :=
  match lookup colorId userPaths with
  | Some p => p
  | None => []
  end.

(** The [Set] of the cells of all user paths. *)
Definition cellsFilled (userPaths : UserPaths) : list nat :=
  nodup Nat.eq_dec (concat (map snd userPaths)).

(** The cells whose anchor has colour [cId], in ascending order:
    [anchorKeys.filter((idx) => anchors\[idx\].colorId === cId)]. *)
Definition anchorIndicesOf (lv : LevelData) (cId : nat) : list nat :=
  map fst (filter (fun e => snd e =? cId) (anchors lv)).

(** The test on the two ends of a path.  Of an empty path [path\[0\]] is
    [undefined], which no anchor index equals. *)
Definition joinsAnchors (anchorIndices p : list nat) : bool :=
  match p with
  | [] => false
  | _ :: _ =>
      includes anchorIndices (pathStart p)
      && includes anchorIndices (pathEnd p)
      && negb (pathStart p =? pathEnd p)
  end.

(** The body of the loop over [Object.entries(colorAnchors)]. *)
Definition connected (lv : LevelData) (userPaths : UserPaths) (cId : nat)
  : bool :=
  match lookup cId userPaths with
  | None => false
  | Some p => joinsAnchors (anchorIndicesOf lv cId) p
  end.

Definition allConnected (lv : LevelData) (userPaths : UserPaths) : bool :=
  forallb (connected lv userPaths) (map fst (groupAnchors (anchors lv))).

(** Whether the effect of [useLevelCompletion] calls
    [setIsLevelComplete(true)], for a level that is loaded and not yet
    marked complete. *)
Definition levelCompleted (lv : LevelData) (userPaths : UserPaths) : bool :=
  if negb (length (cellsFilled userPaths) =? width lv * height lv) then false
  else allConnected lv userPaths.

(** [isPathComplete] of path-utils. *)
Definition isPathComplete (lv : LevelData) (userPath : list nat)
    (colorId : nat) : bool :=
  if length userPath =? 0 then false
  else
    let colorAnchors := anchorIndicesOf lv colorId in
    if negb (length colorAnchors =? 2) then false
    else includes colorAnchors (pathStart userPath)
         && includes colorAnchors (pathEnd userPath)
         && negb (pathStart userPath =? pathEnd userPath).

(** [userPath.every((cell, idx) => cell === solPath.path\[idx\])]. *)
Definition sameCells (userPath sol : list nat) : bool :=
  forallb
    (fun ic =>
       match nth_error sol (fst ic) with
       | Some c => snd ic =? c
       | None => false
       end)
    (combine (seq 0 (length userPath)) userPath).

(** [hasLineBreaks] of the perfect-score computation. *)
Definition hasLineBreaks (lv : LevelData) (userPaths : UserPaths) : bool :=
  existsb
    (fun solPath =>
       let userPath := userPathOf userPaths (colorId solPath) in
       (0 <? length userPath)
       && (negb (length userPath =? length (path solPath))
           || negb (sameCells userPath (path solPath))))
    (solvedPaths lv).

End Completion.


(* ------------------------------------------------------------------ *)
(** ** Sample inputs *)

Module Samples.
Import Prng.

(** A [Math.random] that always returns 0. *)
Definition zeroStream : Rng := fun _ => 0%Q.

(** A [Math.random] that always returns 1/4. *)
Definition quarterStream : Rng := fun _ => (1 # 4)%Q.

(** Two periodic streams. *)
Definition streamA : Rng := cycle [0%Q; (1 # 2)%Q].
Definition restartStream : Rng := cycle [(1 # 2)%Q; (7 # 8)%Q; (7 # 8)%Q].

(** The largest draw of a source that yields multiples of [2^-52]. *)
Definition almostOne : Q := (4503599627370495 # 4503599627370496)%Q.

(** A seeded generator that ignores its seed, to instantiate
    [mulberry32] in concrete runs. *)
Definition constantPrng : Z -> Rng := fun _ => streamA.

(** A row of three cells joined by one path. *)
Definition row3 : LevelData :=
  {| width := 3; height := 1; anchors := [(0, 0); (2, 0)]; difficulty := 1;
     solvedPaths := [mkPath 0 [0; 1; 2]] |}.

(** A row of four cells joined by one path. *)
Definition row4 : LevelData :=
  {| width := 4; height := 1; anchors := [(0, 0); (3, 0)]; difficulty := 1;
     solvedPaths := [mkPath 0 [0; 1; 2; 3]] |}.

(** A path that steps onto cell 1 and back onto its own start. *)
Definition backtrack : LevelData :=
  {| width := 3; height := 1; anchors := [(0, 0); (2, 0)]; difficulty := 1;
     solvedPaths := [mkPath 0 [0; 1; 0]] |}.

(** Three rows of a 3x3 puzzle written one row too low: cells 9, 10 and
    11 are not cells of the grid, and cells 0, 1 and 2 are not used. *)
Definition shifted : LevelData :=
  {| width := 3; height := 3;
     anchors := [(3, 0); (5, 0); (6, 1); (8, 1); (9, 2); (11, 2)];
     difficulty := 3;
     solvedPaths :=
       [mkPath 0 [3; 4; 5]; mkPath 1 [6; 7; 8]; mkPath 2 [9; 10; 11]] |}.

(** What the generator returns on a 3x4 grid when every draw is 0, and
    when every draw is 1/4. *)
Definition snake3x4 : LevelData :=
  {| width := 3; height := 4; anchors := [(0, 1); (1, 0); (2, 1); (7, 0)];
     difficulty := 2;
     solvedPaths :=
       [mkPath 1 [0; 3; 6; 9; 10; 11; 8; 5; 2]; mkPath 0 [1; 4; 7]] |}.

Definition hook3x4 : LevelData :=
  {| width := 3; height := 4; anchors := [(3, 1); (4, 0); (6, 0); (9, 1)];
     difficulty := 2;
     solvedPaths :=
       [mkPath 1 [3; 0; 1; 2; 5; 8; 11; 10; 9]; mkPath 0 [4; 7; 6]] |}.

(** What the fallback generator returns on a 3x3 grid with four colours
    asked for, and on a 5x5 grid with four or five, when every draw is
    0. *)
Definition stub3x3 : LevelData :=
  {| width := 3; height := 3; anchors := [(0, 1); (2, 1)]; difficulty := 1;
     solvedPaths := [mkPath 1 [0; 1; 2]] |}.

Definition gap5x5 : LevelData :=
  {| width := 5; height := 5;
     anchors := [(0, 1); (5, 2); (10, 3); (14, 1); (15, 0); (18, 2);
                 (19, 3); (21, 0)];
     difficulty := 4;
     solvedPaths :=
       [mkPath 1 [0; 1; 2; 3; 4; 9; 14]; mkPath 2 [5; 6; 7; 8; 13; 18];
        mkPath 3 [10; 11; 12; 17; 22; 23; 24; 19]; mkPath 0 [15; 20; 21]] |}.

(** What the generator returns on a 4x4 grid from [restartStream], at
    its second attempt. *)
Definition second4x4 : LevelData :=
  {| width := 4; height := 4;
     anchors := [(0, 2); (3, 2); (10, 1); (12, 0); (13, 1); (14, 0)];
     difficulty := 3;
     solvedPaths :=
       [mkPath 0 [14; 15; 11; 7; 6; 5; 4; 8; 12]; mkPath 1 [13; 9; 10];
        mkPath 2 [3; 2; 1; 0]] |}.

(** A 3x2 puzzle whose second path lists its cells out of order. *)
Definition detour : LevelData :=
  {| width := 3; height := 2;
     anchors := [(0, 0); (2, 0); (3, 1); (5, 1)]; difficulty := 2;
     solvedPaths := [mkPath 0 [0; 1; 2]; mkPath 1 [3; 5; 4]] |}.

(** Fingerprint stubs. *)
Definition hashByWidth (lv : LevelData) : string :=
  if width lv =? 3 then "F"%string else "G"%string.

Definition hashOrEmpty (lv : LevelData) : string :=
  if width lv =? 3 then "F"%string else EmptyString.

(** Generator stubs: [row3] at every call; [row3] for the first [k]
    calls and [row4] afterwards. *)
Definition alwaysRow3 (call w h : nat) (lo hi : Z)
    (pal : option (list Generator.ColorPalette)) (seed : option Z)
  : Outcome (option LevelData * bool) :=
  Returned (Some row3, false).

Definition row3Then4 (k call w h : nat) (lo hi : Z)
    (pal : option (list Generator.ColorPalette)) (seed : option Z)
  : Outcome (option LevelData * bool) :=
  if call <? k then Returned (Some row3, false)
  else Returned (Some row4, false).

(** The optional callbacks as the game board passes them (all four),
    and as the stage-select and rank-up modals do ([setProgress] only). *)
Definition boardCallbacks : Orchestrator.Callbacks :=
  Orchestrator.mkCallbacks true true true true.

Definition modalCallbacks : Orchestrator.Callbacks :=
  Orchestrator.mkCallbacks false true false false.

Definition seedOfAttempt (attempt : nat) : Z := Z.of_nat attempt + 1.

Definition appendHash (h : string) (hs : list string) : list string :=
  hs ++ [h].

Definition request (seen : Orchestrator.HashSet) (limit : nat)
  : Orchestrator.GenerateUniqueLevelOptions :=
  {| Orchestrator.o_width := 3; Orchestrator.o_height := 1;
     Orchestrator.minC := 1; Orchestrator.maxC := 1;
     Orchestrator.palette := None;
     Orchestrator.existingHashes := seen;
     Orchestrator.maxAttempts := Some limit;
     Orchestrator.seedGenerator := Some seedOfAttempt |}.

End Samples.


(* ------------------------------------------------------------------ *)
(** ** Vocabulary of the statements *)

Module Props.
Import Orchestrator Validator.

Section Requests.

Variable generateLevelHash : LevelData -> string.
Variable generateLevel :
  nat -> nat -> nat -> Z -> Z -> option (list Generator.ColorPalette) ->
  option Z -> Outcome (option LevelData * bool).

(** The attempt bound and the seed function a request runs with. *)
Definition limitOf (opts : GenerateUniqueLevelOptions) : nat :=
  match maxAttempts opts with
  | Some n => n
  | None => 200
  end.

Definition seedOf (randomSeed : nat -> Z) (opts : GenerateUniqueLevelOptions)
  : nat -> Z :=
  match seedGenerator opts with
  | Some f => f
  | None => randomSeed
  end.

(** The call attempt [k] of a request makes. *)
Definition callAt (opts : GenerateUniqueLevelOptions) (seeds : nat -> Z)
    (k : nat) : Outcome (option LevelData * bool) :=
  generateLevel k (o_width opts) (o_height opts) (minC opts) (maxC opts)
    (palette opts) (Some (seeds k)).

(** A candidate [generateUniqueLevelSync] accepts: valid, with a
    non-empty fingerprint that is not in the set. *)
Definition acceptable (seen : HashSet) (lv : LevelData) : bool :=
  isValid (validateNumberlinkRules lv)
  && truthy (generateLevelHash lv)
  && negb (has seen (generateLevelHash lv)).

(** Attempt [k] yields a candidate that the loop accepts. *)
Definition acceptsAt (opts : GenerateUniqueLevelOptions) (seeds : nat -> Z)
    (k : nat) : Prop :=
  exists lv fb,
    callAt opts seeds k = Returned (Some lv, fb)
    /\ acceptable (existingHashes opts) lv = true.

(** The result of a request that found nothing. *)
Definition failure (limit : nat) : GenerateUniqueLevelResult :=
  {| level := None; hash := None; isUnique := false; attempts := limit |}.

(** A candidate the [tryGenerate] loop of [startLevel] rejects. *)
Definition rejectedByStartLevel (seen : HashSet) (lv : LevelData) : bool :=
  negb (isValid (validateNumberlinkRules lv))
  || has seen (generateLevelHash lv).

End Requests.

(** The non-branching rule for one path: each end has exactly one
    orthogonal neighbour on the path, every other position exactly two. *)
Definition chainCounts (w h : nat) (p : PathEntry) : Prop :=
  forall i,
    i < length (path p) ->
    length (pathNeighbors w h (path p) (nth i (path p) 0))
    = if (i =? 0) || (i =? length (path p) - 1) then 1 else 2.

(** The paths use every cell of the grid. *)
Definition coversGrid (w h : nat) (paths : list PathEntry) : Prop :=
  forall c, c < w * h -> In c (allCells paths).

(** Every path cell is a cell of the grid. *)
Definition insideGrid (w h : nat) (paths : list PathEntry) : Prop :=
  forall c, In c (allCells paths) -> c < w * h.

End Props.

Module GenProps.
Import Generator.

(** The first float the random source of a call returns. *)
Definition firstDraw (mulberry32 : Z -> Prng.Rng) (mathRandom : Prng.Rng)
    (seed : option Z) : Q :=
  randomOf mulberry32 mathRandom seed 0.

(** The invariant of an attempt in progress: the cells put on paths so
    far are distinct cells of the grid, they are exactly as many as
    [filledCount] says and none of them reads as empty, while every member
    of [emptyCells] does. *)
Definition attemptInv (size : nat) (g : list Z) (empty : list nat)
    (count : nat) (cells : list nat) : Prop :=
  length g = size
  /\ (forall e, In e empty -> isEmptyCell g e = true)
  /\ NoDup cells
  /\ (forall c, In c cells -> isEmptyCell g c = false /\ c < size)
  /\ count = length cells.

(** [emptyCells] lists every cell that reads as empty. *)
Definition tracksEmpty (g : list Z) (empty : list nat) : Prop :=
  forall e, isEmptyCell g e = true -> In e empty.

(** The number of cells of the grid array that read as empty. *)
Definition emptyCount (g : list Z) : nat :=
  length (filter (fun v => (v =? -1)%Z) g).

(** The number of region cells a walk has not visited yet. *)
Definition pending (region visited : list nat) : nat :=
  length (filter (fun c => negb (includes visited c)) region).

(** The invariant between two paths. *)
Definition fillInv (size : nat) (st : Filling) : Prop :=
  attemptInv size (grid st) (emptyCells st) (filledCount st)
    (allCells (paths st))
  /\ forall p, In p (paths st) -> 3 <= length (path p).

(** The anchor entries the paths call for: both ends of every path, with
    the colour of the path. *)
Definition endpointsOf (ps : list PathEntry) : list (nat * nat) :=
  flat_map
    (fun p => [(pathStart (path p), colorId p); (pathEnd (path p), colorId p)])
    ps.

(** The cells that carry colour [k] in a list of anchor entries, in the
    order of the list. *)
Definition cellsOf (k : nat) (a : list (nat * nat)) : list nat :=
  map fst (filter (fun e => snd e =? k) a).


(** A simple chain on the grid: two cells of the path are neighbours
    exactly when they are consecutive in it. *)
Definition isChain (w h : nat) (p : list nat) : Prop :=
  forall i j, i < length p -> j < length p ->
    (In (nth j p 0) (Grid.getNeighbors (nth i p 0) w h)
     <-> (j = S i \/ i = S j)).

(** What holds of the path being grown with colour [k]: it is a simple
    chain of distinct cells of the grid that ends at [curr], and its
    cells carry colour [k] in the grid array. *)
Definition growing (w h k : nat) (st : Growing) : Prop :=
  length (g_grid st) = w * h
  /\ NoDup (currentPath st)
  /\ currentPath st <> []
  /\ curr st = pathEnd (currentPath st)
  /\ isChain w h (currentPath st)
  /\ (forall c, In c (currentPath st) ->
        hasColor (g_grid st) c k = true /\ c < w * h).

End GenProps.

Module DailyProps.
Import Daily.

(** A date of the calendar whose year has four digits. *)
Definition validDate (d : CivilDate) : Prop :=
  1000 <= year d < 100 * 100
  /\ 1 <= month d <= 12
  /\ 1 <= day d <= daysInMonth (year d) (month d).

(** The seed the doc comment promises: the date read as [YYYYMMDD]. *)
Definition yyyymmdd (d : CivilDate) : Z :=
  (Z.of_nat (year d) * 10000 + Z.of_nat (month d) * 100
   + Z.of_nat (day d))%Z.

(** [String(y)] is four digits that read back as [y]. *)
Definition printsAs4 (y : nat) : bool :=
  match Validator.showNat y with
  | String a (String b (String c (String e EmptyString))) =>
      match number2 a b, number2 c e with
      | Some hi, Some lo => (hi =? y / 100) && (lo =? y mod 100)
      | _, _ => false
      end
  | _ => false
  end.

(** [String(n).padStart(2, '0')] is two digits that read back as [n]. *)
Definition printsAs2 (n : nat) : bool :=
  match pad2 n with
  | String a (String b EmptyString) =>
      match number2 a b with
      | Some v => v =? n
      | None => false
      end
  | _ => false
  end.

End DailyProps.

Module CompletionProps.
Import Completion.

(** The board after the player has drawn every path of the stored
    solution: [userPaths\[colorId\] = path] for each of them in turn. *)
Definition drawn (paths : list PathEntry) : UserPaths :=
  fold_left (fun m p => setEntry (colorId p) (path p) m) paths [].

End CompletionProps.


(* ================================================================== *)
(** * Theorems *)

(* ------------------------------------------------------------------ *)
(** * The validator *)

Section ValidatorFacts.
Import Validator Props.

Lemma includes_In (l : list nat) (x : nat) :
  includes l x = true <-> In x l.
Proof.
  unfold includes. rewrite existsb_exists. split.
  - intros (y & Hy & Heq). apply Nat.eqb_eq in Heq. subst. exact Hy.
  - intros H. exists x. split; [exact H | apply Nat.eqb_refl].
Qed.

Lemma includes_not_In (l : list nat) (x : nat) :
  includes l x = false <-> ~ In x l.
Proof.
  rewrite <- includes_In. destruct (includes l x); split; congruence.
Qed.

Lemma firstError_None {A E : Type} (check : A -> option E) (l : list A) :
  firstError check l = None <-> forall x, In x l -> check x = None.
Proof.
  induction l as [|a l IH]; simpl.
  - split; [intros _ x [] | reflexivity].
  - destruct (check a) eqn:Ha.
    + split; [discriminate|]. intros H. rewrite <- Ha. apply H. now left.
    + rewrite IH. split.
      * intros H x [<-|Hx]; auto.
      * intros H x Hx. apply H. now right.
Qed.

Lemma firstError_Some {A E : Type} (check : A -> option E) (l : list A) e :
  firstError check l = Some e ->
  exists before x after,
    l = before ++ x :: after
    /\ (forall y, In y before -> check y = None)
    /\ check x = Some e.
Proof.
  induction l as [|a l IH]; simpl; [discriminate|].
  destruct (check a) eqn:Ha.
  - intros [= <-]. exists [], a, l. repeat split; auto. intros y [].
  - intros H. destruct (IH H) as (before & x & after & -> & Hb & Hx).
    exists (a :: before), x, after. repeat split; auto.
    intros y [<-|Hy]; auto.
Qed.

Lemma firstError_at {A E : Type} (check : A -> option E) before x after :
  (forall y, In y before -> check y = None) ->
  firstError check (before ++ x :: after)
  = match check x with
    | Some e => Some e
    | None => firstError check after
    end.
Proof.
  induction before as [|a before IH]; intros Hb; simpl.
  - reflexivity.
  - rewrite (Hb a (or_introl eq_refl)). apply IH.
    intros y Hy. apply Hb. now right.
Qed.

(** *** Rule 2: overlap *)

Lemma fst_tagged (color : nat) (cells : list nat) :
  map fst (map (fun c => (c, color)) cells) = cells.
Proof.
  induction cells as [|c cells IH]; simpl; [|rewrite IH]; reflexivity.
Qed.

Lemma overlapCells_inr color cells : forall m m',
  overlapCells color cells m = inr m' ->
  m' = m ++ map (fun c => (c, color)) cells
  /\ NoDup cells
  /\ forall c, In c cells -> ~ In c (map fst m).
Proof.
  induction cells as [|cell cells IH]; intros m m'; simpl.
  - intros [= <-]. rewrite app_nil_r.
    repeat split; [constructor | intros c []].
  - destruct (includes (map fst m) cell) eqn:Hseen; [discriminate|].
    apply includes_not_In in Hseen.
    intros H. destruct (IH _ _ H) as (-> & Hnd & Hfresh).
    rewrite <- app_assoc. split; [reflexivity|].
    assert (Hcell : ~ In cell cells).
    { intros Hin. apply (Hfresh cell Hin).
      rewrite map_app, in_app_iff. right. now left. }
    split; [constructor; assumption|].
    intros c [<-|Hc]; [exact Hseen|].
    intros Hin. apply (Hfresh c Hc). rewrite map_app, in_app_iff. now left.
Qed.

Lemma overlapCells_inl color cells : forall m e,
  overlapCells color cells m = inl e ->
  exists c pre post,
    e = PathsOverlap c
    /\ cells = pre ++ c :: post
    /\ In c (map fst m ++ pre).
Proof.
  induction cells as [|cell cells IH]; intros m e; simpl; [discriminate|].
  destruct (includes (map fst m) cell) eqn:Hseen.
  - intros [= <-]. apply includes_In in Hseen.
    exists cell, [], cells. rewrite app_nil_r. auto.
  - intros H. destruct (IH _ _ H) as (c & pre & post & -> & -> & Hin).
    exists c, (cell :: pre), post. repeat split.
    rewrite map_app in Hin. simpl in Hin. rewrite <- app_assoc in Hin.
    exact Hin.
Qed.

Lemma overlapPaths_None paths : forall m,
  NoDup (map fst m) ->
  overlapPaths paths m = None ->
  NoDup (map fst m ++ allCells paths).
Proof.
  induction paths as [|p paths IH]; intros m Hm; simpl.
  - intros _. unfold allCells. simpl. rewrite app_nil_r. exact Hm.
  - destruct (overlapCells (colorId p) (path p) m) as [e|m'] eqn:Hcells;
      [discriminate|].
    destruct (overlapCells_inr _ _ _ Hcells) as (-> & Hnd & Hfresh).
    intros H. apply IH in H.
    + rewrite map_app, fst_tagged, <- app_assoc in H. exact H.
    + rewrite map_app, fst_tagged.
      apply NoDup_app; auto.
      intros c Hc Hin. exact (Hfresh c Hin Hc).
Qed.

Lemma overlapPaths_Some paths : forall m e,
  overlapPaths paths m = Some e ->
  exists c l1 l2,
    e = PathsOverlap c
    /\ map fst m ++ allCells paths = l1 ++ c :: l2
    /\ In c l1.
Proof.
  induction paths as [|p paths IH]; intros m e; simpl; [discriminate|].
  destruct (overlapCells (colorId p) (path p) m) as [e'|m'] eqn:Hcells.
  - intros [= <-].
    destruct (overlapCells_inl _ _ _ Hcells) as (c & pre & post & -> & Hp & Hin).
    exists c, (map fst m ++ pre), (post ++ allCells paths).
    repeat split; auto.
    unfold allCells. simpl. rewrite Hp.
    repeat rewrite <- app_assoc. reflexivity.
  - destruct (overlapCells_inr _ _ _ Hcells) as (-> & _ & _).
    intros H. destruct (IH _ _ H) as (c & l1 & l2 & -> & Heq & Hin).
    exists c, l1, l2. repeat split; auto.
    rewrite map_app, fst_tagged, <- app_assoc in Heq. exact Heq.
Qed.

Lemma repeated_not_NoDup (c : nat) (l1 l2 : list nat) :
  In c l1 -> ~ NoDup (l1 ++ c :: l2).
Proof.
  intros Hin Hnd. apply NoDup_remove_2 in Hnd.
  apply Hnd. rewrite in_app_iff. now left.
Qed.

Lemma checkOverlap_None lv :
  checkOverlap lv = None <-> NoDup (allCells (solvedPaths lv)).
Proof.
  unfold checkOverlap. split.
  - intros H. apply (overlapPaths_None (solvedPaths lv) [] (NoDup_nil _) H).
  - intros Hnd. destruct (overlapPaths (solvedPaths lv) []) as [e|] eqn:H; auto.
    destruct (overlapPaths_Some _ _ H) as (c & l1 & l2 & _ & Heq & Hin).
    simpl in Heq. rewrite Heq in Hnd.
    destruct (repeated_not_NoDup c l1 l2 Hin Hnd).
Qed.

(** *** Rule 4: the count of distinct cells *)

Lemma checkFilled_None lv :
  checkFilled lv = None
  <-> length (nodup Nat.eq_dec (allCells (solvedPaths lv)))
      = width lv * height lv.
Proof.
  unfold checkFilled, filledCells.
  destruct (length _ =? width lv * height lv) eqn:H; simpl.
  - apply Nat.eqb_eq in H. split; auto.
  - apply Nat.eqb_neq in H. split; [discriminate | contradiction].
Qed.

(** A duplicate-free list of [n] numbers below [n] holds all of them. *)
Lemma full_of_NoDup (n : nat) (cells : list nat) :
  NoDup cells -> length cells = n ->
  (forall c, In c cells -> c < n) ->
  forall c, c < n -> In c cells.
Proof.
  intros Hnd Hlen Hlt c Hc.
  apply (NoDup_length_incl Hnd (l' := seq 0 n)).
  - rewrite length_seq. lia.
  - intros x Hx. apply in_seq. specialize (Hlt x Hx). lia.
  - apply in_seq. lia.
Qed.

(** *** Rule 1 (non-branching) *)

Lemma checkBranchAt_None w h p i :
  checkBranchAt w h p i = None
  <-> length (pathNeighbors w h (path p) (nth i (path p) 0))
      = if (i =? 0) || (i =? length (path p) - 1) then 1 else 2.
Proof.
  unfold checkBranchAt.
  destruct ((i =? 0) || (i =? length (path p) - 1)).
  - destruct (length _ =? 1) eqn:H; simpl.
    + apply Nat.eqb_eq in H. split; auto.
    + apply Nat.eqb_neq in H. split; [discriminate | contradiction].
  - destruct (length _ =? 2) eqn:H; simpl.
    + apply Nat.eqb_eq in H. split; auto.
    + apply Nat.eqb_neq in H. split; [discriminate | contradiction].
Qed.

Lemma checkBranchPath_None w h p :
  checkBranchPath w h p = None <-> chainCounts w h p.
Proof.
  unfold checkBranchPath, chainCounts. rewrite firstError_None. split.
  - intros H i Hi. apply checkBranchAt_None. apply H. apply in_seq. lia.
  - intros H i Hi. apply checkBranchAt_None. apply H. apply in_seq in Hi. lia.
Qed.

Lemma checkBranchPath_Some w h p e :
  checkBranchPath w h p = Some e ->
  e = BranchingAtEndpoint (colorId p)
  \/ exists cell, e = BranchingAtCell (colorId p) cell.
Proof.
  unfold checkBranchPath. intros H.
  destruct (firstError_Some _ _ H) as (before & i & after & _ & _ & Hi).
  unfold checkBranchAt in Hi.
  destruct ((i =? 0) || (i =? length (path p) - 1));
    destruct (negb _); try discriminate; injection Hi as <-; eauto.
Qed.

Lemma checkBranching_None lv :
  checkBranching lv = None
  <-> forall p, In p (solvedPaths lv) -> chainCounts (width lv) (height lv) p.
Proof.
  unfold checkBranching. rewrite firstError_None. split.
  - intros H p Hp. apply checkBranchPath_None. auto.
  - intros H p Hp. apply checkBranchPath_None. auto.
Qed.

(** *** The verdict *)

Lemma valid_iff lv :
  isValid (validateNumberlinkRules lv) = true <-> firstViolation lv = None.
Proof.
  unfold validateNumberlinkRules.
  destruct (firstViolation lv); simpl; split; congruence.
Qed.

Lemma invalid_iff lv :
  isValid (validateNumberlinkRules lv) = false
  <-> firstViolation lv <> None.
Proof.
  unfold validateNumberlinkRules.
  destruct (firstViolation lv); simpl; split; congruence.
Qed.

Lemma error_is_firstViolation lv :
  error (validateNumberlinkRules lv) = firstViolation lv.
Proof.
  unfold validateNumberlinkRules. destruct (firstViolation lv); reflexivity.
Qed.

Lemma firstViolation_None lv :
  firstViolation lv = None ->
  solvedPaths lv <> []
  /\ checkAnchors lv = None /\ checkOverlap lv = None
  /\ checkFilled lv = None /\ checkBranching lv = None
  /\ checkUTurns lv = None.
Proof.
  unfold firstViolation.
  destruct (solvedPaths lv) eqn:Hp; [discriminate|].
  destruct (checkAnchors lv); [discriminate|].
  destruct (checkOverlap lv); [discriminate|].
  destruct (checkFilled lv); [discriminate|].
  destruct (checkBranching lv); [discriminate|].
  intros H. repeat split; auto. discriminate.
Qed.

Lemma firstViolation_after_anchors lv :
  solvedPaths lv <> [] -> checkAnchors lv = None ->
  firstViolation lv
  = match checkOverlap lv with
    | Some e => Some e
    | None =>
        match checkFilled lv with
        | Some e => Some e
        | None =>
            match checkBranching lv with
            | Some e => Some e
            | None => checkUTurns lv
            end
        end
    end.
Proof.
  unfold firstViolation. intros Hp Ha.
  destruct (solvedPaths lv); [congruence|]. rewrite Ha. reflexivity.
Qed.

End ValidatorFacts.

Section ValidatorClaims.
Import Validator Props.

(** C5, amended.  [validateNumberlinkRules] answers valid only if no
    cell occurs twice in the paths (within one path or across two) and
    the paths hold exactly [width * height] cells, so that they cover the
    grid whenever all of them are cells of the grid.  A repeated cell or a
    count of distinct cells other than [width * height] makes it answer
    invalid; and once the anchor rules have passed, the error names a
    repeated cell ([Paths overlap at cell c]) or else the count
    ([Grid not fully filled: n/size cells]). *)
Theorem validator_disjoint_and_counted (lv : LevelData) :
  (isValid (validateNumberlinkRules lv) = true ->
     NoDup (allCells (solvedPaths lv))
     /\ length (allCells (solvedPaths lv)) = width lv * height lv
     /\ (insideGrid (width lv) (height lv) (solvedPaths lv) ->
         coversGrid (width lv) (height lv) (solvedPaths lv)))
  /\ (~ NoDup (allCells (solvedPaths lv))
      \/ length (nodup Nat.eq_dec (allCells (solvedPaths lv)))
         <> width lv * height lv ->
      isValid (validateNumberlinkRules lv) = false)
  /\ (solvedPaths lv <> [] -> checkAnchors lv = None ->
      ~ NoDup (allCells (solvedPaths lv)) ->
      exists c l1 l2,
        error (validateNumberlinkRules lv) = Some (PathsOverlap c)
        /\ allCells (solvedPaths lv) = l1 ++ c :: l2
        /\ In c l1)
  /\ (solvedPaths lv <> [] -> checkAnchors lv = None ->
      NoDup (allCells (solvedPaths lv)) ->
      length (allCells (solvedPaths lv)) <> width lv * height lv ->
      error (validateNumberlinkRules lv)
      = Some (GridNotFilled (length (allCells (solvedPaths lv)))
                            (width lv * height lv))).
Proof.
  split; [|split; [|split]].
  - intros Hvalid. apply valid_iff in Hvalid.
    destruct (firstViolation_None lv Hvalid) as (_ & _ & Ho & Hf & _).
    apply checkOverlap_None in Ho. apply checkFilled_None in Hf.
    rewrite (nodup_fixed_point Nat.eq_dec Ho) in Hf.
    split; [exact Ho|]. split; [exact Hf|].
    intros Hin c Hc. eapply full_of_NoDup; eauto.
  - intros Hbad. apply invalid_iff. intros Hnone.
    destruct (firstViolation_None lv Hnone) as (_ & _ & Ho & Hf & _).
    apply checkOverlap_None in Ho. apply checkFilled_None in Hf.
    destruct Hbad as [Hdup|Hcount]; auto.
  - intros Hp Ha Hdup.
    rewrite error_is_firstViolation, (firstViolation_after_anchors lv Hp Ha).
    destruct (checkOverlap lv) as [e|] eqn:Ho.
    + unfold checkOverlap in Ho.
      destruct (overlapPaths_Some _ _ Ho) as (c & l1 & l2 & -> & Heq & Hin).
      exists c, l1, l2. auto.
    + apply checkOverlap_None in Ho. contradiction.
  - intros Hp Ha Hnd Hcount.
    rewrite error_is_firstViolation, (firstViolation_after_anchors lv Hp Ha).
    pose proof (proj2 (checkOverlap_None lv) Hnd) as Ho. rewrite Ho.
    unfold checkFilled, filledCells.
    rewrite (nodup_fixed_point Nat.eq_dec Hnd).
    apply Nat.eqb_neq in Hcount. rewrite Hcount. reflexivity.
Qed.

Lemma validator_disjoint_and_counted_witness :
  isValid (validateNumberlinkRules Samples.row3) = true
  /\ NoDup (allCells (solvedPaths Samples.row3))
  /\ length (allCells (solvedPaths Samples.row3)) = 3.
Proof.
  split; [reflexivity|].
  destruct (proj1 (validator_disjoint_and_counted Samples.row3) eq_refl)
    as (Hnd & Hlen & _).
  split; [exact Hnd | exact Hlen].
Defined.

(** C5 as stated fails: a path that returns to its own start uses cell 0
    twice, yet the error is the one of the anchor rule and names no
    cell. *)
Lemma shared_cell_reported_as_anchor_error :
  ~ NoDup (allCells (solvedPaths Samples.backtrack))
  /\ validateNumberlinkRules Samples.backtrack
     = {| isValid := false; error := Some (SameStartEnd 0) |}
  /\ errorMessage (SameStartEnd 0)
     = "Color 0 has same start and end anchor"%string.
Proof.
  split; [|split; reflexivity].
  intros H. change (NoDup [0; 1; 0]) in H.
  inversion H as [|x l Hin _]. apply Hin. right. now left.
Qed.

(** The count of rule 4 does not look at where the cells are: a puzzle
    written one row too low is accepted although the first row of the
    grid is not covered. *)
Lemma validator_accepts_cells_outside_grid :
  validateNumberlinkRules Samples.shifted
  = {| isValid := true; error := None |}
  /\ ~ In 0 (allCells (solvedPaths Samples.shifted))
  /\ In 9 (allCells (solvedPaths Samples.shifted))
  /\ width Samples.shifted * height Samples.shifted = 9.
Proof.
  split; [reflexivity|]. split; [|split; [|reflexivity]].
  - intros H. simpl in H. repeat (destruct H as [H|H]; [discriminate|]).
    exact H.
  - simpl. do 6 right. now left.
Qed.

(** C6, amended.  In a puzzle [validateNumberlinkRules] accepts, each
    end of every path has exactly one orthogonal neighbour on that path
    and every other position exactly two.  A path that breaks this makes
    the answer invalid; and when the rules tried before (anchors, overlap,
    fill) pass, the error is the branching error for the colour of the
    first such path. *)
Theorem validator_non_branching (lv : LevelData) :
  (isValid (validateNumberlinkRules lv) = true ->
     forall p, In p (solvedPaths lv) ->
               chainCounts (width lv) (height lv) p)
  /\ ((exists p, In p (solvedPaths lv)
                 /\ ~ chainCounts (width lv) (height lv) p) ->
      isValid (validateNumberlinkRules lv) = false)
  /\ (forall before p after,
        solvedPaths lv = before ++ p :: after ->
        (forall q, In q before -> chainCounts (width lv) (height lv) q) ->
        ~ chainCounts (width lv) (height lv) p ->
        checkAnchors lv = None -> checkOverlap lv = None ->
        checkFilled lv = None ->
        error (validateNumberlinkRules lv)
        = Some (BranchingAtEndpoint (colorId p))
        \/ exists cell,
             error (validateNumberlinkRules lv)
             = Some (BranchingAtCell (colorId p) cell)).
Proof.
  split; [|split].
  - intros Hvalid. apply valid_iff in Hvalid.
    destruct (firstViolation_None lv Hvalid) as (_ & _ & _ & _ & Hb & _).
    apply checkBranching_None. exact Hb.
  - intros (p & Hp & Hbad). apply invalid_iff. intros Hnone.
    destruct (firstViolation_None lv Hnone) as (_ & _ & _ & _ & Hb & _).
    apply Hbad. exact (proj1 (checkBranching_None lv) Hb p Hp).
  - intros before p after Hsplit Hbefore Hbad Ha Ho Hf.
    assert (Hp : solvedPaths lv <> []).
    { rewrite Hsplit. destruct before; discriminate. }
    rewrite error_is_firstViolation, (firstViolation_after_anchors lv Hp Ha).
    rewrite Ho, Hf. unfold checkBranching. rewrite Hsplit.
    rewrite firstError_at.
    + destruct (checkBranchPath (width lv) (height lv) p) as [e|] eqn:Hcheck.
      * destruct (checkBranchPath_Some _ _ _ Hcheck) as [->|[cell ->]]; eauto.
      * apply checkBranchPath_None in Hcheck. contradiction.
    + intros q Hq. apply checkBranchPath_None. auto.
Qed.

Lemma validator_non_branching_witness :
  isValid (validateNumberlinkRules Samples.row4) = true
  /\ chainCounts 4 1 (mkPath 0 [0; 1; 2; 3]).
Proof.
  split; [reflexivity|].
  apply (proj1 (validator_non_branching Samples.row4) eq_refl).
  now left.
Defined.

(** C6 as stated fails: the second path of [detour] breaks the rule at
    its middle position (cell 5 has one neighbour on the path), yet the
    error is not a branching error. *)
Lemma branching_reported_as_anchor_error :
  In (mkPath 1 [3; 5; 4]) (solvedPaths Samples.detour)
  /\ ~ chainCounts (width Samples.detour) (height Samples.detour)
         (mkPath 1 [3; 5; 4])
  /\ validateNumberlinkRules Samples.detour
     = {| isValid := false; error := Some (AnchorsNotAtEndpoints 1) |}.
Proof.
  split; [right; now left|]. split; [|reflexivity].
  intros H. specialize (H 1 ltac:(simpl; lia)). vm_compute in H. discriminate.
Qed.

End ValidatorClaims.

(* ------------------------------------------------------------------ *)
(** * Double-precision arithmetic *)

Section Float64Facts.
Import Float64.
Local Open Scope Q_scope.

Lemma pow2_pos k : 0 < 2 ^ k.
Proof. apply Qpower_0_lt. reflexivity. Qed.

Lemma pow2_plus a b : 2 ^ (a + b) == 2 ^ a * 2 ^ b.
Proof. apply Qpower_plus. discriminate. Qed.

Lemma pow2_le a b : (a <= b)%Z -> 2 ^ a <= 2 ^ b.
Proof. intros H. apply Qpower_le_compat_l; [exact H | discriminate]. Qed.

Lemma pow2_lt a b : (a < b)%Z -> 2 ^ a < 2 ^ b.
Proof. intros H. apply Qpower_lt_compat_l; [exact H | reflexivity]. Qed.

Lemma pow2_lt_inv a b : 2 ^ a < 2 ^ b -> (a < b)%Z.
Proof. intros H. apply Qpower_lt_compat_l_inv with (q := 2); [exact H | reflexivity]. Qed.

Lemma pow2_inject k : (0 <= k)%Z -> inject_Z (2 ^ k) == 2 ^ k.
Proof. intros H. rewrite Zpower_Qpower by exact H. reflexivity. Qed.

Lemma pow2_succ k : 2 ^ (k + 1) == 2 * 2 ^ k.
Proof. rewrite pow2_plus. change (2 ^ 1) with 2. ring. Qed.

Lemma pow2_pred k : 2 ^ (k - 1) == (1 # 2) * 2 ^ k.
Proof.
  replace k with ((k - 1) + 1)%Z at 2 by ring.
  rewrite pow2_succ. field.
Qed.

Lemma log2_bounds (z : Z) :
  (0 < z)%Z ->
  2 ^ Z.log2 z <= inject_Z z /\ inject_Z z < 2 * 2 ^ Z.log2 z.
Proof.
  intros Hz. destruct (Z.log2_spec z Hz) as [Hlo Hhi].
  pose proof (Z.log2_nonneg z) as Hnn.
  rewrite <- pow2_succ.
  rewrite <- !pow2_inject by lia.
  rewrite <- Zle_Qle, <- Zlt_Qlt. replace (Z.log2 z + 1)%Z with (Z.succ (Z.log2 z)) by lia.
  split; assumption.
Qed.

Lemma magnitude_spec (q : Q) :
  ~ q == 0 -> 2 ^ magnitude q <= Qabs q /\ Qabs q < 2 ^ (magnitude q + 1).
Proof.
  intros Hq. unfold magnitude.
  destruct q as [a0 b]. cbn [Qnum Qden].
  assert (Ha : (0 < Z.abs a0)%Z).
  { destruct a0; try reflexivity. exfalso. apply Hq. reflexivity. }
  destruct (log2_bounds Ha) as [Ha1 Ha2].
  destruct (@log2_bounds (Zpos b) eq_refl) as [Hb1 Hb2].
  set (la := Z.log2 (Z.abs a0)) in *. set (lb := Z.log2 (Z.pos b)) in *.
  assert (Habs : Qabs (a0 # b) == inject_Z (Z.abs a0) / inject_Z (Zpos b)).
  { change (Qabs (a0 # b)) with (Z.abs a0 # b). apply Qmake_Qdiv. }
  assert (HB : 0 < inject_Z (Zpos b)) by reflexivity.
  assert (Hd : 2 ^ (la - lb) * 2 ^ lb == 2 ^ la).
  { rewrite <- pow2_plus. replace (la - lb + lb)%Z with la by ring. reflexivity. }
  pose proof (pow2_pos la) as Pla. pose proof (pow2_pos lb) as Plb.
  pose proof (pow2_pos (la - lb)) as Pd.
  destruct (Qle_bool (2 ^ (la - lb)) (Qabs (a0 # b))) eqn:Hcmp.
  - apply Qle_bool_iff in Hcmp. split; [exact Hcmp|].
    rewrite Habs, pow2_succ. apply Qlt_shift_div_r; [exact HB|].
    nra.
  - assert (Hlt : Qabs (a0 # b) < 2 ^ (la - lb)).
    { apply Qnot_le_lt. intros H. apply Qle_bool_iff in H. congruence. }
    split.
    + rewrite Habs, pow2_pred. apply Qle_shift_div_l; [exact HB|]. nra.
    + replace (la - lb - 1 + 1)%Z with (la - lb)%Z by ring. exact Hlt.
Qed.


Lemma nearestEven_bounds (q : Q) :
  q - (1 # 2) <= inject_Z (nearestEven q)
  /\ inject_Z (nearestEven q) <= q + (1 # 2).
Proof.
  unfold nearestEven.
  pose proof (Qfloor_le q) as Hlo. pose proof (Qlt_floor q) as Hhi.
  rewrite inject_Z_plus in Hhi. change (inject_Z 1) with 1 in Hhi.
  destruct (Qcompare_spec (q - inject_Z (Qfloor q)) (1 # 2)) as [He|Hl|Hg].
  - destruct (Z.even (Qfloor q)).
    + split; lra.
    + rewrite inject_Z_plus. change (inject_Z 1) with 1. split; lra.
  - split; lra.
  - rewrite inject_Z_plus. change (inject_Z 1) with 1. split; lra.
Qed.

Lemma nearestEven_Z (q : Q) (z : Z) : q == inject_Z z -> nearestEven q = z.
Proof.
  intros Hq. unfold nearestEven.
  assert (Hf : Qfloor q = z) by (rewrite Hq; apply Qfloor_Z).
  rewrite Hf.
  destruct (Qcompare_spec (q - inject_Z z) (1 # 2)) as [He|Hl|Hg].
  - exfalso. lra.
  - reflexivity.
  - exfalso. lra.
Qed.

Lemma nearestEven_le (q : Q) (z : Z) :
  q <= inject_Z z -> (nearestEven q <= z)%Z.
Proof.
  intros Hq.
  destruct (Qlt_le_dec q (inject_Z z)) as [Hlt|Hge].
  - assert (Hf : (Qfloor q < z)%Z).
    { rewrite Zlt_Qlt. eapply Qle_lt_trans; [apply Qfloor_le | exact Hlt]. }
    unfold nearestEven.
    destruct (q - inject_Z (Qfloor q) ?= 1 # 2); [destruct (Z.even _)| |]; lia.
  - rewrite (@nearestEven_Z q z); [lia | lra].
Qed.

Lemma nearestEven_ge (q : Q) (z : Z) :
  inject_Z z <= q -> (z <= nearestEven q)%Z.
Proof.
  intros Hq.
  assert (Hf : (z <= Qfloor q)%Z).
  { rewrite <- (Qfloor_Z z). apply Qfloor_resp_le. exact Hq. }
  unfold nearestEven.
  destruct (q - inject_Z (Qfloor q) ?= 1 # 2); [destruct (Z.even _)| |]; lia.
Qed.

Lemma pow2_div (x : Q) (k : Z) : x / 2 ^ k == x * 2 ^ (- k).
Proof. rewrite Qpower_opp. reflexivity. Qed.

Lemma pow2_cancel (k : Z) : 2 ^ (- k) * 2 ^ k == 1.
Proof. rewrite <- pow2_plus. replace (- k + k)%Z with 0%Z by ring. reflexivity. Qed.

(** Rounding moves a value by at most half a unit in the last place. *)
Lemma roundToDouble_error (x : Q) :
  ~ x == 0 ->
  x - (1 # 2) * 2 ^ ulpExponent x <= roundToDouble x
  /\ roundToDouble x <= x + (1 # 2) * 2 ^ ulpExponent x.
Proof.
  intros Hx. unfold roundToDouble.
  destruct (Qeq_bool x 0) eqn:Hz; [apply Qeq_bool_iff in Hz; contradiction|].
  set (e := ulpExponent x).
  destruct (nearestEven_bounds (x / 2 ^ e)) as [Hlo Hhi].
  pose proof (pow2_pos e) as Pe.
  assert (Hy : x / 2 ^ e * 2 ^ e == x).
  { rewrite pow2_div, <- Qmult_assoc, pow2_cancel. ring. }
  split.
  - apply (Qmult_le_compat_r _ _ (2 ^ e)) in Hlo; [|lra].
    rewrite <- Hy at 1. lra.
  - apply (Qmult_le_compat_r _ _ (2 ^ e)) in Hhi; [|lra].
    rewrite <- Hy at 2. lra.
Qed.

(** For a positive value half a unit in the last place is at most
    the fraction 2^-53 of it, or 2^-1075 in the subnormal range. *)
Lemma half_ulp_bound (x : Q) :
  0 < x ->
  (1 # 2) * 2 ^ ulpExponent x <= x * 2 ^ (-53) + 2 ^ (-1075).
Proof.
  intros Hx.
  assert (Hne : ~ x == 0) by lra.
  destruct (magnitude_spec Hne) as [Hm _].
  rewrite Qabs_pos in Hm by lra.
  pose proof (pow2_pos (-1075)) as P1. 
  assert (P2 : 0 <= x * 2 ^ (-53)).
  { apply Qmult_le_0_compat; [lra | apply Qlt_le_weak, pow2_pos]. }
  unfold ulpExponent.
  destruct (Z.max_spec (magnitude x - 52) (-1074)) as [[_ ->]|[_ ->]].
  - change ((1 # 2) * 2 ^ (-1074)) with (2 ^ (-1075)). lra.
  - rewrite <- pow2_pred.
    replace (magnitude x - 52 - 1)%Z with (magnitude x + - 53)%Z by ring.
    rewrite pow2_plus.
    apply (Qmult_le_compat_r _ _ (2 ^ (-53))) in Hm;
      [lra | apply Qlt_le_weak, pow2_pos].
Qed.

(** A binary64 number below 1 is at most [1 - 2^-53]. *)
Lemma below_one (u : Q) :
  isBinary64 u -> u < 1 -> u <= 1 - 2 ^ (-53).
Proof.
  intros (m & e & Hm & [He _] & Hu) H1.
  destruct (Z_le_gt_dec e (-53)) as [Hsmall|Hbig].
  - assert (Hle : inject_Z m * 2 ^ e <= inject_Z (2 ^ 53 - 1) * 2 ^ (-53)).
    { destruct (Z_le_gt_dec m 0) as [Hneg|Hpos].
      - apply Qle_trans with 0.
        + assert (Hm0 : inject_Z m <= 0).
          { change 0 with (inject_Z 0). rewrite <- Zle_Qle. exact Hneg. }
          pose proof (pow2_pos e). nra.
        + discriminate.
      - apply Qmult_le_compat_nonneg.
        + split.
          * change 0 with (inject_Z 0). rewrite <- Zle_Qle. lia.
          * rewrite <- Zle_Qle. lia.
        + split; [apply Qlt_le_weak, pow2_pos | apply pow2_le; exact Hsmall]. }
    rewrite Hu. eapply Qle_trans; [exact Hle|]. discriminate.
  - assert (Hint : u * 2 ^ 53 == inject_Z (m * 2 ^ (e + 53))).
    { rewrite Hu, inject_Z_mult, pow2_inject by lia.
      rewrite pow2_plus. ring. }
    assert (Hlt : (m * 2 ^ (e + 53) < 2 ^ 53)%Z).
    { rewrite Zlt_Qlt, <- Hint.
      change (inject_Z (2 ^ 53)) with (1 * 2 ^ 53).
      apply Qmult_lt_compat_r; [apply pow2_pos | exact H1]. }
    assert (Hle : inject_Z (m * 2 ^ (e + 53)) <= inject_Z (2 ^ 53 - 1)).
    { rewrite <- Zle_Qle. lia. }
    rewrite <- Hint in Hle.
    assert (Hc : inject_Z (2 ^ 53 - 1) == (1 - 2 ^ (-53)) * 2 ^ 53)
      by reflexivity.
    rewrite Hc in Hle.
    apply Qmult_le_r in Hle; [exact Hle | apply pow2_pos].
Qed.


(** A value with a significand of at most 53 bits and an exponent of at
    least -1074 is its own rounding: the operation that produced it was
    exact. *)
Lemma roundToDouble_exact (x : Q) (m k : Z) :
  x == inject_Z m * 2 ^ k -> (Z.abs m < 2 ^ 53)%Z -> (-1074 <= k)%Z ->
  roundToDouble x == x.
Proof.
  intros Hx Hm Hk. unfold roundToDouble.
  destruct (Qeq_bool x 0) eqn:Hz.
  - apply Qeq_bool_iff in Hz. rewrite Hz. reflexivity.
  - apply Qeq_bool_neq in Hz.
    destruct (magnitude_spec Hz) as [Hlo _].
    assert (Habs : Qabs x == inject_Z (Z.abs m) * 2 ^ k).
    { rewrite Hx, Qabs_Qmult.
      rewrite (Qabs_pos (2 ^ k)) by (apply Qlt_le_weak, pow2_pos).
      reflexivity. }
    assert (Hlt : 2 ^ magnitude x < 2 ^ (53 + k)).
    { eapply Qle_lt_trans; [exact Hlo|]. rewrite Habs, pow2_plus.
      apply Qmult_lt_compat_r; [apply pow2_pos|].
      rewrite <- pow2_inject by lia. rewrite <- Zlt_Qlt. exact Hm. }
    apply pow2_lt_inv in Hlt.
    set (e := ulpExponent x).
    assert (He : (e <= k)%Z) by (unfold e, ulpExponent; lia).
    assert (Hint : x / 2 ^ e == inject_Z (m * 2 ^ (k - e))).
    { rewrite Hx, inject_Z_mult, pow2_inject by lia. rewrite pow2_div.
      replace (k - e)%Z with (k + - e)%Z by ring. rewrite pow2_plus. ring. }
    rewrite (nearestEven_Z Hint). rewrite inject_Z_mult, pow2_inject by lia.
    rewrite Hx. rewrite <- Qmult_assoc, <- pow2_plus.
    replace (k - e + e)%Z with k by ring. reflexivity.
Qed.

(** Rounding never crosses a binary64 number: a value at most [y] is
    rounded to at most [y], a value at least [y] to at least [y]. *)
Lemma roundToDouble_le (x : Q) (m k : Z) :
  0 <= x -> x <= inject_Z m * 2 ^ k -> (Z.abs m < 2 ^ 53)%Z ->
  (-1074 <= k)%Z ->
  roundToDouble x <= inject_Z m * 2 ^ k.
Proof.
  intros Hx0 Hxy Hm Hk. unfold roundToDouble.
  destruct (Qeq_bool x 0) eqn:Hz.
  - apply Qeq_bool_iff in Hz. lra.
  - apply Qeq_bool_neq in Hz.
    destruct (magnitude_spec Hz) as [Hlo _].
    rewrite Qabs_pos in Hlo by exact Hx0.
    pose proof (pow2_pos k) as Pk.
    assert (Hlt : 2 ^ magnitude x < 2 ^ (53 + k)).
    { eapply Qle_lt_trans; [exact Hlo|]. eapply Qle_lt_trans; [exact Hxy|].
      rewrite pow2_plus. apply Qmult_lt_compat_r; [exact Pk|].
      rewrite <- pow2_inject by lia. rewrite <- Zlt_Qlt. lia. }
    apply pow2_lt_inv in Hlt.
    set (e := ulpExponent x).
    assert (He : (e <= k)%Z) by (unfold e, ulpExponent; lia).
    pose proof (pow2_pos e) as Pe. pose proof (pow2_pos (- e)) as Pne.
    assert (Hsplit : inject_Z m * 2 ^ k == inject_Z (m * 2 ^ (k - e)) * 2 ^ e).
    { rewrite inject_Z_mult, pow2_inject by lia.
      rewrite <- Qmult_assoc, <- pow2_plus.
      replace (k - e + e)%Z with k by ring. reflexivity. }
    assert (Hscaled : x / 2 ^ e <= inject_Z (m * 2 ^ (k - e))).
    { rewrite pow2_div. rewrite Hsplit in Hxy.
      apply (Qmult_le_compat_r _ _ (2 ^ (- e))) in Hxy; [|lra].
      rewrite <- Qmult_assoc, (Qmult_comm (2 ^ e)), pow2_cancel in Hxy. lra. }
    apply nearestEven_le in Hscaled. rewrite Zle_Qle in Hscaled.
    rewrite Hsplit. apply Qmult_le_compat_r; [exact Hscaled | lra].
Qed.

Lemma roundToDouble_ge (x : Q) (m k : Z) :
  0 < inject_Z m * 2 ^ k -> inject_Z m * 2 ^ k <= x ->
  (Z.abs m < 2 ^ 53)%Z -> (-1074 <= k)%Z ->
  inject_Z m * 2 ^ k <= roundToDouble x.
Proof.
  intros Hy0 Hyx Hm Hk. unfold roundToDouble.
  destruct (Qeq_bool x 0) eqn:Hz.
  - apply Qeq_bool_iff in Hz. lra.
  - apply Qeq_bool_neq in Hz.
    destruct (magnitude_spec Hz) as [Hlo _].
    rewrite Qabs_pos in Hlo by lra.
    pose proof (pow2_pos k) as Pk.
    set (e := ulpExponent x).
    pose proof (pow2_pos e) as Pe. pose proof (pow2_pos (- e)) as Pne.
    destruct (Z_le_gt_dec e k) as [He|He].
    + assert (Hsplit :
        inject_Z m * 2 ^ k == inject_Z (m * 2 ^ (k - e)) * 2 ^ e).
      { rewrite inject_Z_mult, pow2_inject by lia.
        rewrite <- Qmult_assoc, <- pow2_plus.
        replace (k - e + e)%Z with k by ring. reflexivity. }
      assert (Hscaled : inject_Z (m * 2 ^ (k - e)) <= x / 2 ^ e).
      { rewrite pow2_div. rewrite Hsplit in Hyx.
        apply (Qmult_le_compat_r _ _ (2 ^ (- e))) in Hyx; [|lra].
        rewrite <- Qmult_assoc, (Qmult_comm (2 ^ e)), pow2_cancel in Hyx. lra. }
      apply nearestEven_ge in Hscaled. rewrite Zle_Qle in Hscaled.
      rewrite Hsplit. apply Qmult_le_compat_r; [exact Hscaled | lra].
    + assert (Hex : e = (magnitude x - 52)%Z) by (unfold e, ulpExponent in *; lia).
      assert (Hscaled : inject_Z (2 ^ 52) <= x / 2 ^ e).
      { rewrite pow2_div, pow2_inject by lia.
        apply (Qmult_le_compat_r _ _ (2 ^ (- e))) in Hlo; [|lra].
        rewrite <- pow2_plus in Hlo.
        replace (magnitude x + - e)%Z with 52%Z in Hlo by lia. exact Hlo. }
      apply nearestEven_ge in Hscaled. rewrite Zle_Qle in Hscaled.
      apply (Qmult_le_compat_r _ _ (2 ^ e)) in Hscaled; [|lra].
      eapply Qle_trans; [|exact Hscaled].
      rewrite pow2_inject by lia. rewrite <- pow2_plus.
      apply Qle_trans with (2 ^ 53 * 2 ^ k).
      * apply Qmult_le_compat_r; [|lra].
        rewrite <- pow2_inject by lia. rewrite <- Zle_Qle. lia.
      * rewrite <- pow2_plus. apply pow2_le. lia.
Qed.

Lemma roundToDouble_binary64 (x : Q) : isBinary64 x -> roundToDouble x == x.
Proof.
  intros (m & e & Hm & [He _] & Hx). exact (roundToDouble_exact Hx Hm He).
Qed.

(** The rounding agrees with the Standard Library's specification of
    binary64 multiplication and addition ([prec = 53], [emax = 1024]) on
    sample operations: a product that rounds up across an integer, the
    sum [(1 - 2^-52) * 2 + 4], which rounds to 6, and a product in the
    subnormal range. *)
Lemma roundToDouble_agrees_with_SpecFloat :
  valueOf (SFmul 53 1024 (S754_finite false 2573485501354569 (-52))
             (S754_finite false 7 0))
  == roundToDouble ((2573485501354569 # 4503599627370496) * 7)
  /\ valueOf (SFadd 53 1024
                (SFmul 53 1024 (S754_finite false 4503599627370495 (-52))
                   (S754_finite false 2 0))
                (S754_finite false 4 0))
     == roundToDouble
          (roundToDouble ((4503599627370495 # 4503599627370496) * 2) + 4)
  /\ valueOf (SFmul 53 1024 (S754_finite false 3 (-1074))
                (S754_finite false 1 (-1)))
     == roundToDouble (inject_Z 3 * 2 ^ (-1074) * (1 # 2)).
Proof. repeat split; vm_compute; reflexivity. Qed.

End Float64Facts.

(* ------------------------------------------------------------------ *)
(** * The random source *)

Section PrngFacts.
Import Float64 Prng.
Local Open Scope Q_scope.

Lemma Qfloor_unique (x : Q) (z : Z) :
  inject_Z z <= x -> x < inject_Z (z + 1) -> Qfloor x = z.
Proof.
  intros Hlo Hhi.
  pose proof (Qfloor_le x) as Hfl. pose proof (Qlt_floor x) as Hlt.
  assert (H1 : (inject_Z (Qfloor x) < inject_Z (z + 1)))
    by (eapply Qle_lt_trans; eauto).
  assert (H2 : (inject_Z z < inject_Z (Qfloor x + 1)))
    by (eapply Qle_lt_trans; eauto).
  rewrite <- Zlt_Qlt in H1, H2. lia.
Qed.

Lemma Qfloor_bounds (x : Q) (z : Z) :
  Qfloor x = z <-> inject_Z z <= x /\ x < inject_Z (z + 1).
Proof.
  split.
  - intros <-. split; [apply Qfloor_le | apply Qlt_floor].
  - intros [Hlo Hhi]. apply Qfloor_unique; assumption.
Qed.

Lemma Qfloor_plus_Z (x : Q) (n : Z) :
  Qfloor (x + inject_Z n) = (Qfloor x + n)%Z.
Proof.
  apply Qfloor_unique.
  - rewrite inject_Z_plus. apply Qplus_le_compat; [apply Qfloor_le | apply Qle_refl].
  - replace (Qfloor x + n + 1)%Z with ((Qfloor x + 1) + n)%Z by lia.
    rewrite inject_Z_plus. apply Qplus_lt_le_compat; [apply Qlt_floor | apply Qle_refl].
Qed.

(** [Math.floor(u * n)] is an index below [n]: a double below 1 is at
    most [1 - 2^-53], and rounding the product adds less than that
    leaves. *)
Lemma floorTimes_lt (u : Q) (n : nat) :
  unitDouble u -> (0 < n)%nat -> (floorTimes u n < n)%nat.
Proof.
  intros (Hb & H0 & H1) Hn. unfold floorTimes.
  set (x := u * inject_Z (Z.of_nat n)).
  assert (HN : 1 <= inject_Z (Z.of_nat n)).
  { change 1 with (inject_Z 1). rewrite <- Zle_Qle. lia. }
  assert (Hx0 : 0 <= x).
  { apply Qmult_le_0_compat; [exact H0 | lra]. }
  assert (Hlt : roundToDouble x < inject_Z (Z.of_nat n)).
  { destruct (Qeq_dec x 0) as [Hz|Hnz].
    - unfold roundToDouble. apply Qeq_bool_iff in Hz. rewrite Hz. lra.
    - assert (Hpos : 0 < x).
      { apply Qle_lt_or_eq in Hx0 as [H|H]; [exact H|].
        exfalso. apply Hnz. symmetry. exact H. }
      destruct (roundToDouble_error Hnz) as [_ Hup].
      pose proof (half_ulp_bound Hpos) as Hulp.
      pose proof (below_one Hb H1) as Hu.
      assert (Hxn : x <= (1 - 2 ^ (-53)) * inject_Z (Z.of_nat n)).
      { apply Qmult_le_compat_r; [exact Hu | lra]. }
      set (N := inject_Z (Z.of_nat n)) in *.
      assert (Hc : 2 ^ (-53) == 1 # 9007199254740992) by reflexivity.
      assert (Ht : 2 ^ (-1075) < (1 # 9007199254740992) * (1 # 9007199254740992))
        by reflexivity.
      rewrite Hc in Hulp, Hxn.
      set (t := 2 ^ (-1075)) in *.
      lra. }
  assert (Hfl : (Qfloor (roundToDouble x) < Z.of_nat n)%Z).
  { rewrite Zlt_Qlt. eapply Qle_lt_trans; [apply Qfloor_le | exact Hlt]. }
  lia.
Qed.

(** The rounding of the product matters: here the exact product is
    below 4 and the double nearest to it is 4. *)
Lemma floorTimes_rounds_the_product :
  floorTimes (2573485501354569 # 4503599627370496) 7 = 4%nat
  /\ Qfloor ((2573485501354569 # 4503599627370496) * 7) = 3%Z.
Proof. split; vm_compute; reflexivity. Qed.

Lemma random_index (random : Rng) (p : nat) (l : list nat) :
  wellFormed random -> l <> [] ->
  In (nth (floorTimes (random p) (length l)) l 0%nat) l.
Proof.
  intros Hwf Hl. apply nth_In.
  apply floorTimes_lt; [apply Hwf|].
  destruct l; [congruence | simpl; lia].
Qed.

(** A dyadic number [m * 2^e] with a 53-bit [m], below 1. *)
Lemma unitDouble_dyadic (u : Q) (m e : Z) :
  u == inject_Z m * 2 ^ e -> (0 <= m < 2 ^ 53)%Z -> (-1074 <= e <= 971)%Z ->
  u < 1 -> unitDouble u.
Proof.
  intros Hu Hm He H1. split; [|split].
  - exists m, e. repeat split; try lia. exact Hu.
  - rewrite Hu. apply Qmult_le_0_compat.
    + change 0 with (inject_Z 0). rewrite <- Zle_Qle. lia.
    + apply Qlt_le_weak, pow2_pos.
  - exact H1.
Qed.

Lemma cycle_wellFormed (draws : list Q) :
  draws <> [] -> Forall unitDouble draws -> wellFormed (cycle draws).
Proof.
  intros Hne Hall i. unfold cycle.
  rewrite Forall_forall in Hall. apply Hall. apply nth_In.
  apply Nat.mod_upper_bound. destruct draws; [congruence | discriminate].
Qed.

End PrngFacts.

(* ------------------------------------------------------------------ *)
(** * Arrays *)

Section ArrayFacts.

Lemma length_setNth {A : Type} (i : nat) (v : A) (arr : list A) :
  length (setNth i v arr) = length arr.
Proof.
  revert i. induction arr as [|x arr IH]; intros [|i]; simpl; auto.
Qed.

Lemma nth_error_setNth_same {A : Type} (i : nat) (v : A) (arr : list A) :
  i < length arr -> nth_error (setNth i v arr) i = Some v.
Proof.
  revert i. induction arr as [|x arr IH]; intros [|i]; simpl; try lia; auto.
  intros H. apply IH. lia.
Qed.

Lemma nth_error_setNth_other {A : Type} (i j : nat) (v : A) (arr : list A) :
  i <> j -> nth_error (setNth i v arr) j = nth_error arr j.
Proof.
  revert i j.
  induction arr as [|x arr IH]; intros [|i] [|j] H; simpl; auto;
    try congruence.
Qed.

Lemma nth_setNth (i k d : nat) (v : nat) (arr : list nat) :
  i < length arr ->
  nth k (setNth i v arr) d = if k =? i then v else nth k arr d.
Proof.
  revert i k. induction arr as [|x arr IH]; intros [|i] [|k]; simpl; try lia; auto.
  intros H. apply IH. lia.
Qed.

End ArrayFacts.

(* ------------------------------------------------------------------ *)
(** * The primary generator fills the grid with disjoint paths *)

Section FillFacts.
Import Grid Prng Generator GenProps.

Variable random : Rng.
Hypothesis random_ok : wellFormed random.
Variables w h : nat.

Lemma isEmptyCell_lt (g : list Z) (e : nat) :
  isEmptyCell g e = true -> e < length g.
Proof.
  unfold isEmptyCell. destruct (nth_error g e) eqn:H; [|discriminate].
  intros _. apply nth_error_Some. congruence.
Qed.

Lemma allCells_snoc (ps : list PathEntry) (p : PathEntry) :
  allCells (ps ++ [p]) = allCells ps ++ path p.
Proof.
  unfold allCells. rewrite map_app, concat_app. simpl.
  rewrite app_nil_r. reflexivity.
Qed.

Lemma In_deleteCell (x e : nat) (cells : list nat) :
  In e (deleteCell x cells) -> In e cells /\ e <> x.
Proof.
  unfold deleteCell. rewrite filter_In. intros [Hin Hne].
  apply negb_true_iff, Nat.eqb_neq in Hne. auto.
Qed.

(** Writing a colour into an empty cell keeps the invariant. *)
Lemma fill_cell size g empty count cells x color :
  attemptInv size g empty count cells ->
  isEmptyCell g x = true ->
  attemptInv size (setNth x (Z.of_nat color) g) (deleteCell x empty)
    (S count) (cells ++ [x]).
Proof.
  intros (Hlen & Hempty & Hnd & Hfilled & Hcount) Hx.
  pose proof (@isEmptyCell_lt g x Hx) as Hlt.
  assert (Hfresh : ~ In x cells).
  { intros Hin. destruct (Hfilled x Hin) as [Hf _]. congruence. }
  unfold attemptInv. repeat split.
  - rewrite length_setNth. exact Hlen.
  - intros e He. apply In_deleteCell in He as [He Hne].
    unfold isEmptyCell. rewrite nth_error_setNth_other by congruence.
    apply Hempty. exact He.
  - apply NoDup_app; auto.
    + constructor; [intros [] | constructor].
    + intros c Hc [<-|[]]. contradiction.
  - apply in_app_iff in H as [Hc|[<-|[]]].
    + unfold isEmptyCell. rewrite nth_error_setNth_other.
      * apply Hfilled. exact Hc.
      * intros <-. contradiction.
    + unfold isEmptyCell. rewrite nth_error_setNth_same by exact Hlt.
      apply Z.eqb_neq. lia.
  - apply in_app_iff in H as [Hc|[<-|[]]].
    + apply Hfilled. exact Hc.
    + lia.
  - rewrite length_app. simpl. lia.
Qed.

Lemma validMove_empty g color cur next :
  validMove w h g color cur next = true -> isEmptyCell g next = true.
Proof.
  unfold validMove. destruct (isEmptyCell g next); [reflexivity | discriminate].
Qed.

Lemma nonempty_of_length (l : list nat) :
  (0 <? length l) = true -> l <> [].
Proof. destruct l; [discriminate | congruence]. Qed.

(** Growing a path keeps the invariant. *)
Lemma growPath_inv size color done : forall fuel st st',
  growPath fuel random w h color st = Some st' ->
  attemptInv size (g_grid st) (g_empty st) (g_filled st)
    (done ++ currentPath st) ->
  attemptInv size (g_grid st') (g_empty st') (g_filled st')
    (done ++ currentPath st').
Proof.
  induction fuel as [|fuel IH]; intros st st'; simpl; [discriminate|].
  set (validMoves :=
         filter (validMove w h (g_grid st) color (curr st))
                (getNeighbors (curr st) w h)).
  destruct (0 <? length validMoves) eqn:Hany.
  - intros Hrun Hinv. apply IH in Hrun; [exact Hrun|]. cbn.
    rewrite app_assoc. apply fill_cell; [exact Hinv|].
    apply nonempty_of_length in Hany.
    pose proof (@random_index random (g_pos st) validMoves random_ok Hany) as Hin.
    apply filter_In in Hin as [_ Hin].
    exact (@validMove_empty _ _ _ _ Hin).
  - intros [= <-] Hinv. exact Hinv.
Qed.

(** The sampled start cell is a member of [emptyCells]. *)
Lemma pickStart_In g emptyIndices :
  emptyIndices <> [] ->
  forall k best start p picked p',
    pickStart random w h g emptyIndices k best start p = (picked, p') ->
    (forall idx, start = Some idx -> In idx emptyIndices) ->
    forall idx, picked = Some idx -> In idx emptyIndices.
Proof.
  intros Hne. induction k as [|k IH]; intros best start p picked p'; simpl.
  - intros [= <- <-] Hstart. exact Hstart.
  - destruct (_ <? best); intros Hrun Hstart; eapply IH; eauto.
    intros idx [= <-]. apply random_index; assumption.
Qed.

(** Closing a path keeps the invariant, unless the attempt is stuck. *)
Lemma finishPath_inv size color ps st :
  attemptInv size (g_grid st) (g_empty st) (g_filled st)
    (allCells ps ++ currentPath st) ->
  (forall p, In p ps -> 3 <= length (path p)) ->
  stuck (finishPath random w h color ps st) = false ->
  fillInv size (finishPath random w h color ps st).
Proof.
  intros Hinv Hlong. unfold finishPath.
  destruct (length (currentPath st) <? 3) eqn:Hshort; [discriminate|].
  apply Nat.ltb_ge in Hshort.
  destruct (areAdjacent _ _ w).
  - set (validExtensions := filter _ _).
    destruct (0 <? length validExtensions) eqn:Hany; [|discriminate].
    intros _. unfold fillInv. cbn [grid emptyCells filledCount paths].
    rewrite allCells_snoc. cbn [path]. split.
    + rewrite app_assoc. apply fill_cell; [exact Hinv|].
      apply nonempty_of_length in Hany.
      pose proof (@random_index random (g_pos st) validExtensions random_ok Hany)
        as Hin.
      apply filter_In in Hin as [_ Hin].
      apply andb_prop in Hin as [Hin _]. exact Hin.
    + intros p Hp. apply in_app_iff in Hp as [Hp|[<-|[]]]; auto.
      cbn. rewrite length_app. simpl. lia.
  - intros _. unfold fillInv. cbn [grid emptyCells filledCount paths].
    rewrite allCells_snoc. cbn [path]. split.
    + exact Hinv.
    + intros p Hp. apply in_app_iff in Hp as [Hp|[<-|[]]]; auto.
Qed.

(** Starting and growing one path keeps the invariant. *)
Lemma startPath_inv size st st' :
  emptyCells st <> [] ->
  startPath random w h st = Some st' ->
  fillInv size st ->
  stuck st' = false ->
  fillInv size st'.
Proof.
  intros Hne. unfold startPath.
  destruct (pickStart random w h (grid st) (emptyCells st)
              (Nat.min (length (emptyCells st)) 15) 99 None (pos st))
    as [picked p1] eqn:Hpick.
  set (startIdx := match picked with Some idx => idx | None => _ end).
  destruct (growPath _ random w h (length (paths st)) _) as [grown|] eqn:Hgrow;
    [|discriminate].
  intros [= <-] [Hinv Hlong] Hstuck.
  apply finishPath_inv; auto.
  eapply growPath_inv; [exact Hgrow|]. cbn.
  apply fill_cell; [exact Hinv|].
  destruct Hinv as (_ & Hempty & _). apply Hempty.
  subst startIdx. destruct picked as [idx|].
  - eapply pickStart_In; eauto. intros ? [=].
  - destruct (emptyCells st); [congruence | now left].
Qed.

(** The loop that starts paths keeps the invariant. *)
Lemma fillGrid_inv size targetColors : forall fuel st st',
  fillGrid fuel random w h targetColors st = Some st' ->
  fillInv size st ->
  stuck st' = false ->
  fillInv size st'.
Proof.
  induction fuel as [|fuel IH]; intros st st'; simpl; [discriminate|].
  destruct ((filledCount st <? w * h) && (0 <? length (emptyCells st))
            && (Z.of_nat (length (paths st)) <? targetColors)%Z) eqn:Hcond.
  - destruct (startPath random w h st) as [st1|] eqn:Hstart; [|discriminate].
    apply andb_prop in Hcond as [Hcond _].
    apply andb_prop in Hcond as [_ Hne]. apply nonempty_of_length in Hne.
    destruct (stuck st1) eqn:Hstuck.
    + intros [= <-] _ Hfalse. congruence.
    + intros Hrun Hinv Hfalse. eapply IH; eauto.
      eapply startPath_inv; eauto.
  - intros [= <-] Hinv _. exact Hinv.
Qed.

(** The invariant holds when an attempt begins. *)
Lemma fresh_attempt_inv (size p : nat) :
  fillInv size
    {| grid := repeat (-1)%Z size; emptyCells := seq 0 size;
       filledCount := 0; paths := []; stuck := false; pos := p |}.
Proof.
  unfold fillInv, attemptInv. cbn [grid emptyCells filledCount paths].
  change (allCells []) with (@nil nat).
  split; [split; [|split; [|split; [|split]]]|].
  - apply repeat_length.
  - intros e He. apply in_seq in He. unfold isEmptyCell.
    rewrite nth_error_repeat by lia. reflexivity.
  - constructor.
  - intros c [].
  - reflexivity.
  - intros q [].
Qed.

(** A full grid: the paths of a finished attempt use every cell once. *)
Lemma full_grid size st :
  fillInv size st -> filledCount st = size ->
  NoDup (allCells (paths st))
  /\ (forall c, c < size -> In c (allCells (paths st)))
  /\ (forall c, In c (allCells (paths st)) -> c < size).
Proof.
  intros [(Hlen & _ & Hnd & Hfilled & Hcount) _] Hfull.
  split; [exact Hnd|]. split.
  - intros c Hc.
    apply (@full_of_NoDup size (allCells (paths st)) Hnd); auto.
    + rewrite <- Hcount. exact Hfull.
    + intros x Hx. apply Hfilled. exact Hx.
  - intros c Hc. apply Hfilled. exact Hc.
Qed.

End FillFacts.

(* ------------------------------------------------------------------ *)
(** * Shuffling keeps the colours distinct *)

Section ShuffleFacts.
Import Prng Generator.

Lemma length_swap (i j : nat) (arr : list nat) :
  length (swap i j arr) = length arr.
Proof. unfold swap. rewrite !length_setNth. reflexivity. Qed.

Lemma nth_swap (i j k : nat) (arr : list nat) :
  i < length arr -> j < length arr ->
  nth k (swap i j arr) 0
  = if k =? j then nth i arr 0
    else if k =? i then nth j arr 0
    else nth k arr 0.
Proof.
  intros Hi Hj. unfold swap.
  rewrite nth_setNth by (rewrite length_setNth; exact Hj).
  destruct (k =? j); [reflexivity|].
  apply nth_setNth. exact Hi.
Qed.

Lemma NoDup_swap (i j : nat) (arr : list nat) :
  i < length arr -> j < length arr -> NoDup arr -> NoDup (swap i j arr).
Proof.
  intros Hi Hj Hnd. rewrite (NoDup_nth _ 0) in Hnd.
  apply (NoDup_nth _ 0). intros a b Ha Hb.
  rewrite length_swap in Ha, Hb.
  rewrite !nth_swap by assumption.
  destruct (a =? j) eqn:Haj; destruct (b =? j) eqn:Hbj;
    destruct (a =? i) eqn:Hai; destruct (b =? i) eqn:Hbi;
    repeat match goal with
           | H : (_ =? _) = true |- _ => apply Nat.eqb_eq in H
           | H : (_ =? _) = false |- _ => apply Nat.eqb_neq in H
           end;
    intros Heq; apply Hnd in Heq; lia.
Qed.

Lemma shuffleFrom_NoDup (random : Rng) :
  wellFormed random ->
  forall i arr p,
    i < length arr -> NoDup arr ->
    NoDup (fst (shuffleFrom random i arr p))
    /\ length (fst (shuffleFrom random i arr p)) = length arr.
Proof.
  intros Hwf. induction i as [|i IH]; intros arr p Hi Hnd; simpl.
  - auto.
  - assert (Hj : floorTimes (random p) (S i + 1) < S i + 1).
    { apply floorTimes_lt; [apply Hwf | lia]. }
    destruct (IH (swap (S i) (floorTimes (random p) (S i + 1)) arr) (S p))
      as [H1 H2].
    + rewrite length_swap. lia.
    + apply NoDup_swap; auto. lia.
    + rewrite length_swap in H2. auto.
Qed.

Lemma shuffle_NoDup (random : Rng) (arr : list nat) (p : nat) :
  wellFormed random -> NoDup arr ->
  NoDup (fst (shuffle random arr p))
  /\ length (fst (shuffle random arr p)) = length arr.
Proof.
  intros Hwf Hnd. unfold shuffle. destruct arr as [|x arr].
  - simpl. auto.
  - apply shuffleFrom_NoDup; auto. simpl. lia.
Qed.

End ShuffleFacts.

(* ------------------------------------------------------------------ *)
(** * Anchors *)

Section AnchorFacts.
Import Grid Generator GenProps.

Lemma lookup_setEntry {V : Type} (k key : nat) (v : V) (m : list (nat * V)) :
  lookup k (setEntry key v m) = if k =? key then Some v else lookup k m.
Proof.
  induction m as [|[k0 old] m IH]; simpl.
  - destruct (k =? key); reflexivity.
  - destruct (key =? k0) eqn:H0.
    + apply Nat.eqb_eq in H0. subst k0. simpl.
      destruct (k =? key); reflexivity.
    + destruct (key <? k0); simpl.
      * destruct (k =? key); reflexivity.
      * rewrite IH. destruct (k =? k0) eqn:Hk; [|reflexivity].
        apply Nat.eqb_eq in Hk. subst k0.
        rewrite Nat.eqb_sym, H0. reflexivity.
Qed.

Lemma lookup_In {V : Type} (k : nat) (v : V) (m : list (nat * V)) :
  lookup k m = Some v -> In (k, v) m.
Proof.
  induction m as [|[k0 old] m IH]; simpl; [discriminate|].
  destruct (k =? k0) eqn:Hk.
  - apply Nat.eqb_eq in Hk. intros [= <-]. left. congruence.
  - intros H. right. auto.
Qed.

(** Writing a key that is not there yet inserts one entry. *)
Lemma setEntry_fresh {V : Type} (key : nat) (v : V) (m : list (nat * V)) :
  ~ In key (map fst m) -> Permutation (setEntry key v m) ((key, v) :: m).
Proof.
  induction m as [|[k0 old] m IH]; simpl; intros Hfresh.
  - apply Permutation_refl.
  - destruct (key =? k0) eqn:H0.
    + apply Nat.eqb_eq in H0. exfalso. apply Hfresh. left. congruence.
    + destruct (key <? k0); [apply Permutation_refl|].
      eapply perm_trans; [apply perm_skip, IH | apply perm_swap].
      intros Hin. apply Hfresh. now right.
Qed.

Lemma NoDup_app_disjoint {A : Type} (l1 l2 : list A) :
  NoDup (l1 ++ l2) -> forall x, In x l1 -> ~ In x l2.
Proof.
  induction l1 as [|a l1 IH]; simpl; intros Hnd x; [intros []|].
  inversion Hnd as [|? ? Hnotin Hrest]; subst.
  intros [<-|Hx] Hin.
  - apply Hnotin. apply in_app_iff. now right.
  - exact (IH Hrest x Hx Hin).
Qed.

(** Writing entries with distinct fresh keys one after the other. *)
Lemma fold_setAnchor_perm (entries : list (nat * nat)) : forall m,
  NoDup (map fst entries ++ map fst m) ->
  Permutation
    (fold_left (fun a e => setAnchor (fst e) (snd e) a) entries m)
    (entries ++ m).
Proof.
  induction entries as [|[c k] entries IH]; intros m Hnd; simpl.
  - apply Permutation_refl.
  - simpl in Hnd. inversion Hnd as [|? ? Hfresh Hrest]; subst.
    assert (Hset : Permutation (setAnchor c k m) ((c, k) :: m)).
    { apply setEntry_fresh. intros Hin. apply Hfresh.
      apply in_app_iff. now right. }
    eapply perm_trans.
    + apply IH. eapply Permutation_NoDup; [|exact Hnd].
      eapply perm_trans; [apply Permutation_middle|].
      apply Permutation_app_head. apply Permutation_sym.
      exact (Permutation_map fst Hset).
    + eapply perm_trans; [apply Permutation_app_head, Hset|].
      apply Permutation_sym, Permutation_middle.
Qed.

(** *** Ends of paths *)

Lemma pathStart_In (p : list nat) : p <> [] -> In (pathStart p) p.
Proof.
  intros Hp. apply nth_In. destruct p; [congruence | simpl; lia].
Qed.

Lemma pathEnd_In (p : list nat) : p <> [] -> In (pathEnd p) p.
Proof.
  intros Hp. apply nth_In. destruct p; [congruence | simpl; lia].
Qed.

Lemma ends_differ (p : list nat) :
  NoDup p -> 2 <= length p -> pathStart p <> pathEnd p.
Proof.
  intros Hnd Hlen Heq. unfold pathStart, pathEnd in Heq.
  apply (proj1 (NoDup_nth p 0) Hnd) in Heq; lia.
Qed.

Lemma endpoint_keys (ps : list PathEntry) :
  map fst (endpointsOf ps)
  = flat_map (fun p => [pathStart (path p); pathEnd (path p)]) ps.
Proof.
  induction ps as [|p ps IH]; simpl; [|rewrite IH]; reflexivity.
Qed.

Lemma endpoint_is_cell (ps : list PathEntry) (c : nat) :
  (forall p, In p ps -> 2 <= length (path p)) ->
  In c (map fst (endpointsOf ps)) -> In c (allCells ps).
Proof.
  rewrite endpoint_keys. unfold allCells.
  induction ps as [|p ps IH]; simpl; intros Hlong; [intros []|].
  assert (Hp : path p <> []).
  { intros H. specialize (Hlong p (or_introl eq_refl)). rewrite H in Hlong.
    simpl in Hlong. lia. }
  intros [<-|[<-|Hin]]; apply in_app_iff.
  - left. apply pathStart_In, Hp.
  - left. apply pathEnd_In, Hp.
  - right. apply IH; auto.
Qed.

(** The ends of disjoint paths are distinct cells. *)
Lemma endpoint_keys_NoDup (ps : list PathEntry) :
  NoDup (allCells ps) ->
  (forall p, In p ps -> 2 <= length (path p)) ->
  NoDup (map fst (endpointsOf ps)).
Proof.
  induction ps as [|p ps IH]; intros Hnd Hlong.
  - constructor.
  - change (allCells (p :: ps)) with (path p ++ allCells ps) in Hnd.
    pose proof (Hlong p (or_introl eq_refl)) as Hlen.
    assert (Hp : path p <> []) by (intros H; rewrite H in Hlen; simpl in Hlen; lia).
    assert (Hrest : forall q, In q ps -> 2 <= length (path q))
      by (intros q Hq; apply Hlong; now right).
    change (map fst (endpointsOf (p :: ps)))
      with (pathStart (path p) :: pathEnd (path p) :: map fst (endpointsOf ps)).
    constructor; [|constructor].
    + intros [Heq|Hin].
      * symmetry in Heq. revert Heq. apply ends_differ; auto.
        exact (NoDup_app_remove_r _ _ Hnd).
      * apply (NoDup_app_disjoint _ _ Hnd (pathStart (path p))).
        -- apply pathStart_In, Hp.
        -- apply endpoint_is_cell; auto.
    + intros Hin.
      apply (NoDup_app_disjoint _ _ Hnd (pathEnd (path p))).
      * apply pathEnd_In, Hp.
      * apply endpoint_is_cell; auto.
    + apply IH; auto. exact (NoDup_app_remove_l _ _ Hnd).
Qed.

Lemma In_endpointsOf (ps : list PathEntry) (c k : nat) :
  In (c, k) (endpointsOf ps)
  <-> exists p, In p ps /\ colorId p = k
                /\ (c = pathStart (path p) \/ c = pathEnd (path p)).
Proof.
  unfold endpointsOf. rewrite in_flat_map. split.
  - intros (p & Hp & [H|[H|[]]]); injection H as <- <-; exists p; auto.
  - intros (p & Hp & Hk & Hc). subst k. exists p. split; [exact Hp|].
    destruct Hc as [Hc|Hc]; subst c; simpl; auto.
Qed.

(** *** What [assignColors] builds *)

Lemma assignColors_spec (ca : list nat) : forall ps i a ps' a',
  assignColors ca i ps a = (ps', a') ->
  map path ps' = map path ps
  /\ map colorId ps' = map (fun j => nth j ca 0) (seq i (length ps))
  /\ a' = fold_left (fun m e => setAnchor (fst e) (snd e) m) (endpointsOf ps') a.
Proof.
  induction ps as [|p ps IH]; intros i a ps' a'; simpl.
  - intros [= <- <-]. auto.
  - destruct (assignColors ca (S i) ps _) as [ps1 a1] eqn:Hrest.
    intros [= <- <-]. destruct (IH _ _ _ _ Hrest) as (H1 & H2 & H3).
    simpl. rewrite H1, H2. repeat split. exact H3.
Qed.

Lemma nth_seq_NoDup (ca : list nat) (n : nat) :
  NoDup ca -> n <= length ca ->
  NoDup (map (fun j => nth j ca 0) (seq 0 n)).
Proof.
  intros Hnd Hn. apply NoDup_map_NoDup_ForallPairs; [|apply seq_NoDup].
  intros a b Ha Hb Heq. apply in_seq in Ha, Hb.
  apply (proj1 (NoDup_nth ca 0) Hnd) in Heq; lia.
Qed.

End AnchorFacts.

(* ------------------------------------------------------------------ *)
(** * What [validateAnchors] certifies *)

Section ValidateAnchorsFacts.
Import Grid Generator GenProps.

Lemma lookup_pushColorAnchor (k color idx : nat) (m : list (nat * list nat)) :
  lookup k (pushColorAnchor color idx m)
  = if k =? color
    then Some (match lookup color m with
               | Some cells => cells ++ [idx]
               | None => [idx]
               end)
    else lookup k m.
Proof.
  unfold pushColorAnchor.
  destruct (lookup color m); apply lookup_setEntry.
Qed.

Lemma cellsOf_snoc (k idx color : nat) (a : list (nat * nat)) :
  cellsOf k (a ++ [(idx, color)])
  = cellsOf k a ++ (if color =? k then [idx] else []).
Proof.
  unfold cellsOf. rewrite filter_app, map_app. simpl.
  destruct (color =? k); reflexivity.
Qed.

(** The group of a colour holds the cells of that colour, in the order
    of the entries. *)
Lemma lookup_groupAnchors (k : nat) (a : Anchors) :
  lookup k (groupAnchors a)
  = match cellsOf k a with
    | [] => None
    | cells => Some cells
    end.
Proof.
  unfold groupAnchors.
  induction a as [|[idx color] a IH] using rev_ind.
  - reflexivity.
  - rewrite fold_left_app. simpl. rewrite lookup_pushColorAnchor, cellsOf_snoc.
    destruct (k =? color) eqn:Hk.
    + apply Nat.eqb_eq in Hk. subst color. rewrite Nat.eqb_refl, IH.
      destruct (cellsOf k a); reflexivity.
    + rewrite Nat.eqb_sym, Hk, app_nil_r. exact IH.
Qed.

Lemma validateAnchors_pair (a : Anchors) (w k c1 c2 : nat) :
  validateAnchors a w = true ->
  cellsOf k a = [c1; c2] ->
  areAdjacent c1 c2 w = false.
Proof.
  unfold validateAnchors. rewrite forallb_forall. intros Hall Hcells.
  pose proof (lookup_groupAnchors k a) as Hgroup. rewrite Hcells in Hgroup.
  apply lookup_In in Hgroup. apply Hall in Hgroup. simpl in Hgroup.
  apply negb_true_iff in Hgroup. exact Hgroup.
Qed.

Lemma absDiff_sym (a b : nat) : absDiff a b = absDiff b a.
Proof. unfold absDiff. lia. Qed.

Lemma areAdjacent_sym (a b w : nat) : areAdjacent a b w = areAdjacent b a w.
Proof.
  unfold areAdjacent. destruct (w =? 0); [reflexivity|].
  rewrite (absDiff_sym (a / w)), (absDiff_sym (a mod w)). reflexivity.
Qed.

Lemma cellsOf_perm (k : nat) (a b : list (nat * nat)) :
  Permutation a b -> Permutation (cellsOf k a) (cellsOf k b).
Proof.
  unfold cellsOf. intros H. apply Permutation_map.
  induction H as [|x l l' _ IH|x y l|l l' l'' _ IH1 _ IH2]; simpl.
  - constructor.
  - destruct (snd x =? k); [apply perm_skip|]; exact IH.
  - destruct (snd x =? k); destruct (snd y =? k);
      try apply Permutation_refl. apply perm_swap.
  - eapply perm_trans; eauto.
Qed.

Lemma cellsOf_cons (k c color : nat) (a : list (nat * nat)) :
  cellsOf k ((c, color) :: a)
  = (if color =? k then [c] else []) ++ cellsOf k a.
Proof.
  unfold cellsOf. cbn [filter snd]. destruct (color =? k); reflexivity.
Qed.

Lemma endpointsOf_cons (p : PathEntry) (ps : list PathEntry) :
  endpointsOf (p :: ps)
  = (pathStart (path p), colorId p) :: (pathEnd (path p), colorId p)
    :: endpointsOf ps.
Proof. reflexivity. Qed.

Lemma cellsOf_other (k : nat) (ps : list PathEntry) :
  ~ In k (map colorId ps) -> cellsOf k (endpointsOf ps) = [].
Proof.
  induction ps as [|p ps IH]; intros Hk; [reflexivity|].
  rewrite endpointsOf_cons, !cellsOf_cons.
  assert (Hne : (colorId p =? k) = false).
  { apply Nat.eqb_neq. intros Heq. apply Hk. now left. }
  rewrite Hne. apply IH. intros Hin. apply Hk. now right.
Qed.

(** With distinct colours, the cells of a path's colour are its two
    ends. *)
Lemma cellsOf_path (ps : list PathEntry) (p : PathEntry) :
  NoDup (map colorId ps) -> In p ps ->
  cellsOf (colorId p) (endpointsOf ps)
  = [pathStart (path p); pathEnd (path p)].
Proof.
  induction ps as [|q ps IH]; intros Hnd; [intros []|].
  inversion Hnd as [|? ? Hfresh Hrest]; subst.
  rewrite endpointsOf_cons, !cellsOf_cons.
  intros [Heq|Hp].
  - subst q. rewrite Nat.eqb_refl.
    rewrite cellsOf_other by exact Hfresh. reflexivity.
  - assert (Hne : (colorId q =? colorId p) = false).
    { apply Nat.eqb_neq. intros Heq. apply Hfresh. rewrite Heq.
      apply in_map. exact Hp. }
    rewrite Hne. apply IH; auto.
Qed.

(** Anchors written from disjoint paths with distinct colours: when
    [validateAnchors] accepts them, no path has adjacent ends. *)
Lemma validated_ends_apart (ps : list PathEntry) (a : Anchors) (w : nat) :
  Permutation a (endpointsOf ps) ->
  NoDup (map colorId ps) ->
  validateAnchors a w = true ->
  forall p, In p ps ->
    areAdjacent (pathStart (path p)) (pathEnd (path p)) w = false.
Proof.
  intros Hperm Hcolors Hvalid p Hp.
  pose proof (@cellsOf_perm (colorId p) _ _ Hperm) as Hcells.
  rewrite (@cellsOf_path ps p Hcolors Hp) in Hcells.
  apply Permutation_sym, Permutation_length_2_inv in Hcells.
  destruct Hcells as [Hcells|Hcells].
  - exact (@validateAnchors_pair a w (colorId p) _ _ Hvalid Hcells).
  - rewrite areAdjacent_sym.
    exact (@validateAnchors_pair a w (colorId p) _ _ Hvalid Hcells).
Qed.

End ValidateAnchorsFacts.

(* ------------------------------------------------------------------ *)
(** * A successful attempt of the primary generator *)

Section AttemptFacts.
Import Grid Prng Generator Props GenProps.

Variable random : Rng.
Hypothesis random_ok : wellFormed random.

Lemma allCells_same_paths (ps ps' : list PathEntry) :
  map path ps' = map path ps -> allCells ps' = allCells ps.
Proof. unfold allCells. intros ->. reflexivity. Qed.

Lemma runAttempt_success w h minC targetColors p lv p' :
  runAttempt random w h minC targetColors p = Some (Some lv, p') ->
  width lv = w /\ height lv = h
  /\ difficulty lv = length (solvedPaths lv)
  /\ NoDup (allCells (solvedPaths lv))
  /\ coversGrid w h (solvedPaths lv)
  /\ insideGrid w h (solvedPaths lv)
  /\ Z.of_nat (length (solvedPaths lv)) = targetColors
  /\ (minC <= Z.of_nat (length (solvedPaths lv)))%Z
  /\ (forall q, In q (solvedPaths lv) -> 3 <= length (path q))
  /\ NoDup (map colorId (solvedPaths lv))
  /\ Permutation (anchors lv) (endpointsOf (solvedPaths lv))
  /\ (forall q, In q (solvedPaths lv) ->
        areAdjacent (pathStart (path q)) (pathEnd (path q)) w = false).
Proof.
  unfold runAttempt.
  destruct (fillGrid _ random w h targetColors _) as [st|] eqn:Hfill;
    [|discriminate].
  destruct (negb (stuck st) && (filledCount st =? w * h)
            && (minC <=? Z.of_nat (length (paths st)))%Z) eqn:Hcond;
    [|discriminate].
  apply andb_prop in Hcond as [Hcond Hmin].
  apply andb_prop in Hcond as [Hstuck Hfull].
  apply negb_true_iff in Hstuck. apply Nat.eqb_eq in Hfull.
  apply Z.leb_le in Hmin.
  destruct (shuffle random (seq 0 (Z.to_nat targetColors)) (pos st))
    as [ca p1] eqn:Hshuffle.
  destruct (negb (Z.of_nat (length (paths st)) =? targetColors)%Z) eqn:Hcount;
    [discriminate|].
  apply negb_false_iff, Z.eqb_eq in Hcount.
  destruct (assignColors ca 0 (paths st) []) as [ps a] eqn:Hassign.
  destruct (validateAnchors a w) eqn:Hvalid; [|discriminate].
  intros [= <- <-]. cbn [width height difficulty solvedPaths anchors].
  (* the grid is full of disjoint paths *)
  pose proof (@fillGrid_inv random random_ok w h (w * h) targetColors _ _ _
                Hfill (fresh_attempt_inv (w * h) p) Hstuck) as Hinv.
  destruct (full_grid Hinv Hfull) as (Hnd & Hcover & Hinside).
  destruct Hinv as [_ Hlong].
  destruct (assignColors_spec _ _ _ _ Hassign) as (Hpaths & Hcolors & Hanchors).
  pose proof (allCells_same_paths _ _ Hpaths) as Hcells.
  assert (Hlen : length ps = length (paths st)).
  { rewrite <- (length_map path ps), Hpaths. apply length_map. }
  assert (Hlong' : forall q, In q ps -> 3 <= length (path q)).
  { intros q Hq. apply (in_map path) in Hq. rewrite Hpaths in Hq.
    apply in_map_iff in Hq as (q0 & Heq & Hq0). rewrite <- Heq. auto. }
  (* the colours are distinct *)
  assert (Hca : NoDup ca /\ length ca = Z.to_nat targetColors).
  { pose proof (@shuffle_NoDup random (seq 0 (Z.to_nat targetColors)) (pos st)
                  random_ok (seq_NoDup _ _)) as [H1 H2].
    rewrite Hshuffle in H1, H2. simpl in H1, H2.
    rewrite length_seq in H2. auto. }
  destruct Hca as [Hca Hcalen].
  assert (Hdistinct : NoDup (map colorId ps)).
  { rewrite Hcolors. apply nth_seq_NoDup; auto. lia. }
  (* the anchors are the ends *)
  assert (Hperm : Permutation a (endpointsOf ps)).
  { rewrite Hanchors. rewrite <- (app_nil_r (endpointsOf ps)) at 2.
    apply fold_setAnchor_perm. simpl. rewrite app_nil_r.
    apply endpoint_keys_NoDup.
    - rewrite Hcells. exact Hnd.
    - intros q Hq. specialize (Hlong' q Hq). lia. }
  repeat split; auto.
  - rewrite Hcells. exact Hnd.
  - intros c Hc. rewrite Hcells. auto.
  - intros c Hc. rewrite Hcells in Hc. auto.
  - rewrite Hlen. exact Hcount.
  - rewrite Hlen. exact Hmin.
  - apply validated_ends_apart with (a := a); auto.
Qed.

Lemma attemptLoop_success w h minC targetColors : forall n p lv,
  attemptLoop n random w h minC targetColors p = Success lv ->
  exists p0 p1,
    runAttempt random w h minC targetColors p0 = Some (Some lv, p1).
Proof.
  induction n as [|n IH]; intros p lv; simpl; [discriminate|].
  destruct (runAttempt random w h minC targetColors p)
    as [[[lv'|] p']|] eqn:Hrun; try discriminate.
  - intros [= <-]. eauto.
  - apply IH.
Qed.

End AttemptFacts.

Section GenerateLevelFacts.
Import Grid Prng Generator Props GenProps.

Lemma generateLevel_primary mulberry32 mathRandom w h minC maxC palette seed
    maxAttempts lv :
  generateLevel mulberry32 mathRandom w h minC maxC palette seed maxAttempts
  = Returned {| level := lv; usedFallback := false |} ->
  exists n p,
    attemptLoop n (randomOf mulberry32 mathRandom seed) w h minC
      (targetColorsOf (randomOf mulberry32 mathRandom seed 0) minC maxC
         (paletteLenOf palette)) p
    = Success lv.
Proof.
  unfold generateLevel.
  destruct (attemptLoop _ _ w h minC _ 1) as [lv'|p|] eqn:Hloop.
  - intros [= <-]. eauto.
  - destruct (generateFallbackLevel _ _ _ _ _ _ _); discriminate.
  - discriminate.
Qed.

(** With an attempt budget of 0 a returned level comes from the
    fallback generator. *)
Lemma generateLevel_no_budget mulberry32 mathRandom w h minC maxC palette seed
    g :
  generateLevel mulberry32 mathRandom w h minC maxC palette seed (Some 0)
  = Returned g ->
  usedFallback g = true.
Proof.
  unfold generateLevel. simpl.
  destruct (generateFallbackLevel _ _ _ _ _ _ _); try discriminate.
  intros [= <-]. reflexivity.
Qed.

(** A seed other than 0 makes the result independent of the platform's
    random source. *)
Lemma generateLevel_seeded mulberry32 mathRandom1 mathRandom2 w h minC maxC
    palette s maxAttempts :
  s <> 0%Z ->
  generateLevel mulberry32 mathRandom1 w h minC maxC palette (Some s) maxAttempts
  = generateLevel mulberry32 mathRandom2 w h minC maxC palette (Some s)
      maxAttempts.
Proof.
  intros Hs. unfold generateLevel, randomOf.
  apply Z.eqb_neq in Hs. rewrite Hs. reflexivity.
Qed.

End GenerateLevelFacts.

(* ------------------------------------------------------------------ *)
(** * The loops of the primary generator never run out of fuel *)

Section FuelFacts.
Import Grid Prng Generator GenProps.

Variable random : Rng.
Hypothesis random_ok : wellFormed random.
Variables w h : nat.

Lemma length_deleteCell_le (x : nat) (cells : list nat) :
  length (deleteCell x cells) <= length cells.
Proof. apply filter_length_le. Qed.

Lemma length_deleteCell_lt (x : nat) (cells : list nat) :
  In x cells -> length (deleteCell x cells) < length cells.
Proof.
  induction cells as [|c cells IH]; simpl; [intros []|].
  intros [->|Hin].
  - rewrite Nat.eqb_refl. simpl.
    pose proof (length_deleteCell_le x cells). unfold deleteCell in *. lia.
  - specialize (IH Hin). unfold deleteCell in *.
    destruct (negb (c =? x)); simpl; lia.
Qed.

Lemma tracked_after_fill (g : list Z) (empty : list nat) (x color : nat) :
  tracksEmpty g empty ->
  tracksEmpty (setNth x (Z.of_nat color) g) (deleteCell x empty).
Proof.
  intros Htrack e He. unfold isEmptyCell in He.
  destruct (Nat.eq_dec x e) as [<-|Hne].
  - destruct (nth_error (setNth x (Z.of_nat color) g) x) as [v|] eqn:Hv;
      [|discriminate].
    assert (Hlt : x < length g).
    { rewrite <- (length_setNth x (Z.of_nat color) g).
      apply nth_error_Some. congruence. }
    rewrite nth_error_setNth_same in Hv by exact Hlt.
    injection Hv as <-. apply Z.eqb_eq in He. lia.
  - rewrite nth_error_setNth_other in He by exact Hne.
    unfold deleteCell. apply filter_In. split.
    + apply Htrack. exact He.
    + apply negb_true_iff, Nat.eqb_neq. congruence.
Qed.

Lemma growPath_total color : forall fuel st,
  tracksEmpty (g_grid st) (g_empty st) ->
  length (g_empty st) < fuel ->
  exists st',
    growPath fuel random w h color st = Some st'
    /\ tracksEmpty (g_grid st') (g_empty st')
    /\ g_filled st <= g_filled st'.
Proof.
  induction fuel as [|fuel IH]; intros st Htrack Hfuel; [lia|]. simpl.
  set (validMoves :=
         filter (validMove w h (g_grid st) color (curr st))
                (getNeighbors (curr st) w h)).
  destruct (0 <? length validMoves) eqn:Hany.
  - apply nonempty_of_length in Hany.
    pose proof (@random_index random (g_pos st) validMoves random_ok Hany)
      as Hin.
    apply filter_In in Hin as [_ Hin]. apply validMove_empty in Hin.
    apply Htrack in Hin. apply length_deleteCell_lt in Hin.
    match goal with
    | |- exists st', growPath fuel random w h color ?s = _ /\ _ =>
        destruct (IH s) as (st' & Hrun & Htrack' & Hfilled)
    end.
    + cbn. apply tracked_after_fill. exact Htrack.
    + cbn. lia.
    + exists st'. cbn in Hfilled. repeat split; auto. lia.
  - exists st. auto.
Qed.

Lemma finishPath_tracks color ps st :
  tracksEmpty (g_grid st) (g_empty st) ->
  tracksEmpty (grid (finishPath random w h color ps st))
              (emptyCells (finishPath random w h color ps st))
  /\ g_filled st <= filledCount (finishPath random w h color ps st).
Proof.
  intros Htrack. unfold finishPath.
  destruct (length (currentPath st) <? 3); [cbn; auto|].
  destruct (areAdjacent _ _ w); [|cbn; auto].
  destruct (0 <? length _); cbn; auto.
  split; [apply tracked_after_fill; exact Htrack | lia].
Qed.

Lemma startPath_total st :
  tracksEmpty (grid st) (emptyCells st) ->
  exists st',
    startPath random w h st = Some st'
    /\ tracksEmpty (grid st') (emptyCells st')
    /\ filledCount st < filledCount st'.
Proof.
  intros Htrack. unfold startPath.
  destruct (pickStart random w h (grid st) (emptyCells st) _ 99 None (pos st))
    as [picked p1].
  set (startIdx := match picked with Some idx => idx | None => _ end).
  match goal with
  | |- context [growPath ?f random w h ?c ?s] =>
      destruct (@growPath_total c f s) as (grown & Hrun & Htrack' & Hfilled)
  end.
  - cbn. apply tracked_after_fill. exact Htrack.
  - cbn. pose proof (length_deleteCell_le startIdx (emptyCells st)). lia.
  - rewrite Hrun. eexists. split; [reflexivity|].
    destruct (@finishPath_tracks (length (paths st)) (paths st) grown Htrack')
      as [H1 H2].
    split; [exact H1|]. cbn in Hfilled. lia.
Qed.

Lemma fillGrid_total targetColors : forall fuel st,
  tracksEmpty (grid st) (emptyCells st) ->
  w * h - filledCount st < fuel ->
  exists st', fillGrid fuel random w h targetColors st = Some st'.
Proof.
  induction fuel as [|fuel IH]; intros st Htrack Hfuel; [lia|]. simpl.
  destruct ((filledCount st <? w * h) && (0 <? length (emptyCells st))
            && (Z.of_nat (length (paths st)) <? targetColors)%Z) eqn:Hcond;
    [|eauto].
  apply andb_prop in Hcond as [Hcond _].
  apply andb_prop in Hcond as [Hless _]. apply Nat.ltb_lt in Hless.
  destruct (@startPath_total st Htrack) as (st1 & Hstart & Htrack1 & Hmore).
  rewrite Hstart. destruct (stuck st1); [eauto|].
  apply IH; [exact Htrack1 | lia].
Qed.

Lemma runAttempt_total minC targetColors p :
  exists r, runAttempt random w h minC targetColors p = Some r.
Proof.
  unfold runAttempt.
  match goal with
  | |- context [fillGrid ?f random w h targetColors ?s] =>
      destruct (@fillGrid_total targetColors f s) as (st & Hfill)
  end.
  - cbn. intros e He. apply in_seq. apply isEmptyCell_lt in He.
    rewrite repeat_length in He. lia.
  - cbn. lia.
  - rewrite Hfill.
    destruct (negb (stuck st) && _ && _); [|eauto].
    destruct (shuffle random _ _) as [ca p1].
    destruct (negb _); [eauto|].
    destruct (assignColors ca 0 (paths st) []) as [ps a].
    destruct (validateAnchors a w); eauto.
Qed.

(** The attempt loop ends with a level or with its budget spent. *)
Lemma attemptLoop_total minC targetColors : forall n p,
  attemptLoop n random w h minC targetColors p <> PrimaryOutOfFuel.
Proof.
  induction n as [|n IH]; intros p; simpl; [discriminate|].
  destruct (runAttempt_total minC targetColors p) as ([[lv|] p'] & Hrun);
    rewrite Hrun; [discriminate | apply IH].
Qed.

End FuelFacts.

(* ------------------------------------------------------------------ *)
(** * The loops of the fallback generator never run out of fuel *)

Section FallbackFuelFacts.
Import Grid Prng Generator GenProps.

Variable random : Rng.
Variables w h : nat.

Lemma emptyCount_le (g : list Z) : emptyCount g <= length g.
Proof. apply filter_length_le. Qed.

Lemma emptyCount_setNth (g : list Z) (x : nat) (v : Z) :
  isEmptyCell g x = true -> v <> (-1)%Z ->
  S (emptyCount (setNth x v g)) = emptyCount g.
Proof.
  unfold isEmptyCell, emptyCount. revert x.
  induction g as [|a g IH]; intros [|x];
    cbn [nth_error setNth filter]; try discriminate.
  - intros Ha Hv. rewrite Ha. apply Z.eqb_neq in Hv. rewrite Hv. reflexivity.
  - intros Hx Hv. specialize (IH x Hx Hv).
    destruct (a =? -1)%Z; cbn [length]; congruence.
Qed.

Lemma length_shuffleFrom : forall i arr p,
  length (fst (shuffleFrom random i arr p)) = length arr.
Proof.
  induction i as [|i IH]; intros arr p; simpl; [reflexivity|].
  rewrite IH. apply length_swap.
Qed.

Lemma length_shuffle (arr : list nat) (p : nat) :
  length (fst (shuffle random arr p)) = length arr.
Proof. apply length_shuffleFrom. Qed.

Lemma getNeighbors_le_4 (idx : nat) : length (getNeighbors idx w h) <= 4.
Proof.
  unfold getNeighbors. destruct (w =? 0).
  - destruct (idx =? 0); simpl; lia.
  - destruct (0 <? idx / w); destruct (idx / w <? h - 1);
      destruct (0 <? idx mod w); destruct (idx mod w <? w - 1); simpl; lia.
Qed.

Lemma snake_total color targetSize : forall fuel st,
  length (s_stack st) + 4 * emptyCount (s_grid st) < fuel ->
  exists st',
    snake fuel random w h color targetSize st = Some st'
    /\ length (s_grid st') = length (s_grid st).
Proof.
  induction fuel as [|fuel IH]; intros st Hfuel; [lia|]. simpl.
  destruct (s_stack st) as [|current rest] eqn:Hstack; [eauto|].
  destruct (negb (length (s_region st) <? targetSize)); [eauto|].
  cbn [length] in Hfuel.
  destruct (includes (s_visited st) current
            || negb (isEmptyCell (s_grid st) current)) eqn:Hskip.
  - match goal with
    | |- exists st', snake fuel random w h color targetSize ?s = _ /\ _ =>
        destruct (IH s) as (st' & Hrun & Hlen)
    end.
    + cbn [s_stack s_grid]. lia.
    + exists st'. auto.
  - apply orb_false_iff in Hskip as [_ Hempty].
    apply negb_false_iff in Hempty.
    set (visited := s_visited st ++ [current]).
    set (g := setNth current (Z.of_nat color) (s_grid st)).
    set (open := filter _ (getNeighbors current w h)).
    set (merged := filter _ open ++ filter _ open).
    destruct (shuffle random merged (s_pos st)) as [allNeighbors p1] eqn:Hsh.
    assert (Hcount : S (emptyCount g) = emptyCount (s_grid st)).
    { apply emptyCount_setNth; [exact Hempty | lia]. }
    assert (Hmerged : length allNeighbors <= 4).
    { pose proof (length_shuffle merged (s_pos st)) as Hl.
      rewrite Hsh in Hl. simpl in Hl. rewrite Hl.
      subst merged. rewrite length_app.
      pose proof (filter_length
                    (isPreferred w (snakeDirection st) current) open) as Hsplit.
      pose proof (filter_length_le
                    (fun n => negb (includes visited n) && isEmptyCell g n)
                    (getNeighbors current w h)) as Hopen.
      pose proof (getNeighbors_le_4 current). fold open in Hopen. lia. }
    match goal with
    | |- exists st', snake fuel random w h color targetSize ?s = _ /\ _ =>
        destruct (IH s) as (st' & Hrun & Hlen)
    end.
    + cbn [s_stack s_grid]. rewrite length_app, length_rev. lia.
    + exists st'. split; [exact Hrun|]. rewrite Hlen. cbn [s_grid].
      apply length_setNth.
Qed.

Lemma partition_total targetCellsPerPath remainder : forall n color st,
  length (p_grid st) = w * h ->
  exists st',
    partition n random w h targetCellsPerPath remainder color st = Some st'.
Proof.
  induction n as [|n IH]; intros color st Hlen; simpl; [eauto|].
  destruct (find _ (seq 0 (w * h))) as [startIdx|]; [|eauto].
  match goal with
  | |- context [snake ?f random w h color ?t ?s] =>
      destruct (@snake_total color t f s) as (s' & Hrun & Hlen')
  end.
  - cbn [s_stack s_grid length]. pose proof (emptyCount_le (p_grid st)). lia.
  - rewrite Hrun. apply IH. cbn [p_grid]. cbn [s_grid] in Hlen'. congruence.
Qed.

Lemma fillRemaining_has_fuel : forall cells g rs,
  fillRemaining cells w g rs <> OutOfFuel.
Proof.
  induction cells as [|i cells IH]; intros g rs; simpl; [discriminate|].
  destruct (isEmptyCell g i); [|apply IH].
  destruct (nth_error rs _); [apply IH | discriminate].
Qed.

Lemma pending_mono (region v1 v2 : list nat) :
  (forall c, In c v1 -> In c v2) -> pending region v2 <= pending region v1.
Proof.
  intros Hsub. unfold pending.
  induction region as [|c region IH]; simpl; [lia|].
  destruct (includes v1 c) eqn:H1.
  - apply includes_In in H1. apply Hsub in H1. apply includes_In in H1.
    rewrite H1. simpl. exact IH.
  - destruct (includes v2 c); simpl; lia.
Qed.

Lemma pending_visit (region visited : list nat) (idx : nat) :
  In idx region -> ~ In idx visited ->
  pending region (visited ++ [idx]) < pending region visited.
Proof.
  intros Hin Hfresh. unfold pending.
  induction region as [|c region IH]; simpl; [destruct Hin|].
  assert (Hmono :
    length (filter (fun c => negb (includes (visited ++ [idx]) c)) region)
    <= length (filter (fun c => negb (includes visited c)) region)).
  { apply (pending_mono region visited (visited ++ [idx])).
    intros x Hx. apply in_app_iff. now left. }
  destruct Hin as [->|Hin].
  - apply includes_not_In in Hfresh. rewrite Hfresh.
    assert (Hnow : includes (visited ++ [idx]) idx = true).
    { apply includes_In, in_app_iff. right. now left. }
    rewrite Hnow. simpl. lia.
  - specialize (IH Hin).
    destruct (includes visited c) eqn:H1.
    + assert (H2 : includes (visited ++ [idx]) c = true).
      { apply includes_In, in_app_iff. left. apply includes_In. exact H1. }
      rewrite H2. simpl. exact IH.
    + destruct (includes (visited ++ [idx]) c); simpl; lia.
Qed.

Lemma dfs_total (region : list nat) : forall fuel idx st,
  pending region (visitedInRegion st) < fuel ->
  exists st',
    dfs fuel w h region idx st = Some st'
    /\ forall c, In c (visitedInRegion st) -> In c (visitedInRegion st').
Proof.
  induction fuel as [|fuel IH]; intros idx st Hfuel; [lia|]. simpl.
  destruct (includes (visitedInRegion st) idx || negb (includes region idx))
    eqn:Hskip; [eauto|].
  apply orb_false_iff in Hskip as [Hfresh Hin].
  apply includes_not_In in Hfresh.
  apply negb_false_iff, includes_In in Hin.
  pose proof (pending_visit region (visitedInRegion st) idx Hin Hfresh) as Hless.
  set (visited := visitedInRegion st ++ [idx]) in *.
  set (sorted := sortByKey _ _). clearbody sorted.
  assert (Hfold : forall l s,
    pending region (visitedInRegion s) < fuel ->
    exists st',
      fold_left
        (fun acc neighbor =>
           match acc with
           | Some s0 => dfs fuel w h region neighbor s0
           | None => None
           end) l (Some s) = Some st'
      /\ forall c, In c (visitedInRegion s) -> In c (visitedInRegion st')).
  { induction l as [|nb l IHl]; intros s Hs; simpl; [eauto|].
    destruct (IH nb s Hs) as (s1 & Hrun & Hsub). rewrite Hrun.
    destruct (IHl s1) as (st' & Hrest & Hsub').
    - pose proof (pending_mono region _ _ Hsub). lia.
    - exists st'. split; [exact Hrest|]. auto. }
  destruct (Hfold sorted
              {| visitedInRegion := visited; walkPath := walkPath st ++ [idx] |})
    as (st' & Hrun & Hsub).
  - cbn. lia.
  - exists st'. split; [exact Hrun|]. intros c Hc. apply Hsub. cbn.
    apply in_app_iff. now left.
Qed.

Lemma linearize_total : forall rs color ps,
  exists ps', linearize rs w h color ps = Some ps'.
Proof.
  induction rs as [|region rs IH]; intros color ps; cbn [linearize]; [eauto|].
  destruct (length region =? 0); [apply IH|].
  match goal with
  | |- context [dfs ?f w h region ?i ?s] =>
      destruct (@dfs_total region f i s) as (walked & Hrun & _)
  end.
  - cbn [visitedInRegion]. unfold pending. pose proof (filter_length_le
      (fun c => negb (includes [] c)) region). lia.
  - rewrite Hrun. apply IH.
Qed.

(** The fallback generator returns a level or throws. *)
Lemma generateFallbackLevel_has_fuel minC maxC p paletteLen :
  generateFallbackLevel w h minC maxC random p paletteLen <> OutOfFuel.
Proof.
  unfold generateFallbackLevel.
  match goal with
  | |- context [partition ?n random w h ?t ?r 0 ?s] =>
      destruct (@partition_total t r n 0 s) as (parts & Hparts)
  end.
  - cbn. apply repeat_length.
  - rewrite Hparts.
    pose proof (fillRemaining_has_fuel (seq 0 (w * h)) (p_grid parts)
                  (regions parts)) as Hfill.
    destruct (fillRemaining _ w _ _) as [[g rs]| |];
      [|discriminate|congruence].
    destruct (linearize_total rs 0 []) as (ps0 & Hlin). rewrite Hlin.
    destruct (shuffle random _ _) as [ca p1].
    destruct (assignFallbackColors ca _ 0 ps0 []) as [ps a].
    destruct (negb _ && _); discriminate.
Qed.

End FallbackFuelFacts.

(* ------------------------------------------------------------------ *)
(** * The fallback generator returns a level *)

Section FallbackReturns.
Import Grid Prng Generator GenProps.

Variable random : Rng.
Variables w h : nat.

Lemma nearestFrom_bound (r c : nat) : forall rs j minDist nearestRegion,
  nearestFrom w r c rs j minDist nearestRegion = nearestRegion
  \/ j <= nearestFrom w r c rs j minDist nearestRegion < j + length rs.
Proof.
  induction rs as [|region rs IH]; intros j minDist nearestRegion;
    cbn [nearestFrom length]; [now left|].
  destruct (length region =? 0);
    [|destruct (match minDist with Some d => _ | None => true end)];
    match goal with
    | |- context [nearestFrom w r c rs (S j) ?m ?n] =>
        destruct (IH (S j) m n) as [Heq|Hin]
    end; lia.
Qed.

Lemma fillRemaining_returns : forall cells g rs,
  rs <> [] -> exists out, fillRemaining cells w g rs = Returned out.
Proof.
  induction cells as [|i cells IH]; intros g rs Hrs; simpl; [eauto|].
  destruct (isEmptyCell g i); [|apply IH; exact Hrs].
  set (nearest := nearestFrom w (i / w) (i mod w) rs 0 None 0).
  assert (Hlt : nearest < length rs).
  { destruct (nearestFrom_bound (i / w) (i mod w) rs 0 None 0) as [Heq|Hin].
    - fold nearest in Heq. rewrite Heq. destruct rs; [congruence | simpl; lia].
    - fold nearest in Hin. lia. }
  destruct (nth_error rs nearest) as [region|] eqn:Hnth.
  - apply IH. intros Hnil.
    apply (f_equal (@length (list nat))) in Hnil.
    rewrite length_setNth in Hnil. simpl in Hnil. lia.
  - apply nth_error_None in Hnth. lia.
Qed.

Lemma partition_regions targetCellsPerPath remainder : forall n color st st',
  partition n random w h targetCellsPerPath remainder color st = Some st' ->
  length (regions st) <= length (regions st').
Proof.
  induction n as [|n IH]; intros color st st'; simpl.
  - intros [= <-]. lia.
  - destruct (find _ (seq 0 (w * h))); [|intros [= <-]; lia].
    destruct (snake _ random w h color _ _) as [s|]; [|discriminate].
    intros Hrun. apply IH in Hrun. cbn [regions] in Hrun.
    rewrite length_app in Hrun. simpl in Hrun. lia.
Qed.

(** With at least one colour asked for and a palette that is not empty,
    the fallback generator returns a level. *)
Lemma generateFallbackLevel_returns minC maxC p paletteLen :
  (1 <= minC)%Z -> 1 <= paletteLen ->
  exists lv, generateFallbackLevel w h minC maxC random p paletteLen
             = Returned lv.
Proof.
  intros Hmin Hpal.
  assert (Hthrow :
    generateFallbackLevel w h minC maxC random p paletteLen <> Threw).
  { unfold generateFallbackLevel.
    set (numColors := Z.to_nat _).
    assert (Hnum : 1 <= numColors) by (subst numColors; lia).
    destruct (partition numColors random w h _ _ 0 _) as [parts|] eqn:Hparts;
      [|discriminate].
    assert (Hreturned : exists out,
      fillRemaining (seq 0 (w * h)) w (p_grid parts) (regions parts)
      = Returned out).
    { destruct (w * h) as [|size] eqn:Hsize; [simpl; eauto|].
      apply fillRemaining_returns.
      destruct numColors as [|n]; [lia|].
      cbn [partition] in Hparts. rewrite Hsize in Hparts.
      cbn [seq find p_visited includes existsb negb] in Hparts.
      rewrite <- Hsize in Hparts.
      destruct (snake _ random w h 0 _ _) as [s|]; [|discriminate].
      apply partition_regions in Hparts. cbn [regions] in Hparts.
      rewrite length_app in Hparts. simpl in Hparts.
      intros Hnil. rewrite Hnil in Hparts. simpl in Hparts. lia. }
    destruct Hreturned as ([g rs] & Hfill). rewrite Hfill.
    destruct (linearize rs w h 0 []); [|discriminate].
    destruct (shuffle random _ _) as [ca p1].
    destruct (assignFallbackColors ca _ 0 _ []) as [ps a].
    destruct (negb _ && _); discriminate. }
  pose proof (generateFallbackLevel_has_fuel random w h minC maxC p paletteLen)
    as Hfuel.
  destruct (generateFallbackLevel w h minC maxC random p paletteLen);
    [eauto | congruence | congruence].
Qed.

End FallbackReturns.

Section GenerateLevelReturns.
Import Grid Prng Generator GenProps.

(** [generateLevel] returns or throws: the model never stops for lack of
    fuel. *)
Lemma generateLevel_has_fuel mulberry32 mathRandom w h minC maxC palette seed
    maxAttempts :
  wellFormed (randomOf mulberry32 mathRandom seed) ->
  generateLevel mulberry32 mathRandom w h minC maxC palette seed maxAttempts
  <> OutOfFuel.
Proof.
  intros Hwf. unfold generateLevel.
  pose proof (@attemptLoop_total _ Hwf w h minC
                (targetColorsOf (randomOf mulberry32 mathRandom seed 0) minC
                   maxC (paletteLenOf palette))
                (match maxAttempts with
                 | Some n => n
                 | None => MAX_ATTEMPTS_PER_LEVEL
                 end) 1) as Hloop.
  destruct (attemptLoop _ _ w h minC _ 1) as [lv|p|]; [discriminate| |congruence].
  pose proof (generateFallbackLevel_has_fuel
                (randomOf mulberry32 mathRandom seed) w h minC maxC p
                (paletteLenOf palette)) as Hfb.
  destruct (generateFallbackLevel _ _ _ _ _ _ _); congruence.
Qed.

(** With an attempt budget of 0, at least one colour asked for and a
    palette that is not empty, [generateLevel] returns a level of the
    fallback generator. *)
Lemma generateLevel_no_budget_returns mulberry32 mathRandom w h minC maxC
    palette seed :
  (1 <= minC)%Z -> 1 <= paletteLenOf palette ->
  exists lv,
    generateLevel mulberry32 mathRandom w h minC maxC palette seed (Some 0)
    = Returned {| level := lv; usedFallback := true |}.
Proof.
  intros Hmin Hpal. unfold generateLevel. cbn [attemptLoop].
  destruct (generateFallbackLevel_returns
              (randomOf mulberry32 mathRandom seed) w h maxC 1 Hmin Hpal)
    as (lv & Hrun).
  rewrite Hrun. eauto.
Qed.

End GenerateLevelReturns.

(* ------------------------------------------------------------------ *)
(** * The generator *)

Section GeneratorClaims.
Import Grid Prng Generator Props GenProps.


Lemma zeroStream_wellFormed : wellFormed Samples.zeroStream.
Proof.
  intros i. apply (@unitDouble_dyadic _ 0 0); try reflexivity; lia.
Qed.


(** C2, at a failing input.  With an attempt budget of 0 on a 3x3 grid
    and four colours asked for (what [calculateColorCounts(3, 3)] yields)
    and a random source that returns 0, the fallback generator is used
    and returns one path of three cells: the regions of two cells are
    dropped, six cells of the grid are on no path, and the validator
    rejects the level as not fully filled. *)
Theorem fallback_leaves_cells_uncovered (mulberry32 : Z -> Rng) :
  generateLevel mulberry32 Samples.zeroStream 3 3 4 4 None None (Some 0)
  = Returned {| level := Samples.stub3x3; usedFallback := true |}
  /\ ~ coversGrid 3 3 (solvedPaths Samples.stub3x3)
  /\ Validator.validateNumberlinkRules Samples.stub3x3
     = {| Validator.isValid := false;
          Validator.error := Some (Validator.GridNotFilled 3 9) |}
  /\ Daily.calculateColorCounts 3 3 20 = Daily.mkCounts 4 4 false.
Proof.
  split; [vm_compute; reflexivity|].
  split; [|split; reflexivity].
  intros Hcover. specialize (Hcover 3 ltac:(simpl; lia)). simpl in Hcover.
  repeat (destruct Hcover as [Hcover|Hcover]; [discriminate|]). exact Hcover.
Qed.

(** The same on the first stage of the game (5x5, four to five colours):
    a region whose walk ends next to its start is cut short, and cell 16
    is on no path. *)
Lemma fallback_leaves_cell_uncovered_5x5 (mulberry32 : Z -> Rng) :
  generateLevel mulberry32 Samples.zeroStream 5 5 4 5 None None (Some 0)
  = Returned {| level := Samples.gap5x5; usedFallback := true |}
  /\ ~ In 16 (allCells (solvedPaths Samples.gap5x5)).
Proof.
  split; [vm_compute; reflexivity|].
  intros Hin. simpl in Hin.
  repeat (destruct Hin as [Hin|Hin]; [discriminate|]). exact Hin.
Qed.

(** C7, at a failing input.  The seed 0 is falsy, so [generateLevel]
    draws from [Math.random]: two calls with the same arguments and seed
    0 return different puzzles when the platform's source differs. *)
Theorem seed_zero_is_not_deterministic (mulberry32 : Z -> Rng) :
  generateLevel mulberry32 Samples.zeroStream 3 4 2 4 None (Some 0%Z) None
  = Returned {| level := Samples.snake3x4; usedFallback := false |}
  /\ generateLevel mulberry32 Samples.quarterStream 3 4 2 4 None (Some 0%Z)
       None
     = Returned {| level := Samples.hook3x4; usedFallback := false |}
  /\ Samples.snake3x4 <> Samples.hook3x4.
Proof.
  split; [vm_compute; reflexivity|]. split; [vm_compute; reflexivity|].
  discriminate.
Qed.

(** *** The choice of [targetColors] *)

(** On a draw with 32 fractional bits and colour counts below [2^20]
    the product and the sum are exact. *)
Lemma pickColors_coarse (u : Q) (minC maxC : Z) :
  coarseDraw u -> (0 <= minC <= maxC)%Z -> (maxC < 2 ^ 20)%Z ->
  pickColors u minC maxC
  = (Qfloor (u * inject_Z (maxC - minC + 1)) + minC)%Z.
Proof.
  intros (k & Hk & Hu) Hle Hmax. unfold pickColors.
  set (r := (maxC - minC + 1)%Z).
  assert (Hr : (1 <= r <= 2 ^ 20)%Z) by (unfold r; lia).
  assert (Hprod : (u * inject_Z r == inject_Z (k * r) * 2 ^ (-32))%Q).
  { rewrite Hu, inject_Z_mult. ring. }
  assert (Hexact1 :
    (Float64.roundToDouble (u * inject_Z r) == u * inject_Z r)%Q).
  { apply (roundToDouble_exact Hprod); [nia | lia]. }
  assert (Hsum :
    (Float64.roundToDouble (u * inject_Z r) + inject_Z minC
     == inject_Z (k * r + minC * 2 ^ 32) * 2 ^ (-32))%Q).
  { rewrite Hexact1, Hprod, inject_Z_plus, !inject_Z_mult.
    change (inject_Z (2 ^ 32)) with (2 ^ 32)%Q.
    assert (Hc : (2 ^ 32 * 2 ^ (-32) == 1)%Q) by reflexivity.
    rewrite Qmult_plus_distr_l, <- (Qmult_assoc (inject_Z minC)), Hc. ring. }
  assert (Hexact2 :
    (Float64.roundToDouble
       (Float64.roundToDouble (u * inject_Z r) + inject_Z minC)
     == u * inject_Z r + inject_Z minC)%Q).
  { rewrite (roundToDouble_exact Hsum); [|nia|lia].
    rewrite Hexact1. reflexivity. }
  rewrite Hexact2. apply Qfloor_plus_Z.
Qed.

Lemma coarseDraw_unit (u : Q) : coarseDraw u -> (0 <= u)%Q /\ (u < 1)%Q.
Proof.
  intros (k & Hk & Hu). rewrite Hu. split.
  - apply Qmult_le_0_compat; [|discriminate].
    change 0%Q with (inject_Z 0). rewrite <- Zle_Qle. lia.
  - assert (Hc : (1 == inject_Z (2 ^ 32) * 2 ^ (-32))%Q) by reflexivity.
    rewrite Hc. apply Qmult_lt_compat_r; [reflexivity|].
    rewrite <- Zlt_Qlt. lia.
Qed.

Lemma floor_of_unit_times (u : Q) (r : Z) :
  (0 <= u)%Q -> (u < 1)%Q -> (0 < r)%Z ->
  (0 <= Qfloor (u * inject_Z r) < r)%Z.
Proof.
  intros H0 H1 Hr.
  assert (Hpos : (0 < inject_Z r)%Q).
  { change 0%Q with (inject_Z 0). rewrite <- Zlt_Qlt. lia. }
  split.
  - change 0%Z with (Qfloor 0). apply Qfloor_resp_le.
    apply Qmult_le_0_compat; [exact H0 | apply Qlt_le_weak; exact Hpos].
  - rewrite Zlt_Qlt. eapply Qle_lt_trans; [apply Qfloor_le|].
    rewrite <- (Qmult_1_l (inject_Z r)) at 2.
    apply Qmult_lt_compat_r; assumption.
Qed.

(** On any double in [\[0, 1)] the pick is at least [minC] and at most
    [maxC + 1]. *)
Lemma pickColors_range (u : Q) (minC maxC : Z) :
  unitDouble u -> (0 <= minC <= maxC)%Z -> (maxC + 1 < 2 ^ 53)%Z ->
  (minC <= pickColors u minC maxC <= maxC + 1)%Z.
Proof.
  intros (_ & H0 & H1) Hle Hmax. unfold pickColors.
  set (r := (maxC - minC + 1)%Z).
  assert (Hr : (1 <= inject_Z r)%Q).
  { change 1%Q with (inject_Z 1). rewrite <- Zle_Qle. unfold r. lia. }
  assert (Hx0 : (0 <= u * inject_Z r)%Q).
  { apply Qmult_le_0_compat; [exact H0 | lra]. }
  assert (Hxr : (u * inject_Z r <= inject_Z r * 2 ^ 0)%Q).
  { change (2 ^ 0)%Q with 1%Q. nra. }
  assert (Hup1 :
    (Float64.roundToDouble (u * inject_Z r) <= inject_Z r * 2 ^ 0)%Q).
  { apply roundToDouble_le; auto; unfold r; lia. }
  assert (Hlo1 : (0 <= Float64.roundToDouble (u * inject_Z r))%Q).
  { unfold Float64.roundToDouble.
    destruct (Qeq_bool (u * inject_Z r) 0); [apply Qle_refl|].
    apply Qmult_le_0_compat; [|apply Qlt_le_weak, pow2_pos].
    change 0%Q with (inject_Z 0). rewrite <- Zle_Qle.
    apply nearestEven_ge. change (inject_Z 0) with 0%Q.
    apply Qle_shift_div_l; [apply pow2_pos | lra]. }
  set (y := (Float64.roundToDouble (u * inject_Z r) + inject_Z minC)%Q) in *.
  assert (Hy0 : (0 <= y)%Q).
  { unfold y. assert ((0 <= inject_Z minC)%Q).
    { change 0%Q with (inject_Z 0). rewrite <- Zle_Qle. lia. }
    lra. }
  assert (Hup2 : (Float64.roundToDouble y <= inject_Z (maxC + 1) * 2 ^ 0)%Q).
  { apply roundToDouble_le; auto; try lia.
    unfold y. replace (maxC + 1)%Z with (r + minC)%Z by (unfold r; ring).
    rewrite inject_Z_plus. change (2 ^ 0)%Q with 1%Q in *. lra. }
  assert (Hlo2 : (inject_Z minC <= Float64.roundToDouble y)%Q).
  { destruct (Z.eq_dec minC 0) as [->|Hne].
    - unfold Float64.roundToDouble.
      destruct (Qeq_bool y 0); [apply Qle_refl|].
      apply Qmult_le_0_compat; [|apply Qlt_le_weak, pow2_pos].
      change 0%Q with (inject_Z 0). rewrite <- Zle_Qle.
      apply nearestEven_ge. change (inject_Z 0) with 0%Q.
      apply Qle_shift_div_l; [apply pow2_pos | lra].
    - assert (Hm : (inject_Z minC == inject_Z minC * 2 ^ 0)%Q)
        by (change (2 ^ 0)%Q with 1%Q; ring).
      rewrite Hm. apply roundToDouble_ge; try lia.
      + rewrite <- Hm. change 0%Q with (inject_Z 0). rewrite <- Zlt_Qlt. lia.
      + rewrite <- Hm. unfold y. lra. }
  split.
  - rewrite <- (Qfloor_Z minC). apply Qfloor_resp_le. exact Hlo2.
  - rewrite <- (Qfloor_Z (maxC + 1)). apply Qfloor_resp_le.
    change (2 ^ 0)%Q with 1%Q in Hup2. lra.
Qed.

(** C9, amended.  [targetColors] is drawn once per call, before the
    attempt loop, as [min(paletteLen, floor(u * (maxC - minC + 1) +
    minC))] in double precision from the first draw [u], and every
    attempt reuses it: a level the primary generator returns has that
    many paths, whichever attempt produced it.  On a draw with 32
    fractional bits, with [0 <= minC <= maxC <= paletteLen] and [maxC]
    below [2^20], the arithmetic is exact and the pick is uniform over
    [minC .. maxC]: value [v] is chosen exactly on the draws with
    [v - minC <= u * (maxC - minC + 1) < v - minC + 1].  On any other
    double of [\[0, 1)] the pick before the clamp lies between [minC] and
    [maxC + 1]. *)
Theorem targetColors_drawn_once
    (mulberry32 : Z -> Rng) (mathRandom : Rng) (w h : nat) (minC maxC : Z)
    (palette : option (list ColorPalette)) (seed : option Z)
    (maxAttempts : option nat) :
  (forall lv,
     wellFormed (randomOf mulberry32 mathRandom seed) ->
     generateLevel mulberry32 mathRandom w h minC maxC palette seed
       maxAttempts
     = Returned {| level := lv; usedFallback := false |} ->
     Z.of_nat (length (solvedPaths lv))
     = Z.min (Z.of_nat (paletteLenOf palette))
         (Qfloor
            (Float64.roundToDouble
               (Float64.roundToDouble
                  (firstDraw mulberry32 mathRandom seed
                   * inject_Z (maxC - minC + 1))
                + inject_Z minC))))
  /\ (forall u v,
        coarseDraw u ->
        (0 <= minC <= maxC)%Z -> (maxC < 2 ^ 20)%Z ->
        (maxC <= Z.of_nat (paletteLenOf palette))%Z ->
        targetColorsOf u minC maxC (paletteLenOf palette) = v
        <-> (inject_Z (v - minC) <= u * inject_Z (maxC - minC + 1))%Q
            /\ (u * inject_Z (maxC - minC + 1) < inject_Z (v - minC + 1))%Q)
  /\ (forall u,
        unitDouble u -> (0 <= minC <= maxC)%Z -> (maxC + 1 < 2 ^ 53)%Z ->
        (minC <= pickColors u minC maxC <= maxC + 1)%Z).
Proof.
  split; [|split].
  - intros lv Hwf Hrun.
    destruct (generateLevel_primary _ _ _ _ _ _ _ _ _ Hrun) as (n & p & Hloop).
    destruct (attemptLoop_success _ _ _ _ _ _ _ Hloop) as (p0 & p1 & Hattempt).
    destruct (runAttempt_success Hwf _ _ _ _ _ Hattempt)
      as (_ & _ & _ & _ & _ & _ & Hcount & _).
    rewrite Hcount. reflexivity.
  - intros u v Hu Hle Hmax Hpal.
    destruct (coarseDraw_unit Hu) as [H0 H1].
    pose proof (@floor_of_unit_times u (maxC - minC + 1) H0 H1 ltac:(lia))
      as Hfloor.
    unfold targetColorsOf. rewrite (pickColors_coarse Hu Hle Hmax).
    rewrite Z.min_r by lia. rewrite <- Qfloor_bounds. lia.
  - intros u Hu Hle Hmax. apply pickColors_range; assumption.
Qed.

Lemma restartStream_wellFormed : wellFormed Samples.restartStream.
Proof.
  apply cycle_wellFormed; [discriminate|].
  apply Forall_forall. intros u [<-|[<-|[<-|[]]]].
  - apply (@unitDouble_dyadic _ 1 (-1)); try reflexivity; lia.
  - apply (@unitDouble_dyadic _ 7 (-3)); try reflexivity; lia.
  - apply (@unitDouble_dyadic _ 7 (-3)); try reflexivity; lia.
Qed.

Lemma half_coarseDraw : coarseDraw (1 # 2).
Proof. exists (2 ^ 31)%Z. split; [lia | reflexivity]. Qed.

Lemma targetColors_drawn_once_witness :
  wellFormed (randomOf Samples.constantPrng Samples.restartStream None)
  /\ generateLevel Samples.constantPrng Samples.restartStream 4 4 2 4 None
       None None
     = Returned {| level := Samples.second4x4; usedFallback := false |}
  /\ Z.of_nat (length (solvedPaths Samples.second4x4))
     = Z.min 20
         (Qfloor
            (Float64.roundToDouble
               (Float64.roundToDouble ((1 # 2) * inject_Z (4 - 2 + 1))
                + inject_Z 2)))
  /\ coarseDraw (1 # 2)
  /\ (targetColorsOf (1 # 2) 2 4 20 = 3%Z
      <-> (inject_Z (3 - 2) <= (1 # 2) * inject_Z (4 - 2 + 1))%Q
          /\ ((1 # 2) * inject_Z (4 - 2 + 1) < inject_Z (3 - 2 + 1))%Q)
  /\ unitDouble Samples.almostOne
  /\ (2 <= pickColors Samples.almostOne 2 4 <= 4 + 1)%Z.
Proof.
  assert (Hwf :
    wellFormed (randomOf Samples.constantPrng Samples.restartStream None))
    by exact restartStream_wellFormed.
  assert (Hrun :
    generateLevel Samples.constantPrng Samples.restartStream 4 4 2 4 None
      None None
    = Returned {| level := Samples.second4x4; usedFallback := false |})
    by (vm_compute; reflexivity).
  assert (Hone : unitDouble Samples.almostOne).
  { apply (@unitDouble_dyadic _ (2 ^ 52 - 1) (-52)); try reflexivity; lia. }
  destruct (@targetColors_drawn_once Samples.constantPrng
              Samples.restartStream 4 4 2 4 None None None)
    as (H1 & H2 & H3).
  split; [exact Hwf|]. split; [exact Hrun|].
  split; [exact (H1 Samples.second4x4 Hwf Hrun)|].
  split; [exact half_coarseDraw|].
  split.
  - apply (H2 (1 # 2)%Q 3%Z half_coarseDraw); simpl; lia.
  - split; [exact Hone|]. apply (H3 Samples.almostOne Hone); lia.
Defined.

(** C9 as stated fails on three counts.  The value is not drawn again
    for the second attempt: here the first attempt fails, the draw that
    opens the second one would give 4, and the level has the 3 paths the
    first draw asked for.  The clamp comes after the pick: with a palette
    of 2 and colours 1 to 4, three quarters of the draws give 2.  And the
    sum is rounded before the floor is taken: on the draw [1 - 2^-52],
    with colours 4 to 5, the pick is 6. *)
Lemma targetColors_not_resampled_nor_uniform :
  (runAttempt Samples.restartStream 4 4 2 3 1 = Some (None, 32)
   /\ targetColorsOf (Samples.restartStream 32) 2 4 20 = 4%Z
   /\ targetColorsOf (Samples.restartStream 0) 2 4 20 = 3%Z
   /\ generateLevel Samples.constantPrng Samples.restartStream 4 4 2 4 None
        None None
      = Returned {| level := Samples.second4x4; usedFallback := false |}
   /\ length (solvedPaths Samples.second4x4) = 3)
  /\ (forall u, coarseDraw u -> (u < 1 # 4)%Q -> targetColorsOf u 1 4 2 = 1%Z)
  /\ (forall u, coarseDraw u -> (1 # 4 <= u)%Q -> targetColorsOf u 1 4 2 = 2%Z)
  /\ (unitDouble Samples.almostOne
      /\ targetColorsOf Samples.almostOne 4 5 20 = 6%Z).
Proof.
  split; [repeat split; vm_compute; reflexivity|]. split; [|split].
  - intros u Hu H1. destruct (coarseDraw_unit Hu) as [H0 _].
    unfold targetColorsOf. rewrite (pickColors_coarse Hu) by lia.
    assert (Hfloor : Qfloor (u * inject_Z (4 - 1 + 1)) = 0%Z).
    { apply Qfloor_unique.
      - apply Qmult_le_0_compat; [exact H0 | discriminate].
      - eapply Qlt_le_trans.
        + apply Qmult_lt_compat_r; [reflexivity | exact H1].
        + discriminate. }
    rewrite Hfloor. reflexivity.
  - intros u Hu H1. unfold targetColorsOf.
    rewrite (pickColors_coarse Hu) by lia.
    assert (Hfloor : (1 <= Qfloor (u * inject_Z (4 - 1 + 1)))%Z).
    { change 1%Z with (Qfloor ((1 # 4) * inject_Z (4 - 1 + 1))).
      apply Qfloor_resp_le. apply Qmult_le_compat_r; [exact H1 | discriminate]. }
    simpl Z.of_nat. lia.
  - split; [|vm_compute; reflexivity].
    apply (@unitDouble_dyadic _ (2 ^ 52 - 1) (-52)); try reflexivity; lia.
Qed.

End GeneratorClaims.

(* ------------------------------------------------------------------ *)
(** * The daily challenge *)

Section DailyClaims.
Import Daily.

(** East of Greenwich, and at UTC, the seed is the date read as
    [YYYYMMDD]. *)
Lemma dateToSeed_east (utcOffsetMinutes : Z) (s : string) (d : CivilDate) :
  (0 <= utcOffsetMinutes)%Z -> parseIsoDate s = Some d ->
  dateToSeed utcOffsetMinutes s
  = Some (Z.of_nat (year d) * 10000 + Z.of_nat (month d) * 100
          + Z.of_nat (day d))%Z.
Proof.
  intros Hoff Hparse. unfold dateToSeed, localDateOf. rewrite Hparse.
  apply Z.ltb_ge in Hoff. rewrite Hoff. reflexivity.
Qed.

(** C8, at a failing input.  [new Date("2024-01-15")] is midnight UTC,
    and [getFullYear], [getMonth] and [getDate] read it in local time: in
    a zone five hours west of UTC the seed of "2024-01-15" is 20240114,
    one hour east of UTC it is 20240115, so two players whose local date
    is the same get different daily puzzles. *)
Theorem dateToSeed_west_of_utc :
  dateToSeed (-300) "2024-01-15" = Some 20240114%Z
  /\ dateToSeed 60 "2024-01-15" = Some 20240115%Z
  /\ getTodayDateString (mkDate 2024 1 15) = "2024-01-15"%string
  /\ dateToSeed (-300) (getTodayDateString (mkDate 2024 1 15))
     <> dateToSeed 60 (getTodayDateString (mkDate 2024 1 15)).
Proof.
  split; [vm_compute; reflexivity|]. split; [vm_compute; reflexivity|].
  split; [vm_compute; reflexivity|]. vm_compute. discriminate.
Qed.

(** The grid and the colour counts of the daily challenge: 8x8, seven to
    eleven colours with the 20-colour palette. *)
Lemma daily_color_counts :
  calculateColorCounts 8 8 20 = mkCounts 7 11 false.
Proof. reflexivity. Qed.

End DailyClaims.

(* ------------------------------------------------------------------ *)
(** * The retry loops *)

Section OrchestratorFacts.
Import Orchestrator Validator Props.

Variable hashOf : LevelData -> string.
Variable gen :
  nat -> nat -> nat -> Z -> Z -> option (list Generator.ColorPalette) ->
  option Z -> Outcome (option LevelData * bool).

Lemma uniqueLoop_step opts seeds limit remaining attempt :
  uniqueLoop hashOf gen opts seeds limit (S remaining) attempt
  = match callAt gen opts seeds attempt with
    | OutOfFuel => OutOfFuel
    | Threw => uniqueLoop hashOf gen opts seeds limit remaining (S attempt)
    | Returned (None, _) =>
        uniqueLoop hashOf gen opts seeds limit remaining (S attempt)
    | Returned (Some lv, _) =>
        if acceptable hashOf (existingHashes opts) lv then
          Returned {| level := Some lv; hash := Some (hashOf lv);
                      isUnique := true; attempts := attempt + 1 |}
        else uniqueLoop hashOf gen opts seeds limit remaining (S attempt)
    end.
Proof.
  unfold callAt, acceptable. simpl.
  destruct (gen attempt _ _ _ _ _ _) as [[[lv|] fb]| |]; try reflexivity.
  destruct (isValid (validateNumberlinkRules lv));
    destruct (truthy (hashOf lv));
    destruct (has (existingHashes opts) (hashOf lv)); reflexivity.
Qed.

(** A throw inside the loop is always caught. *)
Lemma uniqueLoop_never_throws opts seeds limit remaining attempt :
  uniqueLoop hashOf gen opts seeds limit remaining attempt <> Threw.
Proof.
  revert attempt. induction remaining as [|remaining IH]; intros attempt.
  - discriminate.
  - rewrite uniqueLoop_step.
    destruct (callAt gen opts seeds attempt) as [[[lv|] fb]| |];
      try apply IH; try discriminate.
    destruct (acceptable _ _ lv); [discriminate | apply IH].
Qed.

(** The loop returns as soon as the calls it makes do. *)
Lemma uniqueLoop_total opts seeds limit remaining attempt :
  (forall k, attempt <= k < attempt + remaining ->
             callAt gen opts seeds k <> OutOfFuel) ->
  exists r,
    uniqueLoop hashOf gen opts seeds limit remaining attempt = Returned r.
Proof.
  revert attempt. induction remaining as [|remaining IH]; intros attempt Hall.
  - eexists. reflexivity.
  - rewrite uniqueLoop_step.
    assert (Hrest : exists r,
      uniqueLoop hashOf gen opts seeds limit remaining (S attempt) = Returned r).
    { apply IH. intros k Hk. apply Hall. lia. }
    pose proof (Hall attempt ltac:(lia)) as Hfuel.
    destruct (callAt gen opts seeds attempt) as [[[lv|] fb]| |];
      auto; try congruence.
    destruct (acceptable _ _ lv); auto. eexists. reflexivity.
Qed.

(** The two shapes of a returned result. *)
Lemma uniqueLoop_returns opts seeds limit remaining attempt r :
  uniqueLoop hashOf gen opts seeds limit remaining attempt = Returned r ->
  (exists lv,
      level r = Some lv
      /\ acceptable hashOf (existingHashes opts) lv = true
      /\ hash r = Some (hashOf lv)
      /\ isUnique r = true
      /\ attempt < attempts r <= attempt + remaining)
  \/ r = failure limit.
Proof.
  revert attempt. induction remaining as [|remaining IH]; intros attempt Hrun.
  - right. simpl in Hrun. injection Hrun as <-. reflexivity.
  - rewrite uniqueLoop_step in Hrun.
    assert (Hnext :
      uniqueLoop hashOf gen opts seeds limit remaining (S attempt)
      = Returned r ->
      (exists lv,
          level r = Some lv
          /\ acceptable hashOf (existingHashes opts) lv = true
          /\ hash r = Some (hashOf lv)
          /\ isUnique r = true
          /\ attempt < attempts r <= attempt + S remaining)
      \/ r = failure limit).
    { intros H. destruct (IH _ H) as [(lv & H1 & H2 & H3 & H4 & H5)|]; auto.
      left. exists lv. repeat split; auto; lia. }
    destruct (callAt gen opts seeds attempt) as [[[lv|] fb]| |];
      auto; try discriminate.
    destruct (acceptable _ _ lv) eqn:Hacc; auto.
    injection Hrun as <-. left. exists lv. simpl. repeat split; auto; lia.
Qed.

(** When no attempt is accepted the loop runs to its bound. *)
Lemma uniqueLoop_exhausted opts seeds limit remaining attempt :
  (forall k, attempt <= k < attempt + remaining ->
             callAt gen opts seeds k <> OutOfFuel
             /\ ~ acceptsAt hashOf gen opts seeds k) ->
  uniqueLoop hashOf gen opts seeds limit remaining attempt
  = Returned (failure limit).
Proof.
  revert attempt. induction remaining as [|remaining IH]; intros attempt Hall.
  - reflexivity.
  - rewrite uniqueLoop_step.
    assert (Hrest :
      uniqueLoop hashOf gen opts seeds limit remaining (S attempt)
      = Returned (failure limit)).
    { apply IH. intros k Hk. apply Hall. lia. }
    destruct (Hall attempt ltac:(lia)) as [Hfuel Hrej].
    destruct (callAt gen opts seeds attempt) as [[[lv|] fb]| |] eqn:Hcall;
      auto; try congruence.
    destruct (acceptable _ _ lv) eqn:Hacc; auto.
    exfalso. apply Hrej. exists lv, fb. split; auto.
Qed.

(** Rejected candidates are passed over. *)
Lemma uniqueLoop_skip opts seeds limit k remaining attempt :
  (forall i, attempt <= i < attempt + k ->
             exists lv fb,
               callAt gen opts seeds i = Returned (Some lv, fb)
               /\ acceptable hashOf (existingHashes opts) lv = false) ->
  uniqueLoop hashOf gen opts seeds limit (k + remaining) attempt
  = uniqueLoop hashOf gen opts seeds limit remaining (attempt + k).
Proof.
  revert attempt. induction k as [|k IH]; intros attempt Hall.
  - simpl. f_equal. lia.
  - change (S k + remaining) with (S (k + remaining)).
    rewrite uniqueLoop_step.
    destruct (Hall attempt ltac:(lia)) as (lv & fb & Hcall & Hrej).
    rewrite Hcall, Hrej. rewrite IH.
    + f_equal. lia.
    + intros i Hi. apply Hall. lia.
Qed.

Lemma sync_unfold randomSeed opts :
  generateUniqueLevelSync hashOf gen randomSeed opts
  = (uniqueLoop hashOf gen opts (seedOf randomSeed opts) (limitOf opts)
       (limitOf opts) 0,
     existingHashes opts).
Proof. reflexivity. Qed.

Variable addHash : string -> list string -> list string.

(** [tryGenerate] does not touch the generation warning before it
    gives up, and then sets it only through [setGenerationWarning]. *)
Lemma giveUp_warning cb newLevel ui :
  (setGenerationWarning cb = true ->
   generationWarning (giveUp cb newLevel ui) <> None)
  /\ (setGenerationWarning cb = false ->
      generationWarning (giveUp cb newLevel ui) = generationWarning ui).
Proof.
  unfold giveUp. cbn [generationWarning].
  split; intros ->; [|reflexivity].
  destruct newLevel as [lv|];
    [destruct (setLevelValidationError cb && _)|]; discriminate.
Qed.

(** The [tryGenerate] loop when every candidate is rejected: the last
    one is handed over, with a warning when the caller passed
    [setGenerationWarning]. *)
Lemma tryGenerate_exhausted cb w h lo hi pal seen progressHashes cand :
  forall remaining attempts newLevel ui,
    attempts + remaining = 20 ->
    (forall k, attempts <= k < 20 ->
       exists fb,
         gen k w h lo hi pal None = Returned (Some (cand k), fb)
         /\ rejectedByStartLevel hashOf seen (cand k) = true) ->
    exists ui',
      tryGenerate hashOf gen addHash cb w h lo hi pal seen progressHashes
        remaining attempts newLevel ui = Returned ui'
      /\ levelData ui'
         = Some (match remaining with 0 => newLevel | S _ => Some (cand 19) end)
      /\ isGenerating ui' = false
      /\ (setGenerationWarning cb = true -> generationWarning ui' <> None)
      /\ (setGenerationWarning cb = false ->
          generationWarning ui' = generationWarning ui).
Proof.
  induction remaining as [|remaining IH]; intros attempts newLevel ui Hsum Hall.
  - eexists. split; [reflexivity|].
    destruct (giveUp_warning cb newLevel ui) as [Hw1 Hw2].
    repeat split; assumption.
  - destruct (Hall attempts ltac:(lia)) as (fb & Hcall & Hrej).
    cbn [tryGenerate]. rewrite Hcall. unfold rejectedByStartLevel in Hrej.
    assert (Hlast : remaining = 0 -> cand attempts = cand 19).
    { intros ->. f_equal. lia. }
    destruct (isValid (validateNumberlinkRules (cand attempts))) eqn:Hvalid;
      cbn [negb].
    + simpl in Hrej. rewrite Hrej. cbn [negb].
      destruct (IH (S attempts) (Some (cand attempts)) ui ltac:(lia))
        as (ui' & Hrun & Hdata & Hgen & Hw1 & Hw2).
      { intros k Hk. apply Hall. lia. }
      exists ui'. rewrite Hrun. repeat split; auto.
      rewrite Hdata. destruct remaining; auto. rewrite Hlast; auto.
    + match goal with
      | |- context [tryGenerate _ _ _ _ _ _ _ _ _ _ _ _ _ _ ?u] =>
          destruct (IH (S attempts) (Some (cand attempts)) u ltac:(lia))
            as (ui' & Hrun & Hdata & Hgen & Hw1 & Hw2)
      end.
      { intros k Hk. apply Hall. lia. }
      exists ui'. rewrite Hrun. repeat split; auto.
      rewrite Hdata. destruct remaining; auto. rewrite Hlast; auto.
Qed.

End OrchestratorFacts.

Section RealGenerator.
Import Orchestrator.

(** On the model of [generateLevel] the calls of the loops return or
    throw. *)
Lemma callGenerator_has_fuel mulberry32 mathRandomAt k w h lo hi pal seed :
  Prng.wellFormed (Generator.randomOf mulberry32 (mathRandomAt k) seed) ->
  callGenerator mulberry32 mathRandomAt k w h lo hi pal seed <> OutOfFuel.
Proof.
  intros Hwf. unfold callGenerator.
  pose proof (@generateLevel_has_fuel mulberry32 (mathRandomAt k) w h lo hi
                pal seed None Hwf) as Hfuel.
  destruct (Generator.generateLevel _ _ _ _ _ _ _ _ _); congruence.
Qed.

End RealGenerator.

Section OrchestratorClaims.
Import Orchestrator Validator Props.

(** C10.  [generateUniqueLevelSync] returns a level only when that level
    passes [validateNumberlinkRules] and its fingerprint is not in
    [existingHashes]; then [isUnique] is true, [hash] is the level's
    fingerprint and [attempts] is at most the bound.  Every other result
    has [level = null], [hash = null], [isUnique = false] and [attempts]
    equal to the bound.  The set object is left as it was. *)
Theorem generateUniqueLevelSync_result_shape
    (hashOf : LevelData -> string)
    (gen : nat -> nat -> nat -> Z -> Z ->
           option (list Generator.ColorPalette) -> option Z ->
           Outcome (option LevelData * bool))
    (randomSeed : nat -> Z) (opts : GenerateUniqueLevelOptions) :
  (forall k, k < limitOf opts ->
             callAt gen opts (seedOf randomSeed opts) k <> OutOfFuel) ->
  exists r,
    fst (generateUniqueLevelSync hashOf gen randomSeed opts) = Returned r
    /\ ((exists lv,
            level r = Some lv
            /\ isValid (validateNumberlinkRules lv) = true
            /\ has (existingHashes opts) (hashOf lv) = false
            /\ isUnique r = true
            /\ hash r = Some (hashOf lv)
            /\ attempts r <= limitOf opts)
        \/ (level r = None /\ hash r = None /\ isUnique r = false
            /\ attempts r = limitOf opts))
    /\ snd (generateUniqueLevelSync hashOf gen randomSeed opts)
       = existingHashes opts.
Proof.
  intros Hfuel. rewrite sync_unfold. cbn [fst snd].
  destruct (@uniqueLoop_total hashOf gen opts (seedOf randomSeed opts)
              (limitOf opts) (limitOf opts) 0) as [r Hr].
  { intros k Hk. apply Hfuel. lia. }
  exists r. split; [exact Hr|]. split; [|reflexivity].
  destruct (@uniqueLoop_returns _ _ _ _ _ _ _ _ Hr)
    as [(lv & Hlv & Hacc & Hhash & Huniq & Hatt)| ->].
  - left. exists lv. unfold acceptable in Hacc.
    apply andb_prop in Hacc as [Hacc Hnew].
    apply andb_prop in Hacc as [Hvalid _].
    apply negb_true_iff in Hnew.
    repeat split; auto. lia.
  - right. repeat split.
Qed.

Lemma generateUniqueLevelSync_result_shape_witness :
  (forall k, k < limitOf (Samples.request ["F"%string] 5) ->
     callAt (Samples.row3Then4 1) (Samples.request ["F"%string] 5)
       (seedOf Samples.seedOfAttempt (Samples.request ["F"%string] 5)) k
     <> OutOfFuel)
  /\ exists r,
      fst (generateUniqueLevelSync Samples.hashByWidth (Samples.row3Then4 1)
             Samples.seedOfAttempt (Samples.request ["F"%string] 5))
      = Returned r
      /\ ((exists lv,
              level r = Some lv
              /\ isValid (validateNumberlinkRules lv) = true
              /\ has (existingHashes (Samples.request ["F"%string] 5))
                     (Samples.hashByWidth lv) = false
              /\ isUnique r = true
              /\ hash r = Some (Samples.hashByWidth lv)
              /\ attempts r <= limitOf (Samples.request ["F"%string] 5))
          \/ (level r = None /\ hash r = None /\ isUnique r = false
              /\ attempts r = limitOf (Samples.request ["F"%string] 5)))
      /\ snd (generateUniqueLevelSync Samples.hashByWidth
                (Samples.row3Then4 1) Samples.seedOfAttempt
                (Samples.request ["F"%string] 5))
         = existingHashes (Samples.request ["F"%string] 5).
Proof.
  assert (H : forall k, k < limitOf (Samples.request ["F"%string] 5) ->
     callAt (Samples.row3Then4 1) (Samples.request ["F"%string] 5)
       (seedOf Samples.seedOfAttempt (Samples.request ["F"%string] 5)) k
     <> OutOfFuel).
  { intros k _. unfold callAt, Samples.row3Then4.
    destruct (k <? 1); discriminate. }
  split; [exact H|].
  exact (@generateUniqueLevelSync_result_shape Samples.hashByWidth
           (Samples.row3Then4 1) Samples.seedOfAttempt
           (Samples.request ["F"%string] 5) H).
Defined.

(** C3, amended.  With [F] in the seen-set, when the first [k] calls
    (k below the bound) yield valid puzzles with fingerprint [F] and the
    next call a valid puzzle whose fingerprint [G] is non-empty and not in
    the seen-set, [generateUniqueLevelSync] returns that puzzle with
    [isUnique = true] and [attempts = k + 1]; a returned level never has
    fingerprint [F]. *)
Theorem generateUniqueLevelSync_skips_seen
    (hashOf : LevelData -> string)
    (gen : nat -> nat -> nat -> Z -> Z ->
           option (list Generator.ColorPalette) -> option Z ->
           Outcome (option LevelData * bool))
    (randomSeed : nat -> Z) (opts : GenerateUniqueLevelOptions)
    (F G : string) (k : nat) (candidate : LevelData) (fallback : bool) :
  has (existingHashes opts) F = true ->
  k < limitOf opts ->
  (forall i, i < k ->
     exists lv fb,
       callAt gen opts (seedOf randomSeed opts) i = Returned (Some lv, fb)
       /\ isValid (validateNumberlinkRules lv) = true
       /\ hashOf lv = F) ->
  callAt gen opts (seedOf randomSeed opts) k
  = Returned (Some candidate, fallback) ->
  isValid (validateNumberlinkRules candidate) = true ->
  hashOf candidate = G ->
  G <> EmptyString ->
  has (existingHashes opts) G = false ->
  fst (generateUniqueLevelSync hashOf gen randomSeed opts)
  = Returned {| level := Some candidate; hash := Some G; isUnique := true;
                attempts := k + 1 |}
  /\ forall r lv,
       fst (generateUniqueLevelSync hashOf gen randomSeed opts) = Returned r ->
       level r = Some lv -> hashOf lv <> F.
Proof.
  intros HF Hk Hfirst Hcall Hvalid HG Hnonempty Hnew.
  assert (Hrun :
    fst (generateUniqueLevelSync hashOf gen randomSeed opts)
    = Returned {| level := Some candidate; hash := Some G; isUnique := true;
                  attempts := k + 1 |}).
  { rewrite sync_unfold. cbn [fst].
    replace (limitOf opts) with (k + S (limitOf opts - S k)) at 2 by lia.
    rewrite uniqueLoop_skip.
    - rewrite uniqueLoop_step. cbn [Nat.add]. rewrite Hcall.
      unfold acceptable. rewrite Hvalid, HG, Hnew.
      assert (Ht : truthy G = true).
      { unfold truthy. apply negb_true_iff. apply String.eqb_neq. exact Hnonempty. }
      rewrite Ht. reflexivity.
    - intros i Hi. destruct (Hfirst i ltac:(lia)) as (lv & fb & Hc & Hv & Hh).
      exists lv, fb. split; [exact Hc|].
      unfold acceptable. rewrite Hh, HF, Hv.
      destruct (truthy F); reflexivity. }
  split; [exact Hrun|].
  intros r lv Hr Hlv Heq. rewrite Hrun in Hr. injection Hr as <-.
  simpl in Hlv. injection Hlv as <-. rewrite HG in Heq. subst G. congruence.
Qed.

Lemma generateUniqueLevelSync_skips_seen_witness :
  has (existingHashes (Samples.request ["F"%string] 5)) "F" = true
  /\ 2 < limitOf (Samples.request ["F"%string] 5)
  /\ fst (generateUniqueLevelSync Samples.hashByWidth (Samples.row3Then4 2)
            Samples.seedOfAttempt (Samples.request ["F"%string] 5))
     = Returned {| level := Some Samples.row4; hash := Some "G"%string;
                   isUnique := true; attempts := 3 |}.
Proof.
  split; [reflexivity|]. split; [vm_compute; lia|].
  refine (proj1 (@generateUniqueLevelSync_skips_seen Samples.hashByWidth
            (Samples.row3Then4 2) Samples.seedOfAttempt
            (Samples.request ["F"%string] 5) "F"%string "G"%string 2
            Samples.row4 false _ _ _ _ _ _ _ _)).
  - reflexivity.
  - vm_compute; lia.
  - intros i Hi. exists Samples.row3, false.
    destruct i as [|[|i]]; [split; [reflexivity|split; reflexivity]..|lia].
  - reflexivity.
  - reflexivity.
  - reflexivity.
  - discriminate.
  - reflexivity.
Defined.

(** C3 as stated fails: a fingerprint [G] distinct from [F] is still
    refused when it is itself in the seen-set, or when it is the empty
    string. *)
Lemma generateUniqueLevelSync_distinct_not_enough :
  (has ["F"; "G"]%string "F" = true
   /\ Samples.row3Then4 1 0 3 1 1%Z 1%Z None (Some 1%Z)
      = Returned (Some Samples.row3, false)
   /\ Samples.row3Then4 1 1 3 1 1%Z 1%Z None (Some 2%Z)
      = Returned (Some Samples.row4, false)
   /\ isValid (validateNumberlinkRules Samples.row3) = true
   /\ isValid (validateNumberlinkRules Samples.row4) = true
   /\ Samples.hashByWidth Samples.row3 = "F"%string
   /\ Samples.hashByWidth Samples.row4 = "G"%string
   /\ fst (generateUniqueLevelSync Samples.hashByWidth (Samples.row3Then4 1)
             Samples.seedOfAttempt (Samples.request ["F"; "G"]%string 2))
      = Returned {| level := None; hash := None; isUnique := false;
                    attempts := 2 |})
  /\ (Samples.hashOrEmpty Samples.row3 = "F"%string
      /\ Samples.hashOrEmpty Samples.row4 = EmptyString
      /\ fst (generateUniqueLevelSync Samples.hashOrEmpty
                (Samples.row3Then4 1) Samples.seedOfAttempt
                (Samples.request ["F"%string] 2))
         = Returned {| level := None; hash := None; isUnique := false;
                       attempts := 2 |}).
Proof. repeat split. Qed.

(** C1, amended.  When no attempt of [generateUniqueLevelSync] yields a
    valid candidate with a new fingerprint, it returns [level = null],
    [hash = null], [isUnique = false] and [attempts] equal to the bound;
    it never throws.  The loop of [startLevel] is the one that, after 20
    rejected candidates, hands the last of them to [setLevelData]; it
    issues a generation warning when the caller passed
    [setGenerationWarning], and none otherwise. *)
Theorem exhaustion_policy
    (hashOf : LevelData -> string)
    (gen : nat -> nat -> nat -> Z -> Z ->
           option (list Generator.ColorPalette) -> option Z ->
           Outcome (option LevelData * bool))
    (randomSeed : nat -> Z) (addHash : string -> list string -> list string)
    (cb : Callbacks)
    (opts : GenerateUniqueLevelOptions) (progressHashes : list string)
    (cand : nat -> LevelData) :
  (forall k, k < limitOf opts ->
     callAt gen opts (seedOf randomSeed opts) k <> OutOfFuel
     /\ ~ acceptsAt hashOf gen opts (seedOf randomSeed opts) k) ->
  (forall k, k < 20 ->
     exists fb,
       gen k (o_width opts) (o_height opts) (minC opts) (maxC opts)
         (palette opts) None = Returned (Some (cand k), fb)
       /\ rejectedByStartLevel hashOf (existingHashes opts) (cand k) = true) ->
  fst (generateUniqueLevelSync hashOf gen randomSeed opts)
  = Returned {| level := None; hash := None; isUnique := false;
                attempts := limitOf opts |}
  /\ (forall request,
        fst (generateUniqueLevelSync hashOf gen randomSeed request) <> Threw)
  /\ exists ui,
       startLevelLoop hashOf gen addHash cb (o_width opts) (o_height opts)
         (minC opts) (maxC opts) (palette opts) (existingHashes opts)
         progressHashes = Returned ui
       /\ levelData ui = Some (Some (cand 19))
       /\ isGenerating ui = false
       /\ (setGenerationWarning cb = true -> generationWarning ui <> None)
       /\ (setGenerationWarning cb = false -> generationWarning ui = None).
Proof.
  intros Hsync Hstart. split; [|split].
  - rewrite sync_unfold. cbn [fst]. apply uniqueLoop_exhausted.
    intros k Hk. apply Hsync. lia.
  - intros request. rewrite sync_unfold. cbn [fst].
    apply uniqueLoop_never_throws.
  - unfold startLevelLoop.
    destruct (@tryGenerate_exhausted hashOf gen addHash cb (o_width opts)
                (o_height opts) (minC opts) (maxC opts) (palette opts)
                (existingHashes opts) progressHashes cand 20 0 None
                (loading progressHashes) eq_refl)
      as (ui & Hrun & Hdata & Hgen & Hw1 & Hw2).
    + intros k Hk. apply Hstart. lia.
    + exists ui. auto.
Qed.

Lemma exhaustion_policy_witness :
  fst (generateUniqueLevelSync Samples.hashByWidth Samples.alwaysRow3
         Samples.seedOfAttempt (Samples.request ["F"%string] 3))
  = Returned {| level := None; hash := None; isUnique := false;
                attempts := 3 |}
  /\ (exists ui,
        startLevelLoop Samples.hashByWidth Samples.alwaysRow3
          Samples.appendHash Samples.boardCallbacks 3 1 1%Z 1%Z None
          ["F"%string] []
        = Returned ui
        /\ levelData ui = Some (Some Samples.row3)
        /\ isGenerating ui = false
        /\ generationWarning ui <> None)
  /\ (exists ui,
        startLevelLoop Samples.hashByWidth Samples.alwaysRow3
          Samples.appendHash Samples.modalCallbacks 3 1 1%Z 1%Z None
          ["F"%string] []
        = Returned ui
        /\ levelData ui = Some (Some Samples.row3)
        /\ isGenerating ui = false
        /\ generationWarning ui = None).
Proof.
  assert (Hsync : forall k, k < limitOf (Samples.request ["F"%string] 3) ->
     callAt Samples.alwaysRow3 (Samples.request ["F"%string] 3)
       (seedOf Samples.seedOfAttempt (Samples.request ["F"%string] 3)) k
     <> OutOfFuel
     /\ ~ acceptsAt Samples.hashByWidth Samples.alwaysRow3
            (Samples.request ["F"%string] 3)
            (seedOf Samples.seedOfAttempt (Samples.request ["F"%string] 3)) k).
  { intros k _. split; [discriminate|].
    intros (lv & fb & Hcall & Hacc).
    unfold callAt, Samples.alwaysRow3 in Hcall.
    injection Hcall as <- _. vm_compute in Hacc. discriminate. }
  assert (Hstart : forall k, k < 20 ->
     exists fb,
       Samples.alwaysRow3 k (o_width (Samples.request ["F"%string] 3))
         (o_height (Samples.request ["F"%string] 3))
         (minC (Samples.request ["F"%string] 3))
         (maxC (Samples.request ["F"%string] 3))
         (palette (Samples.request ["F"%string] 3)) None
       = Returned (Some ((fun _ => Samples.row3) k), fb)
       /\ rejectedByStartLevel Samples.hashByWidth
            (existingHashes (Samples.request ["F"%string] 3))
            ((fun _ => Samples.row3) k) = true).
  { intros k _. exists false. split; reflexivity. }
  destruct (@exhaustion_policy Samples.hashByWidth Samples.alwaysRow3
              Samples.seedOfAttempt Samples.appendHash Samples.boardCallbacks
              (Samples.request ["F"%string] 3) [] (fun _ => Samples.row3)
              Hsync Hstart)
    as (H1 & _ & (ui & Hrun & Hdata & Hgen & Hw & _)).
  destruct (@exhaustion_policy Samples.hashByWidth Samples.alwaysRow3
              Samples.seedOfAttempt Samples.appendHash Samples.modalCallbacks
              (Samples.request ["F"%string] 3) [] (fun _ => Samples.row3)
              Hsync Hstart)
    as (_ & _ & (ui' & Hrun' & Hdata' & Hgen' & _ & Hw')).
  split; [exact H1|]. split.
  - exists ui. repeat split; auto.
  - exists ui'. repeat split; auto.
Defined.

(** C1 as stated fails: the one candidate generated is valid but already
    seen, and the result carries no level at all. *)
Lemma generateUniqueLevelSync_drops_last_candidate :
  Samples.alwaysRow3 0 3 1 1%Z 1%Z None (Some 1%Z)
  = Returned (Some Samples.row3, false)
  /\ isValid (validateNumberlinkRules Samples.row3) = true
  /\ has ["F"%string] (Samples.hashByWidth Samples.row3) = true
  /\ fst (generateUniqueLevelSync Samples.hashByWidth Samples.alwaysRow3
            Samples.seedOfAttempt (Samples.request ["F"%string] 1))
     = Returned {| level := None; hash := None; isUnique := false;
                   attempts := 1 |}.
Proof. repeat split. Qed.

End OrchestratorClaims.
(* ------------------------------------------------------------------ *)
(** * Further properties of the validator *)

Section ValidatorExtras.
Import Validator Props GenProps.

Lemma NoDup_path_of_allCells (ps : list PathEntry) (p : PathEntry) :
  NoDup (allCells ps) -> In p ps -> NoDup (path p).
Proof.
  unfold allCells. induction ps as [|q ps IH]; intros Hnd; [intros []|].
  simpl in Hnd. intros [->|Hp].
  - exact (NoDup_app_remove_r _ _ Hnd).
  - apply IH; [exact (NoDup_app_remove_l _ _ Hnd) | exact Hp].
Qed.

Lemma checkUTurnPath_NoDup (p : PathEntry) :
  NoDup (path p) -> checkUTurnPath p = None.
Proof.
  intros Hnd. unfold checkUTurnPath. apply firstError_None.
  intros i Hi. apply in_seq in Hi. unfold checkUTurnAt.
  destruct (nth (i - 1) (path p) 0 =? nth (i + 1) (path p) 0) eqn:Heq;
    [|reflexivity].
  apply Nat.eqb_eq in Heq. exfalso.
  assert (Hidx : i - 1 = i + 1).
  { apply (proj1 (NoDup_nth (path p) 0) Hnd); [lia | lia | exact Heq]. }
  lia.
Qed.

Lemma checkColor_errors (paths : list PathEntry) (entry : nat * list nat) e :
  checkColor paths entry = Some e ->
  e = NotTwoAnchors (fst entry) \/ e = NoValidPath (fst entry)
  \/ e = AnchorsNotAtEndpoints (fst entry) \/ e = SameStartEnd (fst entry)
  \/ e = AnchorInMiddle (fst entry).
Proof.
  unfold checkColor.
  destruct (negb (length (snd entry) =? 2)); [intros [= <-]; auto|].
  destruct (find _ paths) as [p|]; [|intros [= <-]; auto].
  destruct (length (path p) <? 2); [intros [= <-]; auto|].
  destruct (negb _ || negb _); [intros [= <-]; auto|].
  destruct (pathStart (path p) =? pathEnd (path p)); [intros [= <-]; auto 6|].
  destruct (existsb _ _); [intros [= <-]; auto 6 | discriminate].
Qed.

(** X1.  The validator never reports a U-turn: a path with
    [path\[i - 1\] = path\[i + 1\]] uses a cell twice, and the overlap
    rule, which is tried earlier, rejects it first.  Rule 5 can never
    decide the verdict. *)
Theorem validator_never_reports_u_turn (lv : LevelData) (c cell : nat) :
  error (validateNumberlinkRules lv) <> Some (UTurn c cell).
Proof.
  rewrite error_is_firstViolation. unfold firstViolation.
  destruct (solvedPaths lv) as [|first others] eqn:Hps; [discriminate|].
  destruct (checkAnchors lv) as [e|] eqn:Hanchors.
  - unfold checkAnchors in Hanchors.
    destruct (firstError_Some _ _ Hanchors) as (b & x & a & _ & _ & Hx).
    destruct (checkColor_errors _ _ Hx) as [->|[->|[->|[->| ->]]]];
      discriminate.
  - destruct (checkOverlap lv) as [e|] eqn:Hoverlap.
    + unfold checkOverlap in Hoverlap.
      destruct (overlapPaths_Some _ _ Hoverlap) as (x & l1 & l2 & -> & _).
      discriminate.
    + destruct (checkFilled lv) as [e|] eqn:Hfilled.
      * unfold checkFilled in Hfilled.
        destruct (negb _); [injection Hfilled as <-|]; discriminate.
      * destruct (checkBranching lv) as [e|] eqn:Hbranch.
        -- unfold checkBranching in Hbranch.
           destruct (firstError_Some _ _ Hbranch) as (b & p & a & _ & _ & Hp).
           destruct (checkBranchPath_Some _ _ _ Hp) as [->|[x ->]];
             discriminate.
        -- apply checkOverlap_None in Hoverlap.
           assert (Hnone : checkUTurns lv = None).
           { unfold checkUTurns. apply firstError_None. intros p Hp.
             apply checkUTurnPath_NoDup.
             exact (@NoDup_path_of_allCells _ _ Hoverlap Hp). }
           rewrite Hnone. discriminate.
Qed.

(** X2.  What the anchor rules certify.  In a level the validator
    accepts, every colour that has an anchor has exactly two, and the
    first path of that colour has at least two cells, starts on one of
    the two anchors and ends on the other, and has no anchor of its
    colour on a cell in between. *)
Theorem validator_anchors_are_path_ends (lv : LevelData) (cell color : nat) :
  isValid (validateNumberlinkRules lv) = true ->
  In (cell, color) (anchors lv) ->
  exists p a b,
    find (fun q => colorId q =? color) (solvedPaths lv) = Some p
    /\ cellsOf color (anchors lv) = [a; b]
    /\ 2 <= length (path p)
    /\ pathStart (path p) <> pathEnd (path p)
    /\ ((pathStart (path p) = a /\ pathEnd (path p) = b)
        \/ (pathStart (path p) = b /\ pathEnd (path p) = a))
    /\ (forall m, In m (middle (path p)) -> m <> a /\ m <> b).
Proof.
  intros Hvalid Hin. apply valid_iff, firstViolation_None in Hvalid.
  destruct Hvalid as (_ & Hanchors & _).
  unfold checkAnchors in Hanchors. rewrite firstError_None in Hanchors.
  assert (Hcells : In cell (cellsOf color (anchors lv))).
  { unfold cellsOf. apply in_map_iff. exists (cell, color). split; auto.
    apply filter_In. split; [exact Hin | apply Nat.eqb_refl]. }
  pose proof (lookup_groupAnchors color (anchors lv)) as Hgroup.
  destruct (cellsOf color (anchors lv)) as [|a rest] eqn:Hc; [destruct Hcells|].
  apply lookup_In in Hgroup. specialize (Hanchors _ Hgroup).
  unfold checkColor in Hanchors. cbn [fst snd] in Hanchors.
  destruct (length (a :: rest) =? 2) eqn:Hlen; [|discriminate].
  apply Nat.eqb_eq in Hlen. cbn [negb] in Hanchors.
  destruct rest as [|b [|x rest]]; try discriminate.
  destruct (find _ (solvedPaths lv)) as [p|]; [|discriminate].
  destruct (length (path p) <? 2) eqn:Hshort; [discriminate|].
  apply Nat.ltb_ge in Hshort.
  destruct (negb (includes [a; b] (pathStart (path p)))
            || negb (includes [a; b] (pathEnd (path p)))) eqn:Hends;
    [discriminate|].
  apply orb_false_iff in Hends as [Hs He].
  apply negb_false_iff, includes_In in Hs.
  apply negb_false_iff, includes_In in He.
  destruct (pathStart (path p) =? pathEnd (path p)) eqn:Hsame; [discriminate|].
  apply Nat.eqb_neq in Hsame.
  destruct (existsb (includes [a; b]) (middle (path p))) eqn:Hmid;
    [discriminate|].
  exists p, a, b. repeat split; auto.
  - simpl in Hs, He. intuition congruence.
  - intros ->. assert (Hex : existsb (includes [a; b]) (middle (path p)) = true).
    { apply existsb_exists. exists a. split; [assumption|].
      apply includes_In. now left. }
    congruence.
  - intros ->. assert (Hex : existsb (includes [a; b]) (middle (path p)) = true).
    { apply existsb_exists. exists b. split; [assumption|].
      apply includes_In. right. now left. }
    congruence.
Qed.

Lemma validator_anchors_are_path_ends_witness :
  isValid (validateNumberlinkRules Samples.row3) = true
  /\ In (2, 0) (anchors Samples.row3)
  /\ exists p a b,
       find (fun q => colorId q =? 0) (solvedPaths Samples.row3) = Some p
       /\ cellsOf 0 (anchors Samples.row3) = [a; b]
       /\ 2 <= length (path p)
       /\ pathStart (path p) <> pathEnd (path p)
       /\ ((pathStart (path p) = a /\ pathEnd (path p) = b)
           \/ (pathStart (path p) = b /\ pathEnd (path p) = a))
       /\ (forall m, In m (middle (path p)) -> m <> a /\ m <> b).
Proof.
  assert (H1 : isValid (validateNumberlinkRules Samples.row3) = true)
    by reflexivity.
  assert (H2 : In (2, 0) (anchors Samples.row3))
    by (right; left; reflexivity).
  split; [exact H1|]. split; [exact H2|].
  exact (@validator_anchors_are_path_ends Samples.row3 2 0 H1 H2).
Defined.

End ValidatorExtras.
(* ------------------------------------------------------------------ *)
(** * Grid utilities *)

Section GridExtras.
Import Grid.

Lemma row_col (w q c : nat) :
  c < w -> (w * q + c) / w = q /\ (w * q + c) mod w = c.
Proof.
  intros Hc.
  assert (Hw : w <> 0) by lia.
  pose proof (Nat.div_mod_eq (w * q + c) w) as Heq.
  pose proof (Nat.mod_upper_bound (w * q + c) w Hw) as Hlt.
  exact (Nat.div_mod_unique w ((w * q + c) / w) q ((w * q + c) mod w) c
           Hlt Hc (eq_sym Heq)).
Qed.

Lemma cell_coordinates (idx w h : nat) :
  idx < w * h ->
  exists q c, idx = w * q + c /\ c < w /\ q < h.
Proof.
  intros Hidx.
  assert (Hw : w <> 0) by (intros ->; simpl in Hidx; lia).
  exists (idx / w), (idx mod w).
  pose proof (Nat.div_mod_eq idx w) as Heq.
  pose proof (Nat.mod_upper_bound idx w Hw) as Hlt.
  repeat split; auto.
  apply Nat.Div0.div_lt_upper_bound. exact Hidx.
Qed.

Lemma getNeighbors_at (w h q c : nat) :
  c < w ->
  getNeighbors (w * q + c) w h
  = (if 0 <? q then [w * q + c - w] else []) ++
    (if q <? h - 1 then [w * q + c + w] else []) ++
    (if 0 <? c then [w * q + c - 1] else []) ++
    (if c <? w - 1 then [w * q + c + 1] else []).
Proof.
  intros Hc. unfold getNeighbors.
  destruct (@row_col w q c Hc) as [-> ->].
  destruct (w =? 0) eqn:Hw; [apply Nat.eqb_eq in Hw; lia | reflexivity].
Qed.

Lemma areAdjacent_at (w q1 c1 q2 c2 : nat) :
  c1 < w -> c2 < w ->
  areAdjacent (w * q1 + c1) (w * q2 + c2) w
  = (absDiff q1 q2 + absDiff c1 c2 =? 1).
Proof.
  intros H1 H2. unfold areAdjacent.
  destruct (@row_col w q1 c1 H1) as [-> ->].
  destruct (@row_col w q2 c2 H2) as [-> ->].
  destruct (w =? 0) eqn:Hw; [apply Nat.eqb_eq in Hw; lia | reflexivity].
Qed.

Lemma getNeighbors_spec (idx n w h : nat) :
  idx < w * h ->
  (In n (getNeighbors idx w h)
   <-> n < w * h /\ areAdjacent idx n w = true)
  /\ NoDup (getNeighbors idx w h).
Proof.
  intros Hidx.
  destruct (@cell_coordinates _ _ _ Hidx) as (q & c & -> & Hc & Hq).
  rewrite (@getNeighbors_at w h q c Hc). split; [split|].
  - intros Hin.
    assert (Hcases :
      (0 < q /\ n = w * (q - 1) + c) \/ (q < h - 1 /\ n = w * (q + 1) + c)
      \/ (0 < c /\ n = w * q + (c - 1)) \/ (c < w - 1 /\ n = w * q + (c + 1))).
    { rewrite !in_app_iff in Hin.
      destruct Hin as [Hin|[Hin|[Hin|Hin]]].
      - destruct (0 <? q) eqn:H; [|destruct Hin].
        apply Nat.ltb_lt in H. destruct Hin as [<-|[]]. left. split; nia.
      - destruct (q <? h - 1) eqn:H; [|destruct Hin].
        apply Nat.ltb_lt in H. destruct Hin as [<-|[]]. right; left. split; nia.
      - destruct (0 <? c) eqn:H; [|destruct Hin].
        apply Nat.ltb_lt in H. destruct Hin as [<-|[]].
        right; right; left. split; lia.
      - destruct (c <? w - 1) eqn:H; [|destruct Hin].
        apply Nat.ltb_lt in H. destruct Hin as [<-|[]].
        right; right; right. split; lia. }
    destruct Hcases as [[H ->]|[[H ->]|[[H ->]|[H ->]]]].
    + split; [nia|]. rewrite areAdjacent_at by lia.
      apply Nat.eqb_eq. unfold absDiff. lia.
    + split; [nia|]. rewrite areAdjacent_at by lia.
      apply Nat.eqb_eq. unfold absDiff. lia.
    + split; [nia|]. rewrite areAdjacent_at by lia.
      apply Nat.eqb_eq. unfold absDiff. lia.
    + split; [nia|]. rewrite areAdjacent_at by lia.
      apply Nat.eqb_eq. unfold absDiff. lia.
  - intros [Hn Hadj].
    destruct (@cell_coordinates _ _ _ Hn) as (q' & c' & -> & Hc' & Hq').
    rewrite areAdjacent_at in Hadj by assumption.
    apply Nat.eqb_eq in Hadj. unfold absDiff in Hadj.
    rewrite !in_app_iff.
    assert (Hcases :
      (q' + 1 = q /\ c' = c) \/ (q' = q + 1 /\ c' = c)
      \/ (q' = q /\ c' + 1 = c) \/ (q' = q /\ c' = c + 1)) by lia.
    destruct Hcases as [[H ->]|[[-> ->]|[[-> H]|[-> ->]]]].
    + left. subst q. replace (0 <? q' + 1) with true
        by (symmetry; apply Nat.ltb_lt; lia).
      left. nia.
    + right; left. replace (q <? h - 1) with true
        by (symmetry; apply Nat.ltb_lt; lia).
      left. nia.
    + right; right; left. subst c. replace (0 <? c' + 1) with true
        by (symmetry; apply Nat.ltb_lt; lia).
      left. lia.
    + right; right; right. replace (c <? w - 1) with true
        by (symmetry; apply Nat.ltb_lt; lia).
      left. lia.
  - assert (Hw : 0 < w) by lia.
    destruct (Nat.ltb_spec 0 q); destruct (Nat.ltb_spec q (h - 1));
      destruct (Nat.ltb_spec 0 c); destruct (Nat.ltb_spec c (w - 1));
      cbn [app];
      repeat (apply NoDup_cons; [cbn [In]; nia|]); apply NoDup_nil.
Qed.


Lemma getNeighbors_sym (a b w h : nat) :
  a < w * h -> In b (getNeighbors a w h) -> In a (getNeighbors b w h).
Proof.
  intros Ha Hin.
  apply (proj1 (@getNeighbors_spec a b w h Ha)) in Hin as [Hb Hadj].
  apply (proj1 (@getNeighbors_spec b a w h Hb)). split; [exact Ha|].
  unfold areAdjacent in *. destruct (w =? 0); [discriminate|].
  unfold absDiff in *. apply Nat.eqb_eq in Hadj. apply Nat.eqb_eq. lia.
Qed.

Lemma getNeighbors_irrefl (a w h : nat) :
  a < w * h -> ~ In a (getNeighbors a w h).
Proof.
  intros Ha Hin.
  apply (proj1 (@getNeighbors_spec a a w h Ha)) in Hin as [_ Hadj].
  unfold areAdjacent in Hadj. destruct (w =? 0); [discriminate|].
  unfold absDiff in Hadj. apply Nat.eqb_eq in Hadj. lia.
Qed.

(** X3.  For a cell of the grid, [getNeighbors] returns exactly the
    cells of the grid at Manhattan distance 1 (those [areAdjacent]
    accepts), each once; so being a neighbour is symmetric, and no cell
    is its own neighbour. *)
Theorem getNeighbors_are_the_adjacent_cells (idx n w h : nat) :
  idx < w * h ->
  (In n (getNeighbors idx w h)
   <-> n < w * h /\ areAdjacent idx n w = true)
  /\ NoDup (getNeighbors idx w h)
  /\ (In n (getNeighbors idx w h) -> In idx (getNeighbors n w h))
  /\ ~ In idx (getNeighbors idx w h).
Proof.
  intros Hidx. destruct (@getNeighbors_spec idx n w h Hidx) as [H1 H2].
  repeat split; try apply H1; auto.
  - apply getNeighbors_sym. exact Hidx.
  - apply getNeighbors_irrefl. exact Hidx.
Qed.

Lemma getNeighbors_are_the_adjacent_cells_witness :
  4 < 3 * 3
  /\ (In 1 (getNeighbors 4 3 3) <-> 1 < 3 * 3 /\ areAdjacent 4 1 3 = true)
  /\ NoDup (getNeighbors 4 3 3).
Proof.
  assert (H : 4 < 3 * 3) by (simpl; lia).
  destruct (@getNeighbors_are_the_adjacent_cells 4 1 3 3 H) as (H1 & H2 & _).
  repeat split; try apply H1; auto.
Defined.

End GridExtras.
(* ------------------------------------------------------------------ *)
(** * The paths of the primary generator are simple chains *)

Section ChainFacts.
Import Grid Prng Generator Props GenProps.

Variable random : Rng.
Hypothesis random_ok : wellFormed random.
Variables w h : nat.

Lemma pathEnd_snoc (p : list nat) (x : nat) : pathEnd (p ++ [x]) = x.
Proof.
  unfold pathEnd. rewrite length_app. simpl.
  rewrite app_nth2 by lia.
  replace (length p + 1 - 1 - length p) with 0 by lia. reflexivity.
Qed.

Lemma hasColor_setNth_same (g : list Z) (c k : nat) :
  c < length g -> hasColor (setNth c (Z.of_nat k) g) c k = true.
Proof.
  intros Hc. unfold hasColor. rewrite nth_error_setNth_same by exact Hc.
  apply Z.eqb_refl.
Qed.

Lemma hasColor_setNth_other (g : list Z) (c x k : nat) (v : Z) :
  x <> c -> hasColor (setNth x v g) c k = hasColor g c k.
Proof.
  intros Hne. unfold hasColor. rewrite nth_error_setNth_other by exact Hne.
  reflexivity.
Qed.

Lemma empty_not_colored (g : list Z) (c k : nat) :
  isEmptyCell g c = true -> hasColor g c k = false.
Proof.
  unfold isEmptyCell, hasColor. destruct (nth_error g c) as [v|]; auto.
  intros Hv. apply Z.eqb_eq in Hv. subst v. apply Z.eqb_neq. lia.
Qed.

Lemma valid_move_touches_only_curr (g : list Z) (k cur next x : nat) :
  validMove w h g k cur next = true ->
  In x (getNeighbors next w h) -> hasColor g x k = true -> x = cur.
Proof.
  unfold validMove. destruct (negb (isEmptyCell g next)); [discriminate|].
  destruct (existsb _ (getNeighbors next w h)) eqn:Htouch; [discriminate|].
  intros _ Hin Hcol.
  destruct (Nat.eq_dec x cur) as [Heq|Hne]; [exact Heq|].
  exfalso. assert (Hex : existsb (fun nn => hasColor g nn k && negb (nn =? cur))
                           (getNeighbors next w h) = true).
  { apply existsb_exists. exists x. split; [exact Hin|].
    rewrite Hcol. apply Nat.eqb_neq in Hne. rewrite Hne. reflexivity. }
  congruence.
Qed.

Lemma growing_step (k : nat) (st : Growing) (next : nat) :
  growing w h k st ->
  In next (getNeighbors (curr st) w h) ->
  validMove w h (g_grid st) k (curr st) next = true ->
  growing w h k
    {| g_grid := setNth next (Z.of_nat k) (g_grid st);
       g_empty := deleteCell next (g_empty st);
       g_filled := S (g_filled st);
       currentPath := currentPath st ++ [next];
       curr := next;
       g_pos := S (g_pos st) |}.
Proof.
  intros (Hlen & Hnd & Hne & Hcurr & Hchain & Hcells) Hnext Hvalid.
  set (p := currentPath st) in *.
  assert (Hempty : isEmptyCell (g_grid st) next = true).
  { unfold validMove in Hvalid.
    destruct (isEmptyCell (g_grid st) next); [reflexivity | discriminate]. }
  assert (Hsize : next < w * h).
  { rewrite <- Hlen. unfold isEmptyCell in Hempty.
    destruct (nth_error (g_grid st) next) eqn:Hn; [|discriminate].
    apply nth_error_Some. congruence. }
  assert (Hfresh : ~ In next p).
  { intros Hin. destruct (Hcells _ Hin) as [Hcol _].
    rewrite (@empty_not_colored _ _ k Hempty) in Hcol. discriminate. }
  assert (Hlenp : 0 < length p) by (destruct p; [congruence | simpl; lia]).
  assert (Hcurr_in : In (curr st) p).
  { rewrite Hcurr. unfold pathEnd. apply nth_In. lia. }
  assert (Hcurr_size : curr st < w * h) by (apply Hcells; exact Hcurr_in).
  assert (Hback : In (curr st) (getNeighbors next w h)).
  { apply getNeighbors_sym; assumption. }
  assert (Honly : forall j, j < length p ->
            In (nth j p 0) (getNeighbors next w h) -> S j = length p).
  { intros j Hj Hin.
    assert (Hx : nth j p 0 = curr st).
    { apply (@valid_move_touches_only_curr _ _ _ _ _ Hvalid Hin).
      apply Hcells. apply nth_In. exact Hj. }
    rewrite Hcurr in Hx. unfold pathEnd in Hx.
    apply (proj1 (NoDup_nth p 0) Hnd) in Hx; lia. }
  cbn [g_grid currentPath curr]. unfold growing.
  cbn [g_grid currentPath curr].
  split; [rewrite length_setNth; exact Hlen|].
  split.
  { apply NoDup_app; [exact Hnd | repeat constructor; intros [] |].
    intros x Hx [<-|[]]. exact (Hfresh Hx). }
  split; [destruct p; discriminate|].
  split; [symmetry; apply pathEnd_snoc|].
  split.
  - intros i j Hi Hj. rewrite length_app in Hi, Hj. simpl in Hi, Hj.
    destruct (Nat.eq_dec i (length p)) as [->|Hi'];
      destruct (Nat.eq_dec j (length p)) as [->|Hj'].
    + rewrite app_nth2, Nat.sub_diag by lia. cbn [nth]. split; [|lia].
      intros Hin. exfalso. exact (@getNeighbors_irrefl _ _ _ Hsize Hin).
    + rewrite (app_nth2 p [next]) with (n := length p), Nat.sub_diag by lia.
      rewrite app_nth1 by lia. cbn [nth]. split.
      * intros Hin. right. symmetry. apply Honly; [lia | exact Hin].
      * intros [H|H]; [lia|].
        replace (nth j p 0) with (curr st); [exact Hback|].
        rewrite Hcurr. unfold pathEnd. f_equal. lia.
    + rewrite (app_nth2 p [next]) with (n := length p), Nat.sub_diag by lia.
      rewrite app_nth1 by lia. cbn [nth]. split.
      * intros Hin. left. symmetry. apply Honly; [lia|].
        apply getNeighbors_sym; [|exact Hin].
        apply Hcells. apply nth_In. lia.
      * intros [H|H]; [|lia].
        replace (nth i p 0) with (curr st); [exact Hnext|].
        rewrite Hcurr. unfold pathEnd. f_equal. lia.
    + rewrite !app_nth1 by lia. apply Hchain; lia.
  - intros c Hc. apply in_app_iff in Hc as [Hc|[<-|[]]].
    + destruct (Hcells _ Hc) as [Hcol Hlt]. split; [|exact Hlt].
      rewrite hasColor_setNth_other; [exact Hcol|].
      intros <-. exact (Hfresh Hc).
    + split; [|exact Hsize]. apply hasColor_setNth_same. lia.
Qed.

Lemma growPath_chain (k : nat) : forall fuel st st',
  growPath fuel random w h k st = Some st' ->
  growing w h k st -> growing w h k st'.
Proof.
  induction fuel as [|fuel IH]; intros st st'; simpl; [discriminate|].
  set (validMoves :=
         filter (validMove w h (g_grid st) k (curr st))
                (getNeighbors (curr st) w h)).
  destruct (0 <? length validMoves) eqn:Hany.
  - intros Hrun Hinv. apply IH in Hrun; [exact Hrun|].
    apply nonempty_of_length in Hany.
    pose proof (@random_index random (g_pos st) validMoves random_ok Hany)
      as Hin.
    apply filter_In in Hin as [Hnb Hvalid].
    apply growing_step; assumption.
  - intros [= <-] Hinv. exact Hinv.
Qed.

(** A chain of three cells or more does not end next to its start: the
    branch of [finishPath] that extends such a path is never taken. *)
Lemma chain_ends_apart (p : list nat) :
  isChain w h p -> 3 <= length p -> (forall c, In c p -> c < w * h) ->
  areAdjacent (pathStart p) (pathEnd p) w = false.
Proof.
  intros Hchain Hlen Hin.
  destruct (areAdjacent (pathStart p) (pathEnd p) w) eqn:Hadj; [|reflexivity].
  exfalso. unfold pathStart, pathEnd in Hadj.
  assert (H0 : nth 0 p 0 < w * h) by (apply Hin, nth_In; lia).
  assert (H1 : nth (length p - 1) p 0 < w * h) by (apply Hin, nth_In; lia).
  assert (Hnb : In (nth (length p - 1) p 0) (getNeighbors (nth 0 p 0) w h)).
  { apply (proj1 (@getNeighbors_spec _ _ w h H0)). split; assumption. }
  apply Hchain in Hnb; lia.
Qed.

Lemma finishPath_chain (k : nat) (ps : list PathEntry) (st : Growing) :
  growing w h k st ->
  (forall q, In q ps -> isChain w h (path q)) ->
  forall q, In q (paths (finishPath random w h k ps st)) ->
            isChain w h (path q).
Proof.
  intros (Hlen & Hnd & Hne & Hcurr & Hchain & Hcells) Hps. unfold finishPath.
  destruct (length (currentPath st) <? 3) eqn:Hshort; [exact Hps|].
  apply Nat.ltb_ge in Hshort.
  rewrite (@chain_ends_apart _ Hchain Hshort) by (intros c Hc; apply Hcells, Hc).
  cbn [paths]. intros q Hq. apply in_app_iff in Hq as [Hq|[<-|[]]]; auto.
Qed.

Lemma startPath_chain (st st' : Filling) :
  length (grid st) = w * h ->
  (forall e, In e (emptyCells st) -> isEmptyCell (grid st) e = true) ->
  emptyCells st <> [] ->
  startPath random w h st = Some st' ->
  (forall q, In q (paths st) -> isChain w h (path q)) ->
  forall q, In q (paths st') -> isChain w h (path q).
Proof.
  intros Hlen Hempty Hne. unfold startPath.
  destruct (pickStart random w h (grid st) (emptyCells st)
              (Nat.min (length (emptyCells st)) 15) 99 None (pos st))
    as [picked p1] eqn:Hpick.
  set (startIdx := match picked with Some idx => idx | None => _ end).
  destruct (growPath _ random w h (length (paths st)) _) as [grown|] eqn:Hgrow;
    [|discriminate].
  intros [= <-] Hps.
  apply finishPath_chain; [|exact Hps].
  eapply growPath_chain; [exact Hgrow|].
  assert (Hstart : isEmptyCell (grid st) startIdx = true).
  { apply Hempty. subst startIdx. destruct picked as [idx|].
    - eapply pickStart_In; eauto. intros ? [=].
    - destruct (emptyCells st); [congruence | now left]. }
  assert (Hsize : startIdx < w * h).
  { rewrite <- Hlen. unfold isEmptyCell in Hstart.
    destruct (nth_error (grid st) startIdx) eqn:Hn; [|discriminate].
    apply nth_error_Some. congruence. }
  unfold growing. cbn [g_grid currentPath curr].
  split; [rewrite length_setNth; exact Hlen|].
  split; [repeat constructor; intros []|].
  split; [discriminate|]. split; [reflexivity|]. split.
  - intros i j Hi Hj. simpl in Hi, Hj.
    replace i with 0 by lia. replace j with 0 by lia. cbn [nth].
    split; [|lia]. intros Hin. exfalso.
    exact (@getNeighbors_irrefl _ _ _ Hsize Hin).
  - intros c [<-|[]]. split; [|exact Hsize].
    apply hasColor_setNth_same. lia.
Qed.

Lemma fillGrid_chain (targetColors : Z) : forall fuel st st',
  fillGrid fuel random w h targetColors st = Some st' ->
  fillInv (w * h) st ->
  (forall q, In q (paths st) -> isChain w h (path q)) ->
  forall q, In q (paths st') -> isChain w h (path q).
Proof.
  induction fuel as [|fuel IH]; intros st st'; simpl; [discriminate|].
  destruct ((filledCount st <? w * h) && (0 <? length (emptyCells st))
            && (Z.of_nat (length (paths st)) <? targetColors)%Z) eqn:Hcond.
  - destruct (startPath random w h st) as [st1|] eqn:Hstart; [|discriminate].
    apply andb_prop in Hcond as [Hcond _].
    apply andb_prop in Hcond as [_ Hne]. apply nonempty_of_length in Hne.
    intros Hrun Hinv Hps.
    assert (Hps1 : forall q, In q (paths st1) -> isChain w h (path q)).
    { destruct Hinv as [(Hlen & Hempty & _) _].
      exact (@startPath_chain _ _ Hlen Hempty Hne Hstart Hps). }
    destruct (stuck st1) eqn:Hstuck.
    + injection Hrun as <-. exact Hps1.
    + eapply IH; eauto.
      eapply startPath_inv; eauto.
  - intros [= <-] _ Hps. exact Hps.
Qed.

(** The paths of a level the attempt returns are simple chains. *)
Lemma runAttempt_chain minC targetColors p lv p' :
  runAttempt random w h minC targetColors p = Some (Some lv, p') ->
  forall q, In q (solvedPaths lv) -> isChain w h (path q).
Proof.
  unfold runAttempt.
  destruct (fillGrid _ random w h targetColors _) as [st|] eqn:Hfill;
    [|discriminate].
  destruct (negb (stuck st) && (filledCount st =? w * h)
            && (minC <=? Z.of_nat (length (paths st)))%Z); [|discriminate].
  destruct (shuffle random (seq 0 (Z.to_nat targetColors)) (pos st))
    as [ca p1].
  destruct (negb (Z.of_nat (length (paths st)) =? targetColors)%Z);
    [discriminate|].
  destruct (assignColors ca 0 (paths st) []) as [ps a] eqn:Hassign.
  destruct (validateAnchors a w); [|discriminate].
  intros [= <- <-]. cbn [solvedPaths].
  destruct (assignColors_spec _ _ _ _ Hassign) as (Hpaths & _ & _).
  intros q Hq. apply (in_map path) in Hq. rewrite Hpaths in Hq.
  apply in_map_iff in Hq as (q0 & <- & Hq0).
  apply (@fillGrid_chain targetColors _ _ _ Hfill); auto.
  - apply fresh_attempt_inv.
  - intros ? [].
Qed.

End ChainFacts.
(* ------------------------------------------------------------------ *)
(** * Levels of the primary generator against the validator *)

Section PrimaryExtras.
Import Grid Prng Validator Generator Props GenProps.

(** The neighbour counts of a simple chain. *)
Lemma chain_counts (w h : nat) (p : PathEntry) :
  isChain w h (path p) -> NoDup (path p) -> 2 <= length (path p) ->
  (forall c, In c (path p) -> c < w * h) ->
  chainCounts w h p.
Proof.
  intros Hchain Hnd Hlen Hgrid i Hi.
  set (l := path p) in *.
  set (expected :=
         (if 0 <? i then [nth (i - 1) l 0] else [])
         ++ (if S i <? length l then [nth (S i) l 0] else [])).
  assert (Hcell : nth i l 0 < w * h) by (apply Hgrid, nth_In; exact Hi).
  assert (Hperm : Permutation (pathNeighbors w h l (nth i l 0)) expected).
  { apply NoDup_Permutation.
    - unfold pathNeighbors. apply NoDup_filter.
      apply (proj2 (@getNeighbors_spec _ 0 w h Hcell)).
    - unfold expected.
      destruct (Nat.ltb_spec 0 i); destruct (Nat.ltb_spec (S i) (length l));
        cbn [app]; repeat (apply NoDup_cons; [cbn [In]|]); try apply NoDup_nil;
        try tauto.
      intros [Heq|[]]. apply (proj1 (NoDup_nth l 0) Hnd) in Heq; lia.
    - intros x. unfold pathNeighbors. rewrite filter_In, includes_In. split.
      + intros [Hnb Hin].
        destruct (In_nth _ _ 0 Hin) as (j & Hj & <-).
        apply Hchain in Hnb; [|exact Hi | exact Hj].
        unfold expected. apply in_app_iff. destruct Hnb as [->| ->].
        * right. replace (S i <? length l) with true
            by (symmetry; apply Nat.ltb_lt; lia). now left.
        * left. cbn [Nat.ltb Nat.leb]. left. f_equal. lia.
      + unfold expected. intros Hx. apply in_app_iff in Hx as [Hx|Hx].
        * destruct (Nat.ltb_spec 0 i); [|destruct Hx].
          destruct Hx as [<-|[]]. split; [|apply nth_In; lia].
          apply Hchain; lia.
        * destruct (Nat.ltb_spec (S i) (length l)); [|destruct Hx].
          destruct Hx as [<-|[]]. split; [|apply nth_In; lia].
          apply Hchain; lia. }
  rewrite (Permutation_length Hperm). unfold expected.
  rewrite length_app.
  destruct (Nat.ltb_spec 0 i); destruct (Nat.ltb_spec (S i) (length l));
    destruct (Nat.eqb_spec i 0); destruct (Nat.eqb_spec i (length l - 1));
    simpl; lia.
Qed.

(** *** The grouping of anchors by colour *)

Lemma setEntry_keys {V : Type} (key x : nat) (v : V) (m : list (nat * V)) :
  In x (map fst (setEntry key v m)) <-> x = key \/ In x (map fst m).
Proof.
  induction m as [|[k old] m IH]; simpl.
  - intuition.
  - destruct (Nat.eqb_spec key k) as [->|Hne]; simpl; [intuition|].
    destruct (key <? k); simpl; [intuition|].
    rewrite IH. intuition.
Qed.

Lemma setEntry_sorted {V : Type} (key : nat) (v : V) (m : list (nat * V)) :
  StronglySorted lt (map fst m) ->
  StronglySorted lt (map fst (setEntry key v m)).
Proof.
  induction m as [|[k old] m IH]; simpl; intros Hs.
  - repeat constructor.
  - inversion Hs as [|? ? Hrest Hall]; subst.
    destruct (Nat.eqb_spec key k) as [->|Hne]; simpl.
    + constructor; assumption.
    + destruct (Nat.ltb_spec key k) as [Hlt|Hge]; simpl.
      * constructor; [exact Hs|]. constructor; [exact Hlt|].
        rewrite Forall_forall in *. intros x Hx. specialize (Hall x Hx). lia.
      * constructor; [apply IH; exact Hrest|].
        rewrite Forall_forall in *. intros x Hx.
        apply setEntry_keys in Hx as [->|Hx]; [lia | auto].
Qed.

Lemma sorted_lookup {V : Type} (k : nat) (v : V) (m : list (nat * V)) :
  StronglySorted lt (map fst m) -> In (k, v) m -> lookup k m = Some v.
Proof.
  induction m as [|[k0 v0] m IH]; simpl; intros Hs; [intros []|].
  inversion Hs as [|? ? Hrest Hall]; subst.
  intros [[= -> ->]|Hin].
  - rewrite Nat.eqb_refl. reflexivity.
  - destruct (Nat.eqb_spec k k0) as [->|Hne]; [|auto].
    exfalso. rewrite Forall_forall in Hall.
    specialize (Hall k0 (in_map fst _ _ Hin)). simpl in Hall. lia.
Qed.

Lemma groupAnchors_sorted (a : Anchors) :
  StronglySorted lt (map fst (groupAnchors a)).
Proof.
  unfold groupAnchors.
  assert (Hgen : forall m, StronglySorted lt (map fst m) ->
            StronglySorted lt
              (map fst (fold_left
                          (fun m entry => pushColorAnchor (snd entry) (fst entry) m)
                          a m))).
  { induction a as [|e a IH]; intros m Hm; simpl; [exact Hm|].
    apply IH. unfold pushColorAnchor.
    destruct (lookup (snd e) m); apply setEntry_sorted; exact Hm. }
  apply Hgen. constructor.
Qed.

(** An entry of the grouping holds the cells of its colour, and there
    is at least one. *)
Lemma In_groupAnchors (k : nat) (cells : list nat) (a : Anchors) :
  In (k, cells) (groupAnchors a) -> cells = cellsOf k a /\ cells <> [].
Proof.
  intros Hin. apply (@sorted_lookup _ _ _ _ (groupAnchors_sorted a)) in Hin.
  rewrite lookup_groupAnchors in Hin.
  destruct (cellsOf k a); [discriminate|].
  injection Hin as <-. split; [reflexivity | discriminate].
Qed.

Lemma find_by_color (ps : list PathEntry) (p : PathEntry) :
  NoDup (map colorId ps) -> In p ps ->
  find (fun q => colorId q =? colorId p) ps = Some p.
Proof.
  induction ps as [|q ps IH]; intros Hnd; [intros []|].
  inversion Hnd as [|? ? Hfresh Hrest]; subst. simpl.
  intros [->|Hp].
  - rewrite Nat.eqb_refl. reflexivity.
  - destruct (Nat.eqb_spec (colorId q) (colorId p)) as [Heq|Hne]; [|auto].
    exfalso. apply Hfresh. rewrite Heq. apply in_map. exact Hp.
Qed.

Lemma middle_not_ends (l : list nat) (m : nat) :
  NoDup l -> In m (middle l) -> m <> pathStart l /\ m <> pathEnd l.
Proof.
  unfold middle. destruct l as [|a t]; [intros _ []|]. cbn [tl].
  intros Hnd Hin.
  destruct t as [|b t'] eqn:Ht; [destruct Hin|]. rewrite <- Ht in *.
  assert (Hne : t <> []) by (rewrite Ht; discriminate).
  pose proof (app_removelast_last 0 Hne) as Hsplit.
  assert (Hend : pathEnd (a :: t) = last t 0).
  { rewrite Hsplit at 1.
    change (a :: removelast t ++ [last t 0])
      with ((a :: removelast t) ++ [last t 0]).
    apply pathEnd_snoc. }
  rewrite Hend. unfold pathStart. cbn [nth].
  inversion Hnd as [|x0 l0 Hfresh Hrest]; subst x0 l0.
  split.
  - intros ->. apply Hfresh. rewrite Hsplit. apply in_app_iff. now left.
  - intros ->. rewrite Hsplit in Hrest. apply NoDup_remove_2 in Hrest.
    apply Hrest. rewrite app_nil_r. exact Hin.
Qed.

(** The rules of the validator on a list of paths that are disjoint
    simple chains of three cells or more covering the grid, with
    distinct colours and anchors at their ends. *)
Lemma chains_pass_validation (lv : LevelData) :
  solvedPaths lv <> [] ->
  NoDup (allCells (solvedPaths lv)) ->
  coversGrid (width lv) (height lv) (solvedPaths lv) ->
  insideGrid (width lv) (height lv) (solvedPaths lv) ->
  (forall q, In q (solvedPaths lv) -> 3 <= length (path q)) ->
  NoDup (map colorId (solvedPaths lv)) ->
  Permutation (anchors lv) (endpointsOf (solvedPaths lv)) ->
  (forall q, In q (solvedPaths lv) ->
     isChain (width lv) (height lv) (path q)) ->
  firstViolation lv = None.
Proof.
  intros Hne Hnd Hcover Hinside Hlong Hcolors Hperm Hchain.
  assert (Hanchors : checkAnchors lv = None).
  { unfold checkAnchors. apply firstError_None. intros [k cells] Hentry.
    destruct (@In_groupAnchors _ _ _ Hentry) as [-> Hsome].
    destruct (cellsOf k (anchors lv)) as [|c rest] eqn:Hcells; [congruence|].
    assert (Hc : In (c, k) (anchors lv)).
    { assert (H : In c (cellsOf k (anchors lv))) by (rewrite Hcells; now left).
      unfold cellsOf in H. apply in_map_iff in H as ([c' k'] & <- & H).
      apply filter_In in H as [H Hk]. simpl in Hk. apply Nat.eqb_eq in Hk.
      subst k'. exact H. }
    apply (Permutation_in _ Hperm) in Hc.
    apply In_endpointsOf in Hc as (p & Hp & <- & _).
    pose proof (@cellsOf_perm (colorId p) _ _ Hperm) as Hpair.
    rewrite (@cellsOf_path _ p Hcolors Hp), Hcells in Hpair.
    pose proof (Hlong p Hp) as Hlen.
    pose proof (@NoDup_path_of_allCells _ _ Hnd Hp) as Hndp.
    unfold checkColor. cbn [fst snd].
    rewrite (Permutation_length Hpair). cbn [length Nat.eqb negb].
    rewrite (@find_by_color _ _ Hcolors Hp).
    replace (length (path p) <? 2) with false
      by (symmetry; apply Nat.ltb_ge; lia).
    assert (Hin : forall x, In x (c :: rest) <->
                            x = pathStart (path p) \/ x = pathEnd (path p)).
    { intros x. split.
      - intros H. apply (Permutation_in _ Hpair) in H. simpl in H. intuition.
      - intros H. apply (Permutation_in _ (Permutation_sym Hpair)).
        simpl. intuition. }
    replace (includes (c :: rest) (pathStart (path p))) with true
      by (symmetry; apply includes_In, Hin; now left).
    replace (includes (c :: rest) (pathEnd (path p))) with true
      by (symmetry; apply includes_In, Hin; now right).
    cbn [negb orb].
    replace (pathStart (path p) =? pathEnd (path p)) with false
      by (symmetry; apply Nat.eqb_neq, ends_differ; [exact Hndp | lia]).
    replace (existsb (includes (c :: rest)) (middle (path p))) with false;
      [reflexivity|].
    symmetry. apply not_true_is_false. intros Hex.
    apply existsb_exists in Hex as (m & Hm & Hinc).
    apply includes_In, Hin in Hinc.
    destruct (@middle_not_ends _ _ Hndp Hm) as [H1 H2]. intuition. }
  assert (Hoverlap : checkOverlap lv = None) by (apply checkOverlap_None, Hnd).
  assert (Hfilled : checkFilled lv = None).
  { apply checkFilled_None. rewrite nodup_fixed_point by exact Hnd.
    rewrite <- (length_seq (width lv * height lv) 0).
    apply Permutation_length, NoDup_Permutation;
      [exact Hnd | apply seq_NoDup|].
    intros x. rewrite in_seq. split.
    - intros H. specialize (Hinside x H). lia.
    - intros H. apply Hcover. lia. }
  assert (Hbranch : checkBranching lv = None).
  { apply checkBranching_None. intros p Hp. apply chain_counts.
    - apply Hchain, Hp.
    - exact (@NoDup_path_of_allCells _ _ Hnd Hp).
    - specialize (Hlong p Hp). lia.
    - intros c Hc. apply Hinside. unfold allCells.
      apply in_concat. exists (path p). split; [apply in_map, Hp | exact Hc]. }
  assert (Huturn : checkUTurns lv = None).
  { unfold checkUTurns. apply firstError_None. intros p Hp.
    apply checkUTurnPath_NoDup. exact (@NoDup_path_of_allCells _ _ Hnd Hp). }
  rewrite (firstViolation_after_anchors lv Hne Hanchors).
  rewrite Hoverlap, Hfilled, Hbranch. exact Huturn.
Qed.

End PrimaryExtras.
(* ------------------------------------------------------------------ *)
(** * Further properties of the primary generator *)

Section ShuffleExtras.
Import Prng Generator.

Lemma In_swap (i j x : nat) (arr : list nat) :
  i < length arr -> j < length arr -> In x (swap i j arr) -> In x arr.
Proof.
  intros Hi Hj Hin. destruct (In_nth _ _ 0 Hin) as (k & Hk & <-).
  rewrite length_swap in Hk. rewrite nth_swap by assumption.
  destruct (k =? j); [|destruct (k =? i)]; apply nth_In; assumption.
Qed.

Lemma shuffleFrom_incl (random : Rng) :
  wellFormed random ->
  forall i arr p x,
    i < length arr -> In x (fst (shuffleFrom random i arr p)) -> In x arr.
Proof.
  intros Hwf. induction i as [|i IH]; intros arr p x Hi;
    cbn [shuffleFrom]; [auto|].
  assert (Hj : floorTimes (random p) (S i + 1) < S i + 1).
  { apply floorTimes_lt; [apply Hwf | lia]. }
  intros Hin. apply IH in Hin; [|rewrite length_swap; lia].
  apply In_swap in Hin; [exact Hin | lia | lia].
Qed.

(** The Fisher-Yates loop returns a permutation of its array. *)
Lemma shuffle_perm (random : Rng) (arr : list nat) (p : nat) :
  wellFormed random -> NoDup arr ->
  Permutation (fst (shuffle random arr p)) arr.
Proof.
  intros Hwf Hnd.
  destruct (@shuffle_NoDup random arr p Hwf Hnd) as [Hnd' Hlen].
  apply NoDup_Permutation_bis; [exact Hnd' | lia|].
  intros x Hx. unfold shuffle in Hx. destruct arr as [|a arr]; [exact Hx|].
  apply (@shuffleFrom_incl random Hwf _ _ _ _) in Hx; [exact Hx | simpl; lia].
Qed.

Lemma map_nth_seq (ca : list nat) :
  map (fun j => nth j ca 0) (seq 0 (length ca)) = ca.
Proof.
  apply (nth_ext _ _ 0 0).
  - rewrite length_map, length_seq. reflexivity.
  - intros n Hn. rewrite length_map, length_seq in Hn.
    rewrite (nth_indep _ 0 (nth 0 ca 0)) by (rewrite length_map, length_seq; exact Hn).
    rewrite (map_nth (fun j => nth j ca 0)), seq_nth by exact Hn.
    reflexivity.
Qed.

End ShuffleExtras.

Section PrimaryLevelExtras.
Import Grid Prng Validator Generator Props GenProps.

Lemma runAttempt_colors (random : Rng) w h minC targetColors p lv p' :
  wellFormed random ->
  runAttempt random w h minC targetColors p = Some (Some lv, p') ->
  Permutation (map colorId (solvedPaths lv))
              (seq 0 (length (solvedPaths lv))).
Proof.
  intros Hwf. unfold runAttempt.
  destruct (fillGrid _ random w h targetColors _) as [st|]; [|discriminate].
  destruct (negb (stuck st) && (filledCount st =? w * h)
            && (minC <=? Z.of_nat (length (paths st)))%Z); [|discriminate].
  destruct (shuffle random (seq 0 (Z.to_nat targetColors)) (pos st))
    as [ca p1] eqn:Hshuffle.
  destruct (negb (Z.of_nat (length (paths st)) =? targetColors)%Z) eqn:Hcount;
    [discriminate|].
  apply negb_false_iff, Z.eqb_eq in Hcount.
  destruct (assignColors ca 0 (paths st) []) as [ps a] eqn:Hassign.
  destruct (validateAnchors a w); [|discriminate].
  intros [= <- <-]. cbn [solvedPaths].
  destruct (assignColors_spec _ _ _ _ Hassign) as (Hpaths & Hcolors & _).
  pose proof (@shuffle_perm random (seq 0 (Z.to_nat targetColors)) (pos st)
                Hwf (seq_NoDup _ _)) as Hperm.
  rewrite Hshuffle in Hperm. cbn [fst] in Hperm.
  assert (Hlen : length ps = length (paths st)).
  { rewrite <- (length_map path ps), Hpaths. apply length_map. }
  assert (Hca : length ca = length (paths st)).
  { rewrite (Permutation_length Hperm), length_seq. lia. }
  rewrite Hcolors, <- Hca, map_nth_seq, Hlen, <- Hca.
  rewrite (Permutation_length Hperm), length_seq. exact Hperm.
Qed.

(** X4.  Every path of a level the primary generator returns is a
    simple chain on the grid: two of its cells are neighbours exactly
    when they are consecutive in the path.  (The no-touch test of
    [validMoves] keeps a growing path from coming back next to itself.) *)
Theorem primary_paths_are_simple_chains
    (mulberry32 : Z -> Rng) (mathRandom : Rng) (w h : nat) (minC maxC : Z)
    (palette : option (list ColorPalette)) (seed : option Z)
    (maxAttempts : option nat) (lv : LevelData) :
  wellFormed (randomOf mulberry32 mathRandom seed) ->
  generateLevel mulberry32 mathRandom w h minC maxC palette seed maxAttempts
  = Returned {| level := lv; usedFallback := false |} ->
  forall q, In q (solvedPaths lv) -> isChain w h (path q).
Proof.
  intros Hwf Hrun.
  destruct (generateLevel_primary _ _ _ _ _ _ _ _ _ Hrun) as (n & p & Hloop).
  destruct (attemptLoop_success _ _ _ _ _ _ _ Hloop) as (p0 & p1 & Hattempt).
  exact (@runAttempt_chain _ Hwf _ _ _ _ _ _ _ Hattempt).
Qed.

Lemma primary_paths_are_simple_chains_witness :
  wellFormed (randomOf Samples.constantPrng Samples.zeroStream None)
  /\ generateLevel Samples.constantPrng Samples.zeroStream 3 4 2 4 None None
       None
     = Returned {| level := Samples.snake3x4; usedFallback := false |}
  /\ forall q, In q (solvedPaths Samples.snake3x4) -> isChain 3 4 (path q).
Proof.
  assert (Hwf : wellFormed (randomOf Samples.constantPrng Samples.zeroStream None))
    by exact zeroStream_wellFormed.
  assert (Hrun :
    generateLevel Samples.constantPrng Samples.zeroStream 3 4 2 4 None None None
    = Returned {| level := Samples.snake3x4; usedFallback := false |})
    by (vm_compute; reflexivity).
  split; [exact Hwf|]. split; [exact Hrun|].
  exact (@primary_paths_are_simple_chains Samples.constantPrng
           Samples.zeroStream 3 4 2 4 None None None Samples.snake3x4
           Hwf Hrun).
Defined.

(** X5.  A level the primary generator returns passes
    [validateNumberlinkRules] whenever at least one colour was asked
    for: the retry loops can reject such a level only for its
    fingerprint, never for its shape. *)
Theorem primary_level_passes_validation
    (mulberry32 : Z -> Rng) (mathRandom : Rng) (w h : nat) (minC maxC : Z)
    (palette : option (list ColorPalette)) (seed : option Z)
    (maxAttempts : option nat) (lv : LevelData) :
  wellFormed (randomOf mulberry32 mathRandom seed) ->
  (1 <= minC)%Z ->
  generateLevel mulberry32 mathRandom w h minC maxC palette seed maxAttempts
  = Returned {| level := lv; usedFallback := false |} ->
  validateNumberlinkRules lv = {| isValid := true; error := None |}.
Proof.
  intros Hwf Hmin Hrun.
  destruct (generateLevel_primary _ _ _ _ _ _ _ _ _ Hrun) as (n & p & Hloop).
  destruct (attemptLoop_success _ _ _ _ _ _ _ Hloop) as (p0 & p1 & Hattempt).
  pose proof (@runAttempt_chain _ Hwf _ _ _ _ _ _ _ Hattempt) as Hchain.
  destruct (runAttempt_success Hwf _ _ _ _ _ Hattempt)
    as (Hw & Hh & _ & Hnd & Hcover & Hinside & _ & Hcount & Hlong & Hcolors
        & Hperm & _).
  assert (Hnone : firstViolation lv = None).
  { apply chains_pass_validation; rewrite ?Hw, ?Hh; auto.
    destruct (solvedPaths lv); [simpl in Hcount; lia | discriminate]. }
  unfold validateNumberlinkRules. rewrite Hnone. reflexivity.
Qed.

Lemma primary_level_passes_validation_witness :
  wellFormed (randomOf Samples.constantPrng Samples.zeroStream None)
  /\ (1 <= 2)%Z
  /\ validateNumberlinkRules Samples.snake3x4
     = {| isValid := true; error := None |}.
Proof.
  assert (Hwf : wellFormed (randomOf Samples.constantPrng Samples.zeroStream None))
    by exact zeroStream_wellFormed.
  assert (Hrun :
    generateLevel Samples.constantPrng Samples.zeroStream 3 4 2 4 None None None
    = Returned {| level := Samples.snake3x4; usedFallback := false |})
    by (vm_compute; reflexivity).
  split; [exact Hwf|]. split; [lia|].
  apply (@primary_level_passes_validation Samples.constantPrng
           Samples.zeroStream 3 4 2 4 None None None Samples.snake3x4 Hwf);
    [lia | exact Hrun].
Defined.

(** X6.  A level the primary generator returns has the requested
    width and height, [difficulty] equal to its number of paths, and its
    paths carry the colours [0 .. difficulty - 1], each once. *)
Theorem primary_level_uses_each_color_once
    (mulberry32 : Z -> Rng) (mathRandom : Rng) (w h : nat) (minC maxC : Z)
    (palette : option (list ColorPalette)) (seed : option Z)
    (maxAttempts : option nat) (lv : LevelData) :
  wellFormed (randomOf mulberry32 mathRandom seed) ->
  generateLevel mulberry32 mathRandom w h minC maxC palette seed maxAttempts
  = Returned {| level := lv; usedFallback := false |} ->
  width lv = w /\ height lv = h
  /\ difficulty lv = length (solvedPaths lv)
  /\ Permutation (map colorId (solvedPaths lv)) (seq 0 (difficulty lv)).
Proof.
  intros Hwf Hrun.
  destruct (generateLevel_primary _ _ _ _ _ _ _ _ _ Hrun) as (n & p & Hloop).
  destruct (attemptLoop_success _ _ _ _ _ _ _ Hloop) as (p0 & p1 & Hattempt).
  destruct (runAttempt_success Hwf _ _ _ _ _ Hattempt) as (Hw & Hh & Hd & _).
  repeat split; auto. rewrite Hd.
  exact (@runAttempt_colors _ _ _ _ _ _ _ _ Hwf Hattempt).
Qed.

Lemma primary_level_uses_each_color_once_witness :
  wellFormed (randomOf Samples.constantPrng Samples.zeroStream None)
  /\ width Samples.snake3x4 = 3 /\ height Samples.snake3x4 = 4
  /\ Permutation (map colorId (solvedPaths Samples.snake3x4))
                 (seq 0 (difficulty Samples.snake3x4)).
Proof.
  assert (Hwf : wellFormed (randomOf Samples.constantPrng Samples.zeroStream None))
    by exact zeroStream_wellFormed.
  assert (Hrun :
    generateLevel Samples.constantPrng Samples.zeroStream 3 4 2 4 None None None
    = Returned {| level := Samples.snake3x4; usedFallback := false |})
    by (vm_compute; reflexivity).
  destruct (@primary_level_uses_each_color_once Samples.constantPrng
              Samples.zeroStream 3 4 2 4 None None None Samples.snake3x4
              Hwf Hrun) as (H1 & H2 & _ & H4).
  split; [exact Hwf|]. repeat split; assumption.
Defined.

End PrimaryLevelExtras.
(* ------------------------------------------------------------------ *)
(** * What every call of the generator yields *)

Section GeneratorExtras.
Import Grid Prng Validator Generator Props GenProps.

Lemma settlePath_long (w color : nat) (p : list nat) (q : PathEntry) :
  In q (settlePath w color p) -> 3 <= length (path q).
Proof.
  unfold settlePath.
  destruct ((3 <=? length p) && negb (areAdjacent (pathStart p) (pathEnd p) w))
    eqn:Hfirst.
  - apply andb_prop in Hfirst as [Hlen _]. apply Nat.leb_le in Hlen.
    intros [<-|[]]. exact Hlen.
  - destruct (3 <=? length p) eqn:Hlen; [|intros []].
    apply Nat.leb_le in Hlen.
    destruct ((0 <? _) && (_ <? length p - 1)).
    + destruct (3 <=? length (firstn _ p)) eqn:Hadj; [|intros []].
      apply Nat.leb_le in Hadj. intros [<-|[]]. exact Hadj.
    + intros [<-|[]]. exact Hlen.
Qed.

Lemma linearize_long (w h : nat) : forall rs color ps ps',
  linearize rs w h color ps = Some ps' ->
  (forall q, In q ps -> 3 <= length (path q)) ->
  forall q, In q ps' -> 3 <= length (path q).
Proof.
  induction rs as [|region rs IH]; intros color ps ps'; cbn [linearize].
  - intros [= <-] Hps. exact Hps.
  - destruct (length region =? 0); [apply IH|].
    destruct (dfs _ w h region _ _) as [walked|]; [|discriminate].
    intros Hrun Hps. eapply IH; [exact Hrun|].
    intros q Hq. apply in_app_iff in Hq as [Hq|Hq]; [auto|].
    eapply settlePath_long; exact Hq.
Qed.

Lemma assignFallbackColors_paths (ca : list nat) (numColors : nat) :
  forall ps i a ps' a',
    assignFallbackColors ca numColors i ps a = (ps', a') ->
    map path ps' = map path ps.
Proof.
  induction ps as [|p ps IH]; intros i a ps' a'; cbn [assignFallbackColors].
  - intros [= <- <-]. reflexivity.
  - destruct (assignFallbackColors ca numColors (S i) ps _) as [ps1 a1] eqn:Hrest.
    intros [= <- <-]. simpl. f_equal. eapply IH; exact Hrest.
Qed.

Lemma generateFallbackLevel_shape w h minC maxC random p paletteLen lv :
  generateFallbackLevel w h minC maxC random p paletteLen = Returned lv ->
  width lv = w /\ height lv = h
  /\ difficulty lv = length (solvedPaths lv)
  /\ forall q, In q (solvedPaths lv) -> 3 <= length (path q).
Proof.
  unfold generateFallbackLevel.
  destruct (partition _ random w h _ _ 0 _) as [parts|]; [|discriminate].
  destruct (fillRemaining _ w _ _) as [[g rs]| |]; try discriminate.
  destruct (linearize rs w h 0 []) as [ps0|] eqn:Hlin; [|discriminate].
  destruct (shuffle random _ _) as [ca p1].
  destruct (assignFallbackColors ca _ 0 ps0 []) as [ps a] eqn:Hassign.
  assert (Hlong : forall q, In q ps -> 3 <= length (path q)).
  { intros q Hq. apply (in_map path) in Hq.
    rewrite (@assignFallbackColors_paths _ _ _ _ _ _ _ Hassign) in Hq.
    apply in_map_iff in Hq as (q0 & <- & Hq0).
    eapply linearize_long; [exact Hlin | intros ? [] | exact Hq0]. }
  destruct (negb (validateAnchors a w) && validateAnchors _ w);
    intros [= <-]; cbn [width height difficulty solvedPaths]; auto.
Qed.

Lemma generateLevel_shape
    (mulberry32 : Z -> Rng) (mathRandom : Rng) (w h : nat) (minC maxC : Z)
    (palette : option (list ColorPalette)) (seed : option Z)
    (maxAttempts : option nat) (g : GenerateResult) :
  wellFormed (randomOf mulberry32 mathRandom seed) ->
  generateLevel mulberry32 mathRandom w h minC maxC palette seed maxAttempts
  = Returned g ->
  width (level g) = w /\ height (level g) = h
  /\ difficulty (level g) = length (solvedPaths (level g))
  /\ forall q, In q (solvedPaths (level g)) -> 3 <= length (path q).
Proof.
  intros Hwf Hrun. destruct g as [lv [|]].
  - unfold generateLevel in Hrun.
    destruct (attemptLoop _ _ w h minC _ 1) as [lv'|p|]; try discriminate.
    destruct (generateFallbackLevel w h minC maxC _ p _) as [lv'| |] eqn:Hfb;
      try discriminate.
    injection Hrun as <-. cbn [level].
    eapply generateFallbackLevel_shape; exact Hfb.
  - destruct (generateLevel_primary _ _ _ _ _ _ _ _ _ Hrun) as (n & p & Hloop).
    destruct (attemptLoop_success _ _ _ _ _ _ _ Hloop) as (p0 & p1 & Hattempt).
    destruct (runAttempt_success Hwf _ _ _ _ _ Hattempt)
      as (Hw & Hh & Hd & _ & _ & _ & _ & _ & Hlong & _).
    cbn [level]. auto.
Qed.

(** X7.  Whichever generator produced it, the level [generateLevel]
    returns has the requested width and height, [difficulty] equal to
    its number of paths, and no path shorter than three cells. *)
Theorem generateLevel_result_shape
    (mulberry32 : Z -> Rng) (mathRandom : Rng) (w h : nat) (minC maxC : Z)
    (palette : option (list ColorPalette)) (seed : option Z)
    (maxAttempts : option nat) (g : GenerateResult) :
  wellFormed (randomOf mulberry32 mathRandom seed) ->
  generateLevel mulberry32 mathRandom w h minC maxC palette seed maxAttempts
  = Returned g ->
  width (level g) = w /\ height (level g) = h
  /\ difficulty (level g) = length (solvedPaths (level g))
  /\ forall q, In q (solvedPaths (level g)) -> 3 <= length (path q).
Proof. intros Hwf Hrun. eapply generateLevel_shape; eassumption. Qed.

Lemma generateLevel_result_shape_witness :
  wellFormed (randomOf Samples.constantPrng Samples.zeroStream None)
  /\ generateLevel Samples.constantPrng Samples.zeroStream 5 5 4 5 None None
       (Some 0)
     = Returned {| level := Samples.gap5x5; usedFallback := true |}
  /\ width Samples.gap5x5 = 5 /\ height Samples.gap5x5 = 5
  /\ forall q, In q (solvedPaths Samples.gap5x5) -> 3 <= length (path q).
Proof.
  assert (Hwf : wellFormed (randomOf Samples.constantPrng Samples.zeroStream None))
    by exact zeroStream_wellFormed.
  assert (Hrun :
    generateLevel Samples.constantPrng Samples.zeroStream 5 5 4 5 None None
      (Some 0)
    = Returned {| level := Samples.gap5x5; usedFallback := true |})
    by (vm_compute; reflexivity).
  destruct (@generateLevel_result_shape Samples.constantPrng
              Samples.zeroStream 5 5 4 5 None None (Some 0) _ Hwf Hrun)
    as (H1 & H2 & _ & H4).
  split; [exact Hwf|]. split; [exact Hrun|]. repeat split; assumption.
Defined.

Lemma generateLevel_returns
    (mulberry32 : Z -> Rng) (mathRandom : Rng) (w h : nat) (minC maxC : Z)
    (palette : option (list ColorPalette)) (seed : option Z)
    (maxAttempts : option nat) :
  wellFormed (randomOf mulberry32 mathRandom seed) ->
  (1 <= minC)%Z -> 1 <= paletteLenOf palette ->
  exists g,
    generateLevel mulberry32 mathRandom w h minC maxC palette seed maxAttempts
    = Returned g.
Proof.
  intros Hwf Hmin Hpal.
  pose proof (@generateLevel_has_fuel mulberry32 mathRandom w h minC maxC
                palette seed maxAttempts Hwf) as Hfuel.
  unfold generateLevel in *.
  destruct (attemptLoop _ _ w h minC _ 1) as [lv|p|]; [eauto| |congruence].
  destruct (generateFallbackLevel_returns
              (randomOf mulberry32 mathRandom seed) w h maxC p Hmin Hpal)
    as (lv & Hrun).
  rewrite Hrun. eauto.
Qed.

(** X8.  [generateLevel] always hands back a level when at least one
    colour is asked for and the palette is not empty: no loop runs for
    ever and nothing throws, whatever the random draws. *)
Theorem generateLevel_always_returns
    (mulberry32 : Z -> Rng) (mathRandom : Rng) (w h : nat) (minC maxC : Z)
    (palette : option (list ColorPalette)) (seed : option Z)
    (maxAttempts : option nat) :
  wellFormed (randomOf mulberry32 mathRandom seed) ->
  (1 <= minC)%Z -> 1 <= paletteLenOf palette ->
  exists g,
    generateLevel mulberry32 mathRandom w h minC maxC palette seed maxAttempts
    = Returned g.
Proof. intros Hwf Hmin Hpal. apply generateLevel_returns; assumption. Qed.

Lemma generateLevel_always_returns_witness :
  wellFormed (randomOf Samples.constantPrng Samples.quarterStream None)
  /\ (1 <= 2)%Z /\ 1 <= paletteLenOf None
  /\ exists g,
       generateLevel Samples.constantPrng Samples.quarterStream 3 4 2 4 None
         None None
       = Returned g.
Proof.
  assert (Hwf :
    wellFormed (randomOf Samples.constantPrng Samples.quarterStream None)).
  { intros i. apply (@unitDouble_dyadic _ 1 (-2)); try reflexivity; lia. }
  split; [exact Hwf|]. split; [lia|]. split; [simpl; lia|].
  apply generateLevel_always_returns; [exact Hwf | lia | simpl; lia].
Defined.

Lemma attemptLoop_no_colors random w h minC targetColors :
  0 < w * h -> (targetColors <= 0)%Z ->
  forall n p, attemptLoop n random w h minC targetColors p = Exhausted p.
Proof.
  intros Hsize Htc. induction n as [|n IH]; intros p; [reflexivity|].
  cbn [attemptLoop]. unfold runAttempt. cbn [fillGrid].
  cbn [filledCount emptyCells paths length].
  replace (Z.of_nat 0 <? targetColors)%Z with false
    by (symmetry; apply Z.ltb_ge; lia).
  rewrite andb_false_r. cbn [stuck filledCount negb andb pos].
  replace (0 =? w * h) with false by (symmetry; apply Nat.eqb_neq; lia).
  cbn [andb]. apply IH.
Qed.

(** X9.  With an empty palette array [generateLevel] throws on every
    grid that has a cell: no attempt can place a path, and the fallback
    generator, asked for zero colours, pushes the first cell onto a
    region that does not exist. *)
Theorem generateLevel_empty_palette_throws
    (mulberry32 : Z -> Rng) (mathRandom : Rng) (w h : nat) (minC maxC : Z)
    (seed : option Z) (maxAttempts : option nat) :
  0 < w * h ->
  generateLevel mulberry32 mathRandom w h minC maxC (Some []) seed maxAttempts
  = Threw.
Proof.
  intros Hsize. unfold generateLevel. cbn [paletteLenOf length].
  rewrite attemptLoop_no_colors; [|exact Hsize | unfold targetColorsOf; lia].
  unfold generateFallbackLevel.
  set (numColorsZ := Z.min (Z.of_nat 0) _).
  replace (Z.to_nat numColorsZ) with 0 by (unfold numColorsZ; lia).
  cbn [partition p_grid regions].
  destruct (w * h) as [|size] eqn:Hwh; [lia|].
  cbn [seq repeat fillRemaining isEmptyCell nth_error].
  cbn [Z.eqb Pos.eqb nearestFrom]. reflexivity.
Qed.

Lemma generateLevel_empty_palette_throws_witness :
  0 < 5 * 5
  /\ generateLevel Samples.constantPrng Samples.zeroStream 5 5 4 5 (Some [])
       None None
     = Threw.
Proof.
  assert (H : 0 < 5 * 5) by (simpl; lia).
  split; [exact H|].
  exact (@generateLevel_empty_palette_throws Samples.constantPrng
           Samples.zeroStream 5 5 4 5 None None H).
Defined.

(** X10.  [arr\[Math.floor(random() * arr.length)\]] is an element of a
    non-empty array for every double of [\[0, 1)] the source can return:
    the rounding of the product to double precision never lifts it to
    [arr.length]. *)
Theorem random_pick_is_an_element (u : Q) (arr : list nat) :
  unitDouble u -> arr <> [] ->
  floorTimes u (length arr) < length arr
  /\ In (nth (floorTimes u (length arr)) arr 0) arr.
Proof.
  intros Hu Hne.
  assert (Hlt : floorTimes u (length arr) < length arr).
  { apply floorTimes_lt; [exact Hu|]. destruct arr; [congruence | simpl; lia]. }
  split; [exact Hlt | apply nth_In; exact Hlt].
Qed.

Lemma random_pick_is_an_element_witness :
  unitDouble Samples.almostOne
  /\ floorTimes Samples.almostOne (length [10; 20; 30; 40; 50; 60; 70]) < 7
  /\ In (nth (floorTimes Samples.almostOne
                (length [10; 20; 30; 40; 50; 60; 70]))
             [10; 20; 30; 40; 50; 60; 70] 0)
        [10; 20; 30; 40; 50; 60; 70].
Proof.
  assert (Hone : unitDouble Samples.almostOne).
  { apply (@unitDouble_dyadic _ (2 ^ 52 - 1) (-52)); try reflexivity; lia. }
  split; [exact Hone|].
  apply (@random_pick_is_an_element Samples.almostOne
           [10; 20; 30; 40; 50; 60; 70] Hone).
  discriminate.
Defined.

End GeneratorExtras.
(* ------------------------------------------------------------------ *)
(** * Further properties of the retry loops *)

Section OrchestratorExtras.
Import Orchestrator Validator Props.

Variable hashOf : LevelData -> string.
Variable gen :
  nat -> nat -> nat -> Z -> Z -> option (list Generator.ColorPalette) ->
  option Z -> Outcome (option LevelData * bool).



Variable addHash : string -> list string -> list string.

Lemma tryGenerate_accepts cb w h lo hi pal seen progressHashes cand lv fb k :
  (forall i, i < k ->
     exists fbi,
       gen i w h lo hi pal None = Returned (Some (cand i), fbi)
       /\ rejectedByStartLevel hashOf seen (cand i) = true) ->
  gen k w h lo hi pal None = Returned (Some lv, fb) ->
  rejectedByStartLevel hashOf seen lv = false ->
  forall remaining attempts newLevel ui,
    attempts <= k -> k < attempts + remaining ->
    generationWarning ui = None ->
    levelUsedFallback ui = None ->
    (setLevelValidationError cb = false -> levelValidationError ui = None) ->
    tryGenerate hashOf gen addHash cb w h lo hi pal seen progressHashes
      remaining attempts newLevel ui
    = Returned
        {| levelData := Some (Some lv);
           isGenerating := false;
           generationWarning := None;
           levelValidationError := None;
           levelUsedFallback :=
             if setLevelUsedFallback cb then Some fb else None;
           generatedLevelHashes :=
             if setProgress cb then addHash (hashOf lv) progressHashes
             else generatedLevelHashes ui |}.
Proof.
  intros Hrej Hcall Hok.
  apply orb_false_iff in Hok as [Hvalid Hnew].
  apply negb_false_iff in Hvalid.
  induction remaining as [|remaining IH];
    intros attempts newLevel ui Hle Hlt Hwarn Hfb Herr; [lia|].
  cbn [tryGenerate].
  destruct (Nat.eq_dec attempts k) as [->|Hne].
  - rewrite Hcall, Hvalid. cbn [negb]. rewrite Hnew. cbn [negb].
    rewrite Hwarn, Hfb. f_equal. f_equal.
    destruct (setLevelValidationError cb) eqn:Hcb; [reflexivity | auto].
  - destruct (Hrej attempts ltac:(lia)) as (fbi & Hcalli & Hreji).
    rewrite Hcalli. unfold rejectedByStartLevel in Hreji.
    destruct (isValid (validateNumberlinkRules (cand attempts))) eqn:Hv;
      cbn [negb].
    + simpl in Hreji. rewrite Hreji. cbn [negb].
      apply IH; auto; lia.
    + rewrite IH; cbn [generationWarning levelUsedFallback
                         levelValidationError generatedLevelHashes];
        auto; try lia.
      intros Hcb. rewrite Hcb. auto.
Qed.

(** X12.  The [tryGenerate] loop of [startLevel] hands over the first
    candidate that is valid and not seen before, when there is one among
    its 20 attempts: that level goes to [setLevelData] with no
    generation warning and no validation error left, its fingerprint is
    recorded through [addLevelHash] when [setProgress] was passed, and
    [usedFallback] is reported when [setLevelUsedFallback] was. *)
Theorem startLevel_accepts_first_new_valid_candidate
    (cb : Callbacks) (w h : nat) (lo hi : Z)
    (pal : option (list Generator.ColorPalette)) (seen : HashSet)
    (progressHashes : list string) (cand : nat -> LevelData)
    (lv : LevelData) (fb : bool) (k : nat) :
  k < 20 ->
  (forall i, i < k ->
     exists fbi,
       gen i w h lo hi pal None = Returned (Some (cand i), fbi)
       /\ rejectedByStartLevel hashOf seen (cand i) = true) ->
  gen k w h lo hi pal None = Returned (Some lv, fb) ->
  isValid (validateNumberlinkRules lv) = true ->
  has seen (hashOf lv) = false ->
  startLevelLoop hashOf gen addHash cb w h lo hi pal seen progressHashes
  = Returned
      {| levelData := Some (Some lv);
         isGenerating := false;
         generationWarning := None;
         levelValidationError := None;
         levelUsedFallback := if setLevelUsedFallback cb then Some fb else None;
         generatedLevelHashes :=
           if setProgress cb then addHash (hashOf lv) progressHashes
           else progressHashes |}.
Proof.
  intros Hk Hrej Hcall Hvalid Hnew. unfold startLevelLoop.
  rewrite (@tryGenerate_accepts cb w h lo hi pal seen progressHashes cand lv
             fb k Hrej Hcall); auto; try lia.
  unfold rejectedByStartLevel. rewrite Hvalid, Hnew. reflexivity.
Qed.

End OrchestratorExtras.

Section OrchestratorExtraWitnesses.
Import Orchestrator Validator Props.


Lemma startLevel_accepts_first_new_valid_candidate_witness :
  startLevelLoop Samples.hashByWidth (Samples.row3Then4 2) Samples.appendHash
    Samples.modalCallbacks 3 1 1%Z 1%Z None ["F"%string] ["F"%string]
  = Returned
      {| levelData := Some (Some Samples.row4);
         isGenerating := false;
         generationWarning := None;
         levelValidationError := None;
         levelUsedFallback := None;
         generatedLevelHashes := ["F"; "G"]%string |}.
Proof.
  apply (@startLevel_accepts_first_new_valid_candidate Samples.hashByWidth
           (Samples.row3Then4 2) Samples.appendHash Samples.modalCallbacks
           3 1 1%Z 1%Z None ["F"%string] ["F"%string] (fun _ => Samples.row3)
           Samples.row4 false 2).
  - lia.
  - intros i Hi. exists false.
    destruct i as [|[|i]]; [split; reflexivity..|lia].
  - reflexivity.
  - reflexivity.
  - reflexivity.
Defined.

End OrchestratorExtraWitnesses.
(* ------------------------------------------------------------------ *)
(** * Further properties of the daily challenge *)

Section DailyExtras.
Import Daily DailyProps.

Lemma matchesSize_sym (w h : nat) (sizes : list (nat * nat)) :
  matchesSize w h sizes = matchesSize h w sizes.
Proof.
  unfold matchesSize. induction sizes as [|s sizes IH]; [reflexivity|].
  simpl. rewrite IH. f_equal.
  destruct (w =? fst s), (h =? snd s), (w =? snd s), (h =? fst s);
    reflexivity.
Qed.

Lemma getGridSizeConfig_sym (w h : nat) :
  getGridSizeConfig w h = getGridSizeConfig h w.
Proof.
  unfold getGridSizeConfig. rewrite (Nat.max_comm w h).
  rewrite !(matchesSize_sym w h). reflexivity.
Qed.

Lemma config_cells (w h : nat) :
  minCellsPerColor (getGridSizeConfig w h) = 6
  /\ 6 <= maxCellsPerColor (getGridSizeConfig w h) <= 10.
Proof.
  unfold getGridSizeConfig.
  destruct (Nat.max w h <=? 9); [simpl; lia|].
  destruct (matchesSize w h _); [simpl; lia|].
  destruct (matchesSize w h _); [simpl; lia|].
  destruct (matchesSize w h _); simpl; lia.
Qed.

Lemma ceilDiv_antitone (a b c : nat) :
  0 < b -> b <= c -> ceilDiv a c <= ceilDiv a b.
Proof.
  intros Hb Hbc. unfold ceilDiv.
  destruct a as [|a].
  - rewrite !Nat.div_small by lia. lia.
  - replace (S a + c - 1) with (a + 1 * c) by lia.
    replace (S a + b - 1) with (a + 1 * b) by lia.
    rewrite !Nat.div_add by lia.
    apply Nat.add_le_mono_r.
    apply Nat.div_le_compat_l. lia.
Qed.

(** X13.  For every grid and every palette of at least four colours,
    [calculateColorCounts] yields [4 <= minC <= maxC <= maxPaletteSize];
    the counts do not change when width and height are swapped, and
    [shouldShowNumbers] is set exactly when [maxC] is the whole palette. *)
Theorem calculateColorCounts_bounds (w h maxPaletteSize : nat) :
  4 <= maxPaletteSize ->
  4 <= minC (calculateColorCounts w h maxPaletteSize)
  /\ minC (calculateColorCounts w h maxPaletteSize)
     <= maxC (calculateColorCounts w h maxPaletteSize)
  /\ maxC (calculateColorCounts w h maxPaletteSize) <= maxPaletteSize
  /\ (shouldShowNumbers (calculateColorCounts w h maxPaletteSize) = true
      <-> maxC (calculateColorCounts w h maxPaletteSize) = maxPaletteSize)
  /\ calculateColorCounts w h maxPaletteSize
     = calculateColorCounts h w maxPaletteSize.
Proof.
  intros Hpal.
  assert (Hsym : calculateColorCounts w h maxPaletteSize
                 = calculateColorCounts h w maxPaletteSize).
  { unfold calculateColorCounts.
    rewrite (getGridSizeConfig_sym w h), (Nat.mul_comm w h). reflexivity. }
  split; [|split; [|split; [|split; [|exact Hsym]]]];
    unfold calculateColorCounts;
    destruct (config_cells w h) as [Hmin [Hlo Hhi]];
    pose proof (@ceilDiv_antitone (w * h)
                  (minCellsPerColor (getGridSizeConfig w h))
                  (maxCellsPerColor (getGridSizeConfig w h))
                  ltac:(lia) ltac:(lia)) as Hceil;
    set (idealMin := ceilDiv (w * h) (maxCellsPerColor _)) in *;
    set (idealMax := ceilDiv (w * h) (minCellsPerColor _)) in *;
    destruct (Nat.ltb_spec maxPaletteSize idealMax) as [Hex|Hin];
    cbn [minC maxC shouldShowNumbers].
  - lia.
  - lia.
  - pose proof (Nat.Div0.div_le_upper_bound (maxPaletteSize * 3) 4
                  maxPaletteSize ltac:(lia)). lia.
  - lia.
  - lia.
  - lia.
  - split; reflexivity.
  - rewrite Nat.leb_le. lia.
Qed.

Lemma calculateColorCounts_bounds_witness :
  4 <= 20
  /\ 4 <= minC (calculateColorCounts 8 8 20)
  /\ minC (calculateColorCounts 8 8 20) <= maxC (calculateColorCounts 8 8 20)
  /\ maxC (calculateColorCounts 8 8 20) <= 20.
Proof.
  assert (H : 4 <= 20) by lia.
  destruct (@calculateColorCounts_bounds 8 8 20 H) as (H1 & H2 & H3 & _).
  repeat split; assumption.
Defined.

Lemma years_print_as_4 (y : nat) :
  1000 <= y < 100 * 100 -> printsAs4 y = true.
Proof.
  intros Hy.
  assert (Hall : forallb printsAs4 (seq 1000 (90 * 100)) = true)
    by (vm_compute; reflexivity).
  rewrite forallb_forall in Hall. apply Hall. apply in_seq. lia.
Qed.

Lemma small_prints_as_2 (n : nat) : n <= 31 -> printsAs2 n = true.
Proof.
  intros Hn.
  assert (Hall : forallb printsAs2 (seq 0 32) = true)
    by (vm_compute; reflexivity).
  rewrite forallb_forall in Hall. apply Hall. apply in_seq. lia.
Qed.

Lemma daysInMonth_le_31 (y m : nat) : daysInMonth y m <= 31.
Proof.
  unfold daysInMonth.
  do 13 (destruct m as [|m]; [try lia; destruct (isLeapYear y); lia|]). lia.
Qed.

(** Reading back what [getTodayDateString] prints. *)
Lemma parse_getTodayDateString (d : CivilDate) :
  validDate d -> parseIsoDate (getTodayDateString d) = Some d.
Proof.
  intros (Hy & Hm & Hd). destruct d as [y m dd]. cbn [year month day] in *.
  pose proof (years_print_as_4 Hy) as H4.
  pose proof (@small_prints_as_2 m ltac:(lia)) as Hm2.
  pose proof (daysInMonth_le_31 y m) as H31.
  pose proof (@small_prints_as_2 dd ltac:(lia)) as Hd2.
  unfold getTodayDateString. cbn [year month day].
  unfold printsAs4 in H4. unfold printsAs2 in Hm2, Hd2.
  destruct (Validator.showNat y) as [|a [|b [|c [|e [|]]]]]; try discriminate.
  destruct (pad2 m) as [|m1 [|m2 [|]]]; try discriminate.
  destruct (pad2 dd) as [|d1 [|d2 [|]]]; try discriminate.
  cbn [String.append parseIsoDate].
  destruct (number2 a b) as [hi|]; [|discriminate].
  destruct (number2 c e) as [lo|]; [|discriminate].
  destruct (number2 m1 m2) as [mv|]; [|discriminate].
  destruct (number2 d1 d2) as [dv|]; [|discriminate].
  apply andb_prop in H4 as [Hhi Hlo].
  apply Nat.eqb_eq in Hhi, Hlo, Hm2, Hd2. subst hi lo mv dv.
  assert (Hyear : 100 * (y / 100) + y mod 100 = y).
  { symmetry. apply Nat.div_mod_eq. }
  rewrite Hyear.
  replace (nat_of_ascii "-" =? 45) with true by reflexivity.
  replace (1 <=? m) with true by (symmetry; apply Nat.leb_le; lia).
  replace (m <=? 12) with true by (symmetry; apply Nat.leb_le; lia).
  replace (1 <=? dd) with true by (symmetry; apply Nat.leb_le; lia).
  replace (dd <=? daysInMonth y m) with true
    by (symmetry; apply Nat.leb_le; lia).
  reflexivity.
Qed.

(** X14.  The seed of today's challenge, for every date of the
    calendar with a four-digit year: at UTC and east of it
    [dateToSeed(getTodayDateString())] is today's date read as
    [YYYYMMDD]; west of UTC it is the date of the day before. *)
Theorem dateToSeed_of_today (utcOffsetMinutes : Z) (today : CivilDate) :
  validDate today ->
  dateToSeed utcOffsetMinutes (getTodayDateString today)
  = Some (if (utcOffsetMinutes <? 0)%Z then yyyymmdd (previousDay today)
          else yyyymmdd today).
Proof.
  intros Hvalid. unfold dateToSeed, localDateOf, yyyymmdd.
  rewrite (parse_getTodayDateString Hvalid).
  destruct (utcOffsetMinutes <? 0)%Z; reflexivity.
Qed.

Lemma dateToSeed_of_today_witness :
  validDate (mkDate 2024 3 1)
  /\ dateToSeed (-480) (getTodayDateString (mkDate 2024 3 1))
     = Some 20240229%Z
  /\ dateToSeed 330 (getTodayDateString (mkDate 2024 3 1))
     = Some 20240301%Z.
Proof.
  assert (H : validDate (mkDate 2024 3 1)).
  { unfold validDate. simpl. lia. }
  split; [exact H|]. split.
  - exact (@dateToSeed_of_today (-480) (mkDate 2024 3 1) H).
  - exact (@dateToSeed_of_today 330 (mkDate 2024 3 1) H).
Defined.

End DailyExtras.
(* ------------------------------------------------------------------ *)
(** * The daily challenge as a whole *)

Section DailyChallengeExtras.
Import Prng Generator Daily.

(** X15.  [generateDailyChallenge] always returns a level, of 8 by 8
    cells and with no path shorter than three, whatever the date and the
    zone, as long as the palette is not empty and both random sources
    keep to [\[0, 1)]. *)
Theorem generateDailyChallenge_returns
    (mulberry32 : Z -> Rng) (mathRandom : Rng)
    (waterPalette : list ColorPalette) (utcOffsetMinutes : Z)
    (today : CivilDate) :
  (forall s, wellFormed (mulberry32 s)) -> wellFormed mathRandom ->
  1 <= length waterPalette ->
  exists lv,
    generateDailyChallenge mulberry32 mathRandom waterPalette utcOffsetMinutes
      today = Returned lv
    /\ width lv = 8 /\ height lv = 8
    /\ forall q, In q (solvedPaths lv) -> 3 <= length (path q).
Proof.
  intros Hseeded Hplatform Hpal. unfold generateDailyChallenge.
  set (seed := dateToSeed utcOffsetMinutes (getTodayDateString today)).
  set (counts := calculateColorCounts 8 8 (length waterPalette)).
  assert (Hwf : wellFormed (randomOf mulberry32 mathRandom seed)).
  { unfold randomOf. destruct seed as [s|]; [|exact Hplatform].
    destruct (s =? 0)%Z; [exact Hplatform | apply Hseeded]. }
  assert (Hmin : (1 <= Z.of_nat (minC counts))%Z).
  { unfold counts, calculateColorCounts.
    destruct (length waterPalette <? _); cbn [minC]; lia. }
  destruct (@generateLevel_returns mulberry32 mathRandom 8 8
              (Z.of_nat (minC counts)) (Z.of_nat (maxC counts))
              (Some waterPalette) seed None Hwf Hmin Hpal) as (g & Hrun).
  rewrite Hrun. exists (level g).
  pose proof Hrun as Hshape. eapply generateLevel_shape in Hshape; [|exact Hwf].
  destruct Hshape as (Hw & Hh & _ & Hlong).
  repeat split; auto.
Qed.

Lemma generateDailyChallenge_returns_witness :
  (forall s, wellFormed (Samples.constantPrng s))
  /\ wellFormed Samples.zeroStream
  /\ exists lv,
       generateDailyChallenge Samples.constantPrng Samples.zeroStream
         [mkColor 0 "#0ea5e9"; mkColor 1 "#22d3ee"; mkColor 2 "#38bdf8";
          mkColor 3 "#7dd3fc"] 0 (mkDate 2024 1 15)
       = Returned lv
       /\ width lv = 8 /\ height lv = 8.
Proof.
  assert (H1 : forall s, wellFormed (Samples.constantPrng s)).
  { intros s. unfold Samples.constantPrng, Samples.streamA.
    apply cycle_wellFormed; [discriminate|].
    apply Forall_forall. intros u [<-|[<-|[]]].
    - apply (@unitDouble_dyadic _ 0 0); try reflexivity; lia.
    - apply (@unitDouble_dyadic _ 1 (-1)); try reflexivity; lia. }
  assert (H2 : wellFormed Samples.zeroStream) by exact zeroStream_wellFormed.
  split; [exact H1|]. split; [exact H2|].
  assert (H3 : 1 <= length [mkColor 0 "#0ea5e9"; mkColor 1 "#22d3ee";
                             mkColor 2 "#38bdf8"; mkColor 3 "#7dd3fc"])
    by (cbn [length]; lia).
  destruct (@generateDailyChallenge_returns Samples.constantPrng
              Samples.zeroStream _ 0 (mkDate 2024 1 15) H1 H2 H3)
    as (lv & Hrun & Hw & Hh & _).
  exists lv. split; [exact Hrun|]. split; assumption.
Defined.

End DailyChallengeExtras.
(* ------------------------------------------------------------------ *)
(** * The completion check *)

Section CompletionExtras.
Import Grid Prng Validator Generator Props GenProps Completion CompletionProps.

Lemma drawn_from_lookup (ps : list PathEntry) : forall (m : UserPaths) k,
  NoDup (map colorId ps) ->
  lookup k (fold_left (fun m p => setEntry (colorId p) (path p) m) ps m)
  = match find (fun q => colorId q =? k) ps with
    | Some q => Some (path q)
    | None => lookup k m
    end.
Proof.
  induction ps as [|q ps IH]; intros m k Hnd; [reflexivity|].
  inversion Hnd as [|x0 l0 Hfresh Hrest]; subst x0 l0.
  cbn [fold_left find]. rewrite (IH _ k Hrest), lookup_setEntry.
  destruct (Nat.eqb_spec (colorId q) k) as [Heq|Hne].
  - destruct (find (fun q0 => colorId q0 =? k) ps) as [q'|] eqn:Hfind.
    + exfalso. apply find_some in Hfind as [Hin Hk].
      apply Nat.eqb_eq in Hk. apply Hfresh. rewrite Heq, <- Hk.
      apply in_map. exact Hin.
    + rewrite <- Heq, Nat.eqb_refl. reflexivity.
  - destruct (Nat.eqb_spec k (colorId q)) as [Heq|_]; [congruence|].
    reflexivity.
Qed.

Lemma drawn_lookup (ps : list PathEntry) (k : nat) :
  NoDup (map colorId ps) ->
  lookup k (drawn ps) = option_map path (find (fun q => colorId q =? k) ps).
Proof.
  intros Hnd. unfold drawn. rewrite (@drawn_from_lookup ps [] k Hnd).
  destruct (find _ ps); reflexivity.
Qed.

Lemma drawn_from_cells (ps : list PathEntry) : forall m : UserPaths,
  NoDup (map colorId ps) ->
  (forall q, In q ps -> ~ In (colorId q) (map fst m)) ->
  Permutation
    (concat (map snd
       (fold_left (fun m p => setEntry (colorId p) (path p) m) ps m)))
    (concat (map snd m) ++ allCells ps).
Proof.
  induction ps as [|q ps IH]; intros m Hnd Hfresh.
  - cbn [fold_left]. unfold allCells. cbn [map concat].
    rewrite app_nil_r. apply Permutation_refl.
  - inversion Hnd as [|x0 l0 Hq Hrest]; subst x0 l0. cbn [fold_left].
    etransitivity.
    + apply IH; [exact Hrest|]. intros q' Hin Hkey.
      apply setEntry_keys in Hkey as [Heq|Hold].
      * apply Hq. rewrite <- Heq. apply in_map. exact Hin.
      * apply (Hfresh q'); [now right | exact Hold].
    + assert (Hset : Permutation (setEntry (colorId q) (path q) m)
                       ((colorId q, path q) :: m)).
      { apply setEntry_fresh. apply Hfresh. now left. }
      rewrite <- !flat_map_concat_map.
      rewrite (Permutation_flat_map snd Hset). cbn [flat_map snd].
      unfold allCells. cbn [map concat]. rewrite <- flat_map_concat_map.
      rewrite !app_assoc. apply Permutation_app_tail.
      apply Permutation_app_comm.
Qed.

Lemma drawn_cells (ps : list PathEntry) :
  NoDup (map colorId ps) ->
  Permutation (concat (map snd (drawn ps))) (allCells ps).
Proof.
  intros Hnd. unfold drawn.
  apply (@drawn_from_cells ps [] Hnd). intros q _ [].
Qed.

Lemma combine_seq_nth (l : list nat) : forall s i c,
  In (i, c) (combine (seq s (length l)) l) ->
  s <= i /\ nth_error l (i - s) = Some c.
Proof.
  induction l as [|x l IH]; intros s i c; cbn [length seq combine];
    [intros []|].
  intros [[= <- <-]|Hin].
  - split; [lia|]. rewrite Nat.sub_diag. reflexivity.
  - apply IH in Hin as [Hle Hnth]. split; [lia|].
    replace (i - s) with (S (i - S s)) by lia. exact Hnth.
Qed.

Lemma sameCells_refl (p : list nat) : sameCells p p = true.
Proof.
  unfold sameCells. apply forallb_forall. intros [i c] Hin.
  apply combine_seq_nth in Hin as [_ Hnth]. rewrite Nat.sub_0_r in Hnth.
  cbn [fst snd]. rewrite Hnth. apply Nat.eqb_refl.
Qed.

(** What the anchor rules give for one colour that has an anchor. *)
Lemma accepted_color_joined (lv : LevelData) (k : nat) :
  checkAnchors lv = None ->
  In k (map fst (groupAnchors (anchors lv))) ->
  exists p,
    find (fun q => colorId q =? k) (solvedPaths lv) = Some p
    /\ length (anchorIndicesOf lv k) = 2
    /\ joinsAnchors (anchorIndicesOf lv k) (path p) = true.
Proof.
  intros Hanchors Hin. unfold checkAnchors in Hanchors.
  rewrite firstError_None in Hanchors.
  apply in_map_iff in Hin as ([k' cells] & Hk & Hin). cbn [fst] in Hk.
  subst k'. specialize (Hanchors _ Hin).
  apply In_groupAnchors in Hin as [Hcells _].
  change (cellsOf k (anchors lv)) with (anchorIndicesOf lv k) in Hcells.
  subst cells. unfold checkColor in Hanchors. cbn [fst snd] in Hanchors.
  destruct (length (anchorIndicesOf lv k) =? 2) eqn:Hlen; [|discriminate].
  apply Nat.eqb_eq in Hlen. cbn [negb] in Hanchors.
  destruct (find _ (solvedPaths lv)) as [p|]; [|discriminate].
  destruct (length (path p) <? 2) eqn:Hshort; [discriminate|].
  apply Nat.ltb_ge in Hshort.
  destruct (negb (includes _ (pathStart (path p)))
            || negb (includes _ (pathEnd (path p)))) eqn:Hends;
    [discriminate|].
  apply orb_false_iff in Hends as [Hs He].
  apply negb_false_iff in Hs. apply negb_false_iff in He.
  destruct (pathStart (path p) =? pathEnd (path p)) eqn:Hsame; [discriminate|].
  exists p. repeat split; auto. unfold joinsAnchors.
  destruct (path p) as [|c0 rest] eqn:Hp; [simpl in Hshort; lia|].
  rewrite Hs, He, Hsame. reflexivity.
Qed.

Lemma drawn_solution_completes (lv : LevelData) :
  firstViolation lv = None ->
  NoDup (map colorId (solvedPaths lv)) ->
  levelCompleted lv (drawn (solvedPaths lv)) = true
  /\ hasLineBreaks lv (drawn (solvedPaths lv)) = false.
Proof.
  intros Hvalid Hcolors. apply firstViolation_None in Hvalid.
  destruct Hvalid as (_ & Hanchors & Hoverlap & Hfilled & _).
  apply checkOverlap_None in Hoverlap. apply checkFilled_None in Hfilled.
  pose proof (@drawn_cells _ Hcolors) as Hperm. split.
  - unfold levelCompleted, cellsFilled.
    assert (Hnd : NoDup (concat (map snd (drawn (solvedPaths lv))))).
    { apply (Permutation_NoDup (Permutation_sym Hperm)). exact Hoverlap. }
    rewrite (nodup_fixed_point Nat.eq_dec Hnd).
    rewrite (Permutation_length Hperm).
    rewrite (nodup_fixed_point Nat.eq_dec Hoverlap) in Hfilled.
    rewrite Hfilled, Nat.eqb_refl. cbn [negb].
    unfold allConnected. apply forallb_forall. intros k Hk.
    destruct (@accepted_color_joined lv k Hanchors Hk) as (p & Hfind & _ & Hj).
    unfold connected. rewrite (@drawn_lookup _ k Hcolors), Hfind.
    exact Hj.
  - unfold hasLineBreaks.
    destruct (existsb _ (solvedPaths lv)) eqn:Hex; [|reflexivity].
    apply existsb_exists in Hex as (q & Hin & Hbreak).
    unfold userPathOf in Hbreak.
    rewrite (@drawn_lookup _ (colorId q) Hcolors) in Hbreak.
    rewrite (@find_by_color _ _ Hcolors Hin) in Hbreak. cbn [option_map] in Hbreak.
    rewrite Nat.eqb_refl, sameCells_refl in Hbreak. cbn [negb orb] in Hbreak.
    rewrite andb_false_r in Hbreak. discriminate.
Qed.

(** X16.  A level the validator accepts, whose paths have distinct
    colours, is recognised as complete once the player has drawn the
    stored solution, and the perfect-score computation finds no line
    break in what was drawn. *)
Theorem stored_solution_completes_level (lv : LevelData) :
  isValid (validateNumberlinkRules lv) = true ->
  NoDup (map colorId (solvedPaths lv)) ->
  levelCompleted lv (drawn (solvedPaths lv)) = true
  /\ hasLineBreaks lv (drawn (solvedPaths lv)) = false.
Proof.
  intros Hvalid Hcolors. apply valid_iff in Hvalid.
  apply drawn_solution_completes; assumption.
Qed.

Lemma stored_solution_completes_level_witness :
  isValid (validateNumberlinkRules Samples.snake3x4) = true
  /\ NoDup (map colorId (solvedPaths Samples.snake3x4))
  /\ levelCompleted Samples.snake3x4 (drawn (solvedPaths Samples.snake3x4))
     = true
  /\ hasLineBreaks Samples.snake3x4 (drawn (solvedPaths Samples.snake3x4))
     = false.
Proof.
  assert (H1 : isValid (validateNumberlinkRules Samples.snake3x4) = true)
    by reflexivity.
  assert (H2 : NoDup (map colorId (solvedPaths Samples.snake3x4))).
  { cbn. repeat (apply NoDup_cons; [cbn [In]; lia|]). apply NoDup_nil. }
  split; [exact H1|]. split; [exact H2|].
  exact (@stored_solution_completes_level Samples.snake3x4 H1 H2).
Defined.

(** X17.  The completion check agrees with [isPathComplete]: when it
    fires, every colour with exactly two anchors has a user path that
    [isPathComplete] accepts. *)
Theorem completed_level_paths_are_complete
    (lv : LevelData) (userPaths : UserPaths) (k : nat) :
  levelCompleted lv userPaths = true ->
  length (anchorIndicesOf lv k) = 2 ->
  exists p, lookup k userPaths = Some p /\ isPathComplete lv p k = true.
Proof.
  unfold levelCompleted. intros Hdone Htwo.
  destruct (negb (length (cellsFilled userPaths) =? width lv * height lv));
    [discriminate|].
  unfold allConnected in Hdone. rewrite forallb_forall in Hdone.
  assert (Hk : In k (map fst (groupAnchors (anchors lv)))).
  { pose proof (lookup_groupAnchors k (anchors lv)) as Hgroup.
    change (cellsOf k (anchors lv)) with (anchorIndicesOf lv k) in Hgroup.
    destruct (anchorIndicesOf lv k) as [|a rest] eqn:Hcells;
      [discriminate Htwo|].
    apply lookup_In in Hgroup. apply (in_map fst) in Hgroup. exact Hgroup. }
  specialize (Hdone k Hk). unfold connected in Hdone.
  destruct (lookup k userPaths) as [p|]; [|discriminate].
  exists p. split; [reflexivity|]. unfold isPathComplete.
  unfold joinsAnchors in Hdone. destruct p as [|c0 rest]; [discriminate|].
  cbn [length Nat.eqb]. rewrite Htwo. exact Hdone.
Qed.

Lemma completed_level_paths_are_complete_witness :
  levelCompleted Samples.row3 [(0, [2; 1; 0])] = true
  /\ length (anchorIndicesOf Samples.row3 0) = 2
  /\ exists p, lookup 0 [(0, [2; 1; 0])] = Some p
               /\ isPathComplete Samples.row3 p 0 = true.
Proof.
  assert (H1 : levelCompleted Samples.row3 [(0, [2; 1; 0])] = true)
    by reflexivity.
  assert (H2 : length (anchorIndicesOf Samples.row3 0) = 2) by reflexivity.
  split; [exact H1|]. split; [exact H2|].
  exact (@completed_level_paths_are_complete Samples.row3 [(0, [2; 1; 0])] 0
           H1 H2).
Defined.

(** X18.  Every level the primary generator returns can be finished
    with its own stored solution: drawing [solvedPaths] makes the
    completion check fire, with no line break. *)
Theorem primary_level_is_completed_by_its_solution
    (mulberry32 : Z -> Rng) (mathRandom : Rng) (w h : nat) (minC maxC : Z)
    (palette : option (list ColorPalette)) (seed : option Z)
    (maxAttempts : option nat) (lv : LevelData) :
  wellFormed (randomOf mulberry32 mathRandom seed) ->
  (1 <= minC)%Z ->
  generateLevel mulberry32 mathRandom w h minC maxC palette seed maxAttempts
  = Returned {| level := lv; usedFallback := false |} ->
  levelCompleted lv (drawn (solvedPaths lv)) = true
  /\ hasLineBreaks lv (drawn (solvedPaths lv)) = false.
Proof.
  intros Hwf Hmin Hrun.
  destruct (generateLevel_primary _ _ _ _ _ _ _ _ _ Hrun) as (n & p & Hloop).
  destruct (attemptLoop_success _ _ _ _ _ _ _ Hloop) as (p0 & p1 & Hattempt).
  pose proof (@runAttempt_chain _ Hwf _ _ _ _ _ _ _ Hattempt) as Hchain.
  destruct (runAttempt_success Hwf _ _ _ _ _ Hattempt)
    as (Hw & Hh & _ & Hnd & Hcover & Hinside & _ & Hcount & Hlong & Hcolors
        & Hperm & _).
  apply drawn_solution_completes; [|exact Hcolors].
  apply chains_pass_validation; rewrite ?Hw, ?Hh; auto.
  destruct (solvedPaths lv); [simpl in Hcount; lia | discriminate].
Qed.

Lemma primary_level_is_completed_by_its_solution_witness :
  wellFormed (randomOf Samples.constantPrng Samples.zeroStream None)
  /\ (1 <= 2)%Z
  /\ levelCompleted Samples.snake3x4 (drawn (solvedPaths Samples.snake3x4))
     = true
  /\ hasLineBreaks Samples.snake3x4 (drawn (solvedPaths Samples.snake3x4))
     = false.
Proof.
  assert (Hwf : wellFormed (randomOf Samples.constantPrng Samples.zeroStream None))
    by exact zeroStream_wellFormed.
  assert (Hrun :
    generateLevel Samples.constantPrng Samples.zeroStream 3 4 2 4 None None None
    = Returned {| level := Samples.snake3x4; usedFallback := false |})
    by (vm_compute; reflexivity).
  split; [exact Hwf|]. split; [lia|].
  apply (@primary_level_is_completed_by_its_solution Samples.constantPrng
           Samples.zeroStream 3 4 2 4 None None None Samples.snake3x4 Hwf);
    [lia | exact Hrun].
Defined.

End CompletionExtras.
